(** * mana-script: the recursive-descent parser and the tree-walking
    interpreter, embedded shallowly.

    Sources followed:
    - [src/src/parser.cpp]     (class [Parser])
    - [src/unnamed/part_000]   (class [Interpreter], the .cpp)
    - [src/unnamed/part_001]   (interpreter.hpp: [Value], the fields)

    The headers [token.hpp], [ast.hpp], [parser.hpp] and [error.hpp] are not
    part of the sources at hand; the types they declare are reconstructed
    from the way the two .cpp files use them, and each such type says so. *)

From Stdlib Require Import ZArith List String Ascii Bool Lia Floats DecimalString.
From stdpp Require Import base decidable option gmap strings.
Import ListNotations.

Set Warnings "-register-all".

Local Open Scope string_scope.
Local Open Scope list_scope.
Local Open Scope Z_scope.

(** ** Tokens *)

(** [TokenType] (token.hpp, absent): the enumerators that parser.cpp and the
    interpreter name. *)
Inductive TokenType : Set :=
  | END_OF_FILE | SEMICOLON | COMMA
  | LEFT_PAREN | RIGHT_PAREN | LEFT_BRACE | RIGHT_BRACE
  | FUNCTION | VAR | CONST | FOR | IF | ELSE | WHILE | RETURN | PRINT
  | EQUAL | OR | AND | BANG | BANG_EQUAL | EQUAL_EQUAL
  | GREATER | GREATER_EQUAL | LESS | LESS_EQUAL
  | MINUS | PLUS | SLASH | STAR | PERCENT
  | FALSE | TRUE | NIL
  | INTEGER_LITERAL | FLOAT_LITERAL | STRING_LITERAL | IDENTIFIER.

#[global] Instance TokenType_eq_dec : EqDecision TokenType.
Proof. solve_decision. Defined.

(** [Token]: the four fields the parser reads ([type], [lexeme], [line],
    [column]). *)
Record Token : Set := mkToken {
  type : TokenType;
  lexeme : string;
  line : nat;
  column : nat
}.

(** ** Values *)

(** The C++ [double]: IEEE 754 binary64, as the primitive floats are. *)
Abbreviation double := PrimFloat.float.

(** [using Value = std::variant<int, double, std::string, bool,
    std::nullptr_t>], alternatives in the order of their index. *)
Inductive Value : Type :=
  | VInt (n : Z)
  | VDouble (d : double)
  | VString (s : string)
  | VBool (b : bool)
  | VNil.

(** The alternative held, [std::variant::index]. *)
Definition index (v : Value) : nat :=
  match v with
  | VInt _ => 0 | VDouble _ => 1 | VString _ => 2 | VBool _ => 3 | VNil => 4
  end%nat.

(** A 32-bit [int] is an integer in [-2^31, 2^31); arithmetic that leaves
    the range is reduced modulo 2^32 (what the hardware does; the language
    leaves signed overflow undefined). *)
Definition wrap32 (z : Z) : Z := (z + 2147483648) mod 4294967296 - 2147483648.

Definition int_add (a b : Z) : Z := wrap32 (a + b).
Definition int_sub (a b : Z) : Z := wrap32 (a - b).
Definition int_mul (a b : Z) : Z := wrap32 (a * b).
(** [/] on [int] truncates toward zero; the divisor is never 0 here.  The
    quotient of two [int]s is an [int], but for -2^31 by -1: that division
    has no defined behaviour in C++, and on x86-64 the instruction traps and
    the process is killed (SIGFPE): there is no quotient ([None]). *)
Definition int_div (a b : Z) : option Z :=
  if (a =? -2147483648) && (b =? -1) then None else Some (Z.quot a b).
Definition int_neg (a : Z) : Z := wrap32 (- a).

(** [std::to_string(int)]: decimal digits, a leading [-] when negative. *)
Definition to_string (n : Z) : string := NilZero.string_of_int (Z.to_int n).

(** [operator==] of [std::variant]: the same alternative on both sides and
    the payloads equal under that alternative's own [==]. *)
Definition value_eq (a b : Value) : bool :=
  match a, b with
  | VInt x, VInt y => Z.eqb x y
  | VDouble x, VDouble y => PrimFloat.eqb x y
  | VString x, VString y => String.eqb x y
  | VBool x, VBool y => Bool.eqb x y
  | VNil, VNil => true
  | _, _ => false
  end.

(** [operator!=] of [std::variant]: a different alternative, or payloads
    that differ under the alternative's own [!=]. *)
Definition value_ne (a b : Value) : bool :=
  match a, b with
  | VInt x, VInt y => negb (Z.eqb x y)
  | VDouble x, VDouble y => negb (PrimFloat.eqb x y)
  | VString x, VString y => negb (String.eqb x y)
  | VBool x, VBool y => negb (Bool.eqb x y)
  | VNil, VNil => false
  | _, _ => true
  end.

(** ** How a member function ends *)

(** The exceptions thrown, and [trap]: no exception, but the end of the
    process where the hardware stops it (the [int] division that
    overflows); nothing catches it. *)
Inductive exception : Set :=
  | ParseError (what : string)
  | runtime_error (what : string)
  | invalid_argument (what : string)
  | out_of_range (what : string)
  | trap (signal : string).

(** How a member function ends: it returns, or an exception leaves it. *)
Inductive result (A : Type) : Type :=
  | Return (a : A)
  | Throw (e : exception).
Arguments Return {A} a.
Arguments Throw {A} e.

(** ** [std::stod]

    The standard-library conversion that [Parser::primary] applies to the
    lexeme of a numeric token: [strtod] of the C library (glibc, "C"
    locale) on the text, and an exception where [strtod] converts nothing
    or reports a range error.  [strtod] skips white space, reads an optional
    sign and then the longest of: [inf] or [nan] in either case; [0x] and
    hexadecimal digits with an optional [.] and an optional binary exponent
    ([p], optional sign, digits); decimal digits with an optional [.] and an
    optional exponent ([e], optional sign, digits).  Whatever follows is left
    unread.  The result is the binary64 nearest to the number (ties to
    even).  [std::stod] throws [std::invalid_argument] when nothing can be
    read and [std::out_of_range] when [strtod] reports a range error: the
    value overflows, or it is tiny and not represented exactly.  (The
    primitive floats have one NaN: the sign and the payload that [strtod]
    gives a NaN are not kept.) *)

(** [isspace] in the "C" locale: the blank and the controls 9 to 13. *)
Definition is_space (c : ascii) : bool :=
  let n := Z.of_nat (nat_of_ascii c) in (n =? 32) || ((9 <=? n) && (n <=? 13)).

Fixpoint skip_spaces (s : string) : string :=
  match s with
  | String c rest => if is_space c then skip_spaces rest else s
  | EmptyString => s
  end.

(** An optional sign: whether it is [-], and what follows it. *)
Definition read_sign (s : string) : bool * string :=
  match s with
  | String c rest =>
      if Ascii.eqb c "-" then (true, rest)
      else if Ascii.eqb c "+" then (false, rest)
      else (false, s)
  | EmptyString => (false, s)
  end.

Definition lower (c : ascii) : ascii :=
  let n := nat_of_ascii c in
  if ((65 <=? n) && (n <=? 90))%nat then ascii_of_nat (n + 32) else c.

(** Whether [s] starts with the letters of [word] (in lower case), in
    either case. *)
Fixpoint starts_with (word s : string) : bool :=
  match word, s with
  | EmptyString, _ => true
  | String w word', String c s' => Ascii.eqb w (lower c) && starts_with word' s'
  | String _ _, EmptyString => false
  end.

Definition digit_of (c : ascii) : option Z :=
  let n := Z.of_nat (nat_of_ascii c) in
  if (48 <=? n) && (n <=? 57) then Some (n - 48) else None.

Definition hex_digit_of (c : ascii) : option Z :=
  let n := Z.of_nat (nat_of_ascii (lower c)) in
  if (48 <=? n) && (n <=? 57) then Some (n - 48)
  else if (97 <=? n) && (n <=? 102) then Some (n - 87)
  else None.

(** The digits at the head of [s], added to [acc]: the number, the count of
    digits read, and what follows them. *)
Fixpoint read_digits_of (digit : ascii -> option Z) (base : Z) (s : string)
  (acc : Z) (cnt : nat) : Z * nat * string :=
  match s with
  | String c rest =>
      match digit c with
      | Some d => read_digits_of digit base rest (base * acc + d) (S cnt)
      | None => (acc, cnt, s)
      end
  | EmptyString => (acc, cnt, s)
  end.

Definition read_digits : string -> Z -> nat -> Z * nat * string :=
  read_digits_of digit_of 10.

Definition read_hex_digits : string -> Z -> nat -> Z * nat * string :=
  read_digits_of hex_digit_of 16.

(** The digits before and after an optional [.]: the number they spell
    without the point, how many there are in all, how many after the point,
    and what follows. *)
Definition read_mantissa (read : string -> Z -> nat -> Z * nat * string)
  (s : string) : Z * nat * nat * string :=
  let '(ip, ni, r1) := read s 0 O in
  let '(m, nf, r2) :=
    match r1 with
    | String c r => if Ascii.eqb c "." then read r ip O else (ip, O, r1)
    | EmptyString => (ip, O, r1)
    end in
  (m, (ni + nf)%nat, nf, r2).

(** The exponent part, when one is there: the letter [mark] in either case,
    an optional sign and at least one decimal digit; otherwise the exponent
    is 0 and nothing is read. *)
Definition read_exponent (mark : ascii) (s : string) : Z :=
  match s with
  | String c rest =>
      if Ascii.eqb (lower c) mark then
        let '(neg, digits) := read_sign rest in
        let '(e, _, _) := read_digits digits 0 O in
        if neg then - e else e
      else 0
  | EmptyString => 0
  end.

(** The fraction [num / den] as the nearest binary64 ([num], [den] > 0). *)
Definition round_fraction (num den : Z) : spec_float :=
  let '(q, e, l) := SFdiv_core_binary prec emax num 0 den 0 in
  binary_round_aux prec emax false q e l.

(** Whether the finite [x] is exactly [num / den]. *)
Definition exactly (x : spec_float) (num den : Z) : bool :=
  match x with
  | S754_finite _ m e =>
      if 0 <=? e then Z.pos m * 2 ^ e * den =? num
      else Z.pos m * den =? num * 2 ^ (- e)
  | _ => false
  end.

(** Whether [num / den], rounded to 53 bits as if the exponent had no lower
    bound, is below the least normal binary64, 2^-1022: tininess is detected
    after rounding. *)
Definition wide_emax : Z := 2 ^ 64.

Definition tiny (num den : Z) : bool :=
  let '(q, e, l) := SFdiv_core_binary prec wide_emax num 0 den 0 in
  match binary_round_aux prec wide_emax false q e l with
  | S754_finite _ m e => Z.pos (digits2_pos m) + e <=? -1022
  | S754_zero _ => true
  | _ => false
  end.

(** [m * base ^ e] with [m] > 0 as a binary64; the range error of [strtod]
    is an overflow, or a tiny result that is not exact. *)
Definition scaled (m base e : Z) : exception + spec_float :=
  let num := if 0 <=? e then m * base ^ e else m in
  let den := if 0 <=? e then 1 else base ^ (- e) in
  let x := round_fraction num den in
  match x with
  | S754_finite _ _ _ =>
      if tiny num den && negb (exactly x num den)
      then inl (out_of_range "stod")
      else inr x
  | _ => inl (out_of_range "stod")
  end.

Definition decimal (s : string) : exception + spec_float :=
  let '(m, n, nf, r) := read_mantissa read_digits s in
  match n with
  | O => inl (invalid_argument "stod")
  | _ =>
      if m =? 0 then inr (S754_zero false)
      else scaled m 10 (read_exponent "e" r - Z.of_nat nf)
  end.

(** What follows [0x], when a hexadecimal digit does, straight away or after
    a [.]; otherwise the text is read as a decimal (the [0] alone). *)
Definition hex_prefixed (s : string) : option string :=
  match s with
  | String z (String x r) =>
      if Ascii.eqb z "0" && Ascii.eqb (lower x) "x" then
        match r with
        | String c r' =>
            match hex_digit_of c with
            | Some _ => Some r
            | None =>
                if Ascii.eqb c "." then
                  match r' with
                  | String c' _ =>
                      match hex_digit_of c' with
                      | Some _ => Some r
                      | None => None
                      end
                  | EmptyString => None
                  end
                else None
            end
        | EmptyString => None
        end
      else None
  | _ => None
  end.

Definition hexadecimal (s : string) : exception + spec_float :=
  let '(m, _, nf, r) := read_mantissa read_hex_digits s in
  if m =? 0 then inr (S754_zero false)
  else scaled m 2 (read_exponent "p" r - 4 * Z.of_nat nf).

Definition stod (s : string) : exception + double :=
  let '(neg, s) := read_sign (skip_spaces s) in
  let magnitude :=
    if starts_with "inf" s then inr (S754_infinity false)
    else if starts_with "nan" s then inr S754_nan
    else
      match hex_prefixed s with
      | Some digits => hexadecimal digits
      | None => decimal s
      end in
  match magnitude with
  | inr x => inr (SF2Prim (if neg then SFopp x else x))
  | inl e => inl e
  end.

(** ** The syntax tree

    [ast.hpp] is absent; the node classes are reconstructed from the
    constructor calls of parser.cpp and the getters the interpreter uses.  A
    [LiteralExpr] is built from a [bool], a [nullptr], a [double] or a
    [std::string] and hands the interpreter a [Value], so it holds the
    [Value] with that alternative.  A pointer that the code tests for null
    is an [option]. *)

Inductive Expr : Type :=
  | LiteralExpr (value : Value)
  | UnaryExpr (op : Token) (right : Expr)
  | BinaryExpr (left : Expr) (op : Token) (right : Expr)
  | GroupingExpr (expression : Expr)
  | VariableExpr (name : Token)
  | AssignExpr (name : Token) (value : Expr)
  | CallExpr (callee : Expr) (paren : Token) (arguments : list Expr).

(** No function statement is ever built by the parser and the interpreter
    ignores the node, so only the name is kept of [FunctionStmt]. *)
Inductive Stmt : Type :=
  | ExpressionStmt (expression : Expr)
  | VarDeclStmt (name : Token) (initializer : option Expr) (is_const : bool)
  | BlockStmt (statements : list Stmt)
  | IfStmt (condition : Expr) (thenBranch : Stmt) (elseBranch : option Stmt)
  | WhileStmt (condition : Expr) (body : Stmt)
  | ReturnStmt (keyword : Token) (value : option Expr)
  | FunctionStmt (name : Token).

(** ** Diagnostics ([error.hpp], absent): what [Parser::error] reports. *)

Inductive DiagnosticSeverity : Set := ERROR.

Record SourceLocation : Set := mkLocation {
  loc_filename : string;
  loc_line : nat;
  loc_column : nat
}.

Record Diagnostic : Set := mkDiagnostic {
  severity : DiagnosticSeverity;
  message : string;
  location : SourceLocation
}.

(** ** The parser *)

Module Parser.

(** The object: the token vector, the file name, the cursor, and the
    collector that [diagnostics.report] appends to. *)
Record Parser : Type := mkParser {
  tokens : list Token;
  filename : string;
  current : nat;
  diagnostics : list Diagnostic
}.

Definition Parser_new (tokens : list Token) (filename : string) : Parser :=
  mkParser tokens filename 0 [].

(** A member function: from the object before to the way it ends and the
    object after (an exception leaves the cursor and the collector as they
    were when it was thrown).  [None]: the recursion bound of the model ran
    out; [parse_total] shows it does not. *)
Definition M (A : Type) : Type := Parser -> option (result A * Parser).

Definition ret {A} (a : A) : M A := fun p => Some (Return a, p).
Definition throw {A} (e : exception) : M A := fun p => Some (Throw e, p).
Definition out_of_fuel {A} : M A := fun _ => None.

Definition bind {A B} (m : M A) (f : A -> M B) : M B := fun p =>
  match m p with
  | Some (Return a, p') => f a p'
  | Some (Throw e, p') => Some (Throw e, p')
  | None => None
  end.

Notation "x <- m ;; k" := (bind m (fun x => k))
  (at level 90, m at next level, right associativity).
Notation "m ;;; k" := (bind m (fun _ => k))
  (at level 90, right associativity).

(** [tokens[current]].  An index outside the vector is undefined in C++;
    [parse_total] shows the cursor stays inside when the vector ends with
    the end-of-file token. *)
Definition eof_token : Token := mkToken END_OF_FILE "" 0 0.

Definition peek (p : Parser) : Token := nth (current p) (tokens p) eof_token.

Definition previous (p : Parser) : Token :=
  nth (Nat.pred (current p)) (tokens p) eof_token.

Definition isAtEnd (p : Parser) : bool :=
  bool_decide (type (peek p) = END_OF_FILE).

(** [advance]: the object after; the token returned is [previous] of it. *)
Definition advance (p : Parser) : Parser :=
  if isAtEnd p then p
  else mkParser (tokens p) (filename p) (S (current p)) (diagnostics p).

Definition check (ty : TokenType) (p : Parser) : bool :=
  if isAtEnd p then false else bool_decide (type (peek p) = ty).

(** [match(type)] *)
Definition match_ (ty : TokenType) (p : Parser) : bool * Parser :=
  if check ty p then (true, advance p) else (false, p).

(** [match({types...})] *)
Fixpoint match_any (types : list TokenType) (p : Parser) : bool * Parser :=
  match types with
  | [] => (false, p)
  | ty :: rest => if check ty p then (true, advance p) else match_any rest p
  end.

Definition report (d : Diagnostic) (p : Parser) : Parser :=
  mkParser (tokens p) (filename p) (current p) (diagnostics p ++ [d]).

(** [error(token, message)]: reports, and returns the [ParseError]. *)
Definition error (token : Token) (msg : string) (p : Parser) : exception * Parser :=
  let location := mkLocation (filename p) (line token) (column token) in
  let text :=
    if bool_decide (type token = END_OF_FILE) then (msg ++ " at end of file")%string
    else (msg ++ " at '" ++ lexeme token ++ "'")%string in
  (ParseError msg, report (mkDiagnostic ERROR text location) p).

Definition throw_error {A} (token : Token) (msg : string) : M A := fun p =>
  let '(e, p') := error token msg p in Some (Throw e, p').

Definition consume (ty : TokenType) (msg : string) : M Token := fun p =>
  if check ty p then let p' := advance p in Some (Return (previous p'), p')
  else throw_error (peek p) msg p.

(** [synchronize]: one [advance], then the loop. *)
Fixpoint synchronize_loop (k : nat) (p : Parser) : option Parser :=
  match k with
  | O => None
  | S k' =>
      if isAtEnd p then Some p
      else if bool_decide (type (previous p) = SEMICOLON) then Some p
      else
        match type (peek p) with
        | FUNCTION | VAR | CONST | FOR | IF | WHILE | RETURN => Some p
        | _ => synchronize_loop k' (advance p)
        end
  end.

Definition synchronize (fuel : nat) (p : Parser) : option Parser :=
  synchronize_loop fuel (advance p).

(** *** Expressions.  [expression] stands for the recursive calls back into
    [expression()] (and [assignment()], which is the same function); [fuel]
    bounds the loops. *)

Definition primary (expression : M Expr) : M Expr := fun p =>
  let '(b, p) := match_ FALSE p in
  if b then ret (LiteralExpr (VBool false)) p else
  let '(b, p) := match_ TRUE p in
  if b then ret (LiteralExpr (VBool true)) p else
  let '(b, p) := match_ NIL p in
  if b then ret (LiteralExpr VNil) p else
  let '(b, p) := match_any [INTEGER_LITERAL; FLOAT_LITERAL] p in
  if b then
    match stod (lexeme (previous p)) with
    | inr value => ret (LiteralExpr (VDouble value)) p
    | inl e => throw e p
    end
  else
  let '(b, p) := match_ STRING_LITERAL p in
  if b then ret (LiteralExpr (VString (lexeme (previous p)))) p else
  let '(b, p) := match_ IDENTIFIER p in
  if b then ret (VariableExpr (previous p)) p else
  let '(b, p) := match_ LEFT_PAREN p in
  if b then
    (expr <- expression ;;
     consume RIGHT_PAREN "Expect ')' after expression." ;;;
     ret (GroupingExpr expr)) p
  else throw_error (peek p) "Expect expression." p.

(** The [do ... while (match(COMMA))] of [finishCall]. *)
Fixpoint arguments_loop (k : nat) (expression : M Expr) (arguments : list Expr)
  : M (list Expr) :=
  match k with
  | O => out_of_fuel
  | S k' => fun p =>
      let p :=
        if (255 <=? length arguments)%nat
        then snd (error (peek p) "Cannot have more than 255 arguments." p)
        else p in
      (arg <- expression ;;
       fun p =>
         let arguments := arguments ++ [arg] in
         let '(b, p) := match_ COMMA p in
         if b then arguments_loop k' expression arguments p
         else ret arguments p) p
  end.

Definition finishCall (fuel : nat) (expression : M Expr) (callee : Expr) : M Expr :=
  fun p =>
  (arguments <-
     (if negb (check RIGHT_PAREN p) then arguments_loop fuel expression []
      else ret []) ;;
   paren <- consume RIGHT_PAREN "Expect ')' after arguments." ;;
   ret (CallExpr callee paren arguments)) p.

(** The [while (true)] of [call]. *)
Fixpoint call_loop (k fuel : nat) (expression : M Expr) (expr : Expr) : M Expr :=
  match k with
  | O => out_of_fuel
  | S k' => fun p =>
      let '(b, p) := match_ LEFT_PAREN p in
      if b then (expr <- finishCall fuel expression expr ;;
                 call_loop k' fuel expression expr) p
      else ret expr p
  end.

Definition call (fuel : nat) (expression : M Expr) : M Expr :=
  expr <- primary expression ;; call_loop fuel fuel expression expr.

Fixpoint unary_rec (k : nat) (call : M Expr) : M Expr :=
  match k with
  | O => out_of_fuel
  | S k' => fun p =>
      let '(b, p) := match_any [BANG; MINUS] p in
      if b then
        let op := previous p in
        (right <- unary_rec k' call ;; ret (UnaryExpr op right)) p
      else call p
  end.

Definition unary (fuel : nat) (expression : M Expr) : M Expr :=
  unary_rec fuel (call fuel expression).

(** The loop shared by the left-associative levels:
    [while (match({ops})) { op = previous(); right = operand();
    expr = Binary(expr, op, right); }]. *)
Fixpoint binary_loop (k : nat) (ops : list TokenType) (operand : M Expr)
  (expr : Expr) : M Expr :=
  match k with
  | O => out_of_fuel
  | S k' => fun p =>
      let '(b, p) := match_any ops p in
      if b then
        let op := previous p in
        (right <- operand ;; binary_loop k' ops operand (BinaryExpr expr op right)) p
      else ret expr p
  end.

Definition factor (fuel : nat) (expression : M Expr) : M Expr :=
  expr <- unary fuel expression ;;
  binary_loop fuel [SLASH; STAR; PERCENT] (unary fuel expression) expr.

Definition term (fuel : nat) (expression : M Expr) : M Expr :=
  expr <- factor fuel expression ;;
  binary_loop fuel [MINUS; PLUS] (factor fuel expression) expr.

Definition comparison (fuel : nat) (expression : M Expr) : M Expr :=
  expr <- term fuel expression ;;
  binary_loop fuel [GREATER; GREATER_EQUAL; LESS; LESS_EQUAL]
    (term fuel expression) expr.

Definition equality (fuel : nat) (expression : M Expr) : M Expr :=
  expr <- comparison fuel expression ;;
  binary_loop fuel [BANG_EQUAL; EQUAL_EQUAL] (comparison fuel expression) expr.

Definition logicalAnd (fuel : nat) (expression : M Expr) : M Expr :=
  expr <- equality fuel expression ;;
  binary_loop fuel [AND] (equality fuel expression) expr.

Definition logicalOr (fuel : nat) (expression : M Expr) : M Expr :=
  expr <- logicalAnd fuel expression ;;
  binary_loop fuel [OR] (logicalAnd fuel expression) expr.

Definition assignment (fuel : nat) (expression : M Expr) : M Expr :=
  expr <- logicalOr fuel expression ;;
  fun p =>
    let '(b, p) := match_ EQUAL p in
    if b then
      let equals := previous p in
      (value <- expression ;;
       fun p =>
         match expr with
         | VariableExpr name => ret (AssignExpr name value) p
         | _ => ret expr (snd (error equals "Invalid assignment target" p))
         end) p
    else ret expr p.

Fixpoint expression (fuel : nat) : M Expr :=
  match fuel with
  | O => out_of_fuel
  | S n => assignment fuel (expression n)
  end.

(** *** Statements.  [statement] stands for the recursive calls back into
    [statement()]. *)

Definition expressionStatement (fuel : nat) : M Stmt :=
  expr <- expression fuel ;;
  consume SEMICOLON "Expect ';' after expression" ;;;
  ret (ExpressionStmt expr).

Definition printStatement (fuel : nat) : M Stmt :=
  value <- expression fuel ;;
  consume SEMICOLON "Expect ';' after value." ;;;
  ret (ExpressionStmt value).

Definition returnStatement (fuel : nat) : M Stmt := fun p =>
  let keyword := previous p in
  (value <-
     (if negb (check SEMICOLON p)
      then (e <- expression fuel ;; ret (Some e))
      else ret None) ;;
   consume SEMICOLON "Expect ';' after return value" ;;;
   ret (ReturnStmt keyword value)) p.

Definition varDeclaration (fuel : nat) (is_const : bool) : M Stmt :=
  name <- consume IDENTIFIER "Expect variable name" ;;
  initializer <-
    (fun p =>
       let '(b, p) := match_ EQUAL p in
       if b then (e <- expression fuel ;; ret (Some e)) p
       else if is_const
            then throw_error name "Const declarations must have an initializer" p
            else ret None p) ;;
  consume SEMICOLON "Expect ';' after variable declaration" ;;;
  ret (VarDeclStmt name initializer is_const).

(** [declaration]; [varDeclaration()] is called without an argument, so
    with the default of [parser.hpp] (absent), taken to be [false]. *)
Definition declaration (fuel : nat) (statement : M Stmt) : M Stmt := fun p =>
  let '(b, p) := match_ VAR p in
  if b then varDeclaration fuel false p else statement p.

Definition ifStatement (fuel : nat) (statement : M Stmt) : M Stmt :=
  consume LEFT_PAREN "Expect '(' after 'if'" ;;;
  condition <- expression fuel ;;
  consume RIGHT_PAREN "Expect ')' after if condition" ;;;
  thenBranch <- statement ;;
  fun p =>
    let '(b, p) := match_ ELSE p in
    if b then (elseBranch <- statement ;;
               ret (IfStmt condition thenBranch (Some elseBranch))) p
    else ret (IfStmt condition thenBranch None) p.

Definition whileStatement (fuel : nat) (statement : M Stmt) : M Stmt :=
  consume LEFT_PAREN "Expect '(' after 'while'" ;;;
  condition <- expression fuel ;;
  consume RIGHT_PAREN "Expect ')' after while condition" ;;;
  body <- statement ;;
  ret (WhileStmt condition body).

(** The [while] of [block]. *)
Fixpoint block_loop (k : nat) (declaration : M Stmt) (statements : list Stmt)
  : M (list Stmt) :=
  match k with
  | O => out_of_fuel
  | S k' => fun p =>
      if negb (check RIGHT_BRACE p) && negb (isAtEnd p) then
        (s <- declaration ;; block_loop k' declaration (statements ++ [s])) p
      else ret statements p
  end.

Definition block (fuel : nat) (statement : M Stmt) : M (list Stmt) :=
  statements <- block_loop fuel (declaration fuel statement) [] ;;
  consume RIGHT_BRACE "Expect '}' after block" ;;;
  ret statements.

Definition statement_body (fuel : nat) (statement : M Stmt) : M Stmt := fun p =>
  let '(b, p) := match_ IF p in
  if b then ifStatement fuel statement p else
  let '(b, p) := match_ WHILE p in
  if b then whileStatement fuel statement p else
  let '(b, p) := match_ PRINT p in
  if b then printStatement fuel p else
  let '(b, p) := match_ RETURN p in
  if b then returnStatement fuel p else
  let '(b, p) := match_ LEFT_BRACE p in
  if b then (statements <- block fuel statement ;; ret (BlockStmt statements)) p
  else expressionStatement fuel p.

Fixpoint statement (fuel : nat) : M Stmt :=
  match fuel with
  | O => out_of_fuel
  | S n => statement_body fuel (statement n)
  end.

(** [forStatement] (no caller in parser.cpp: [statement] never matches
    [FOR]). *)
Definition forStatement (fuel : nat) : M Stmt :=
  consume LEFT_PAREN "Expect '(' after 'for'" ;;;
  initializer <-
    (fun p =>
       let '(b, p) := match_ SEMICOLON p in
       if b then ret None p else
       let '(b, p) := match_ VAR p in
       if b then (s <- varDeclaration fuel false ;; ret (Some s)) p
       else (s <- expressionStatement fuel ;; ret (Some s)) p) ;;
  condition <-
    (fun p =>
       if negb (check SEMICOLON p)
       then (e <- expression fuel ;; ret (Some e)) p
       else ret None p) ;;
  consume SEMICOLON "Expect ';' after loop condition" ;;;
  increment <-
    (fun p =>
       if negb (check RIGHT_PAREN p)
       then (e <- expression fuel ;; ret (Some e)) p
       else ret None p) ;;
  consume RIGHT_PAREN "Expect ')' after for clauses" ;;;
  body <- statement fuel ;;
  let body :=
    match increment with
    | Some inc => BlockStmt [body; ExpressionStmt inc]
    | None => body
    end in
  let condition :=
    match condition with
    | Some c => c
    | None => LiteralExpr (VBool true)
    end in
  let body := WhileStmt condition body in
  ret (match initializer with
       | Some init => BlockStmt [init; body]
       | None => body
       end).

(** [parse]: the loop with its [try]/[catch (const std::exception&)].
    [ParseError] ([parser.hpp], absent) is taken to derive from
    [std::exception], as the handler expects; the two exceptions of
    [std::stod] do. *)
Fixpoint parse_loop (k fuel : nat) (statements : list Stmt) (p : Parser)
  : option (list Stmt * Parser) :=
  match k with
  | O => None
  | S k' =>
      if isAtEnd p then Some (statements, p)
      else
        match declaration fuel (statement fuel) p with
        | Some (Return s, p') => parse_loop k' fuel (statements ++ [s]) p'
        | Some (Throw _, p') =>
            match synchronize fuel p' with
            | Some p'' => parse_loop k' fuel statements p''
            | None => None
            end
        | None => None
        end
  end.

(** Enough for every loop and every recursion: see [parse_total]. *)
Definition fuel_for (p : Parser) : nat := S (length (tokens p)).

Definition parse (p : Parser) : option (list Stmt * Parser) :=
  parse_loop (fuel_for p) (fuel_for p) [] p.

End Parser.

(** ** The interpreter *)

Module Interpreter.

(** What [std::cout << x << std::endl] is handed: an [int], a [double] or a
    text; the stream renders it and ends the line. *)
Inductive Output : Type :=
  | OutInt (n : Z)
  | OutDouble (d : double)
  | OutText (s : string).

(** The object, and the standard output written so far. *)
Record Interpreter : Type := mkInterpreter {
  variables : gmap string Value;
  lastValue : Value;
  cout : list Output
}.

(** A fresh interpreter: no variable, and [lastValue] value-initialised to
    the first alternative of the variant, [int] 0. *)
Definition Interpreter_new : Interpreter := mkInterpreter ∅ (VInt 0) [].

(** A visitor: it returns or throws, and the object is what it was made
    into up to there. *)
Definition I (A : Type) : Type := Interpreter -> result A * Interpreter.

Definition ret {A} (a : A) : I A := fun st => (Return a, st).
Definition throw {A} (what : string) : I A := fun st => (Throw (runtime_error what), st).

Definition bind {A B} (m : I A) (f : A -> I B) : I B := fun st =>
  match m st with
  | (Return a, st') => f a st'
  | (Throw e, st') => (Throw e, st')
  end.

Notation "x <- m ;; k" := (bind m (fun x => k))
  (at level 90, m at next level, right associativity).
Notation "m ;;; k" := (bind m (fun _ => k))
  (at level 90, right associativity).

Definition set_lastValue (v : Value) : I unit := fun st =>
  (Return tt, mkInterpreter (variables st) v (cout st)).

Definition get_lastValue : I Value := fun st => (Return (lastValue st), st).

(** [variables[name] = value] *)
Definition store (name : string) (value : Value) : I unit := fun st =>
  (Return tt, mkInterpreter (<[name := value]> (variables st)) (lastValue st) (cout st)).

Definition write (o : Output) : I unit := fun st =>
  (Return tt, mkInterpreter (variables st) (lastValue st) (cout st ++ [o])).

(** [evaluate(expr)]: [expr->accept( *this)], then [lastValue]. *)
Definition evaluate_by (accept : I unit) : I Value :=
  accept ;;; get_lastValue.

(** The [if]/[else if] chain of [visitUnaryExpr]; with another operator
    nothing is assigned and [lastValue] stays the operand's. *)
Definition unary_op (op : TokenType) (right : Value) : I unit :=
  match op with
  | MINUS =>
      match right with
      | VInt n => set_lastValue (VInt (int_neg n))
      | VDouble d => set_lastValue (VDouble (- d)%float)
      | _ => throw "Unary minus on non-number"
      end
  | BANG =>
      match right with
      | VBool b => set_lastValue (VBool (negb b))
      | _ => throw "Unary ! on non-bool"
      end
  | _ => ret tt
  end.

(** The numeric operators share one shape: [int] with [int], [double] with
    [double], otherwise the exception. *)
Definition arith (fi : Z -> Z -> Z) (fd : double -> double -> double)
  (what : string) (left right : Value) : result Value :=
  match left, right with
  | VInt a, VInt b => Return (VInt (fi a b))
  | VDouble a, VDouble b => Return (VDouble (fd a b))
  | _, _ => Throw (runtime_error what)
  end.

Definition compare (fi : Z -> Z -> bool) (fd : double -> double -> bool)
  (what : string) (left right : Value) : result Value :=
  match left, right with
  | VInt a, VInt b => Return (VBool (fi a b))
  | VDouble a, VDouble b => Return (VBool (fd a b))
  | _, _ => Throw (runtime_error what)
  end.

(** The [switch] of [visitBinaryExpr] on the two evaluated operands. *)
Definition binary_op (op : TokenType) (left right : Value) : result Value :=
  match op with
  | PLUS =>
      match left, right with
      | VInt a, VInt b => Return (VInt (int_add a b))
      | VDouble a, VDouble b => Return (VDouble (a + b)%float)
      | VString a, VString b => Return (VString (a ++ b)%string)
      | VString a, VInt b => Return (VString (a ++ to_string b)%string)
      | VInt a, VString b => Return (VString (to_string a ++ b)%string)
      | _, _ => Throw (runtime_error "Invalid operands to +")
      end
  | MINUS => arith int_sub PrimFloat.sub "Invalid operands to -" left right
  | STAR => arith int_mul PrimFloat.mul "Invalid operands to *" left right
  | SLASH =>
      match left, right with
      | VInt a, VInt b =>
          if b =? 0 then Throw (runtime_error "Division by zero")
          else
            match int_div a b with
            | Some q => Return (VInt q)
            | None => Throw (trap "SIGFPE")
            end
      | VDouble a, VDouble b =>
          if (b =? 0)%float then Throw (runtime_error "Division by zero")
          else Return (VDouble (a / b)%float)
      | _, _ => Throw (runtime_error "Invalid operands to /")
      end
  | EQUAL_EQUAL => Return (VBool (value_eq left right))
  | BANG_EQUAL => Return (VBool (value_ne left right))
  | LESS => compare Z.ltb PrimFloat.ltb "Invalid operands to <" left right
  | LESS_EQUAL => compare Z.leb PrimFloat.leb "Invalid operands to <=" left right
  | GREATER =>
      compare Z.gtb (fun a b => PrimFloat.ltb b a) "Invalid operands to >" left right
  | GREATER_EQUAL =>
      compare Z.geb (fun a b => PrimFloat.leb b a) "Invalid operands to >=" left right
  | _ => Throw (runtime_error "Unknown binary operator")
  end.

(** One argument of [print]: what goes to [std::cout]. *)
Definition print_value (v : Value) : I unit :=
  match v with
  | VInt n => write (OutInt n)
  | VDouble d => write (OutDouble d)
  | VString s => write (OutText s)
  | VBool b => write (OutText (if b then "true" else "false"))
  | VNil => write (OutText "nil")
  end.

(** [expr->accept( *this)]: the [visit...Expr] member for the node. *)
Fixpoint accept (expr : Expr) : I unit :=
  match expr with
  | LiteralExpr value => set_lastValue value
  | UnaryExpr op r =>
      rv <- evaluate_by (accept r) ;;
      unary_op (type op) rv
  | BinaryExpr l op r =>
      lv <- evaluate_by (accept l) ;;
      rv <- evaluate_by (accept r) ;;
      match binary_op (type op) lv rv with
      | Return v => set_lastValue v
      | Throw e => fun st => (Throw e, st)
      end
  | GroupingExpr e =>
      v <- evaluate_by (accept e) ;; set_lastValue v
  | VariableExpr name =>
      fun st =>
        match variables st !! lexeme name with
        | None => throw ("Undefined variable: " ++ lexeme name)%string st
        | Some v => set_lastValue v st
        end
  | AssignExpr name value =>
      value <- evaluate_by (accept value) ;;
      store (lexeme name) value ;;;
      set_lastValue value
  | CallExpr callee _ arguments =>
      let unsupported :=
        throw "Only print() is supported as a built-in function" in
      match callee with
      | VariableExpr var =>
          if String.eqb (lexeme var) "print" then
            (fix print_all (args : list Expr) : I unit :=
               match args with
               | [] => ret tt
               | arg :: rest =>
                   v <- evaluate_by (accept arg) ;;
                   print_value v ;;;
                   print_all rest
               end) arguments ;;;
            set_lastValue VNil
          else unsupported
      | _ => unsupported
      end
  end.

Definition evaluate (expr : Expr) : I Value := evaluate_by (accept expr).

(** [stmt->accept( *this)], which is all [execute] does. *)
Fixpoint execute (stmt : Stmt) : I unit :=
  match stmt with
  | ExpressionStmt e =>
      v <- evaluate e ;; set_lastValue v
  | VarDeclStmt name initializer _ =>
      value <- match initializer with
               | Some e => evaluate e
               | None => ret VNil
               end ;;
      store (lexeme name) value ;;;
      set_lastValue value
  | BlockStmt statements =>
      (fix run (ss : list Stmt) : I unit :=
         match ss with
         | [] => ret tt
         | s :: rest => execute s ;;; run rest
         end) statements
  | IfStmt condition thenBranch elseBranch =>
      cond <- evaluate condition ;;
      condVal <- match cond with
                 | VBool b => ret b
                 | VInt n => ret (negb (n =? 0))
                 | _ => throw "Invalid condition in if statement"
                 end ;;
      if condVal : bool then execute thenBranch
      else match elseBranch with
           | Some s => execute s
           | None => ret tt
           end
  | WhileStmt _ _ => ret tt
  | FunctionStmt _ => ret tt
  | ReturnStmt _ _ => ret tt
  end.

(** [interpret]: the [for] over the statements. *)
Fixpoint interpret (statements : list Stmt) : I unit :=
  match statements with
  | [] => ret tt
  | stmt :: rest => execute stmt ;;; interpret rest
  end.

End Interpreter.

(** ** Parser and interpreter in a row: the tokens of a program are parsed
    and the statements obtained are interpreted by a fresh interpreter. *)
Definition run (toks : list Token)
  : option (list Diagnostic * (result unit * Interpreter.Interpreter)) :=
  match Parser.parse (Parser.Parser_new toks "script") with
  | Some (statements, p) =>
      Some (Parser.diagnostics p,
            Interpreter.interpret statements Interpreter.Interpreter_new)
  | None => None
  end.

(** A token with the lexeme given, on line 1. *)
Definition tok (ty : TokenType) (lx : string) : Token := mkToken ty lx 1 0.

(** ** Vocabulary of the statements below *)

(** Both operands numeric and of one kind. *)
Definition same_numeric (l r : Value) : bool :=
  match l, r with
  | VInt _, VInt _ | VDouble _, VDouble _ => true
  | _, _ => false
  end.

(** The zero of its kind: the [int] 0, or a [double] that [== 0.0] (either
    signed zero). *)
Definition is_zero (v : Value) : bool :=
  match v with
  | VInt n => n =? 0
  | VDouble d => (d =? 0)%float
  | _ => false
  end.

(** The one [int] division whose quotient is no [int]: -2^31 by -1. *)
Definition quotient_overflows (l r : Value) : bool :=
  match l, r with
  | VInt a, VInt b => (a =? -2147483648) && (b =? -1)
  | _, _ => false
  end.

(** A [double] NaN inside a value. *)
Definition holds_nan (v : Value) : bool :=
  match v with
  | VDouble d => PrimFloat.is_nan d
  | _ => false
  end.

(** The same by what the [double] is: the NaN, a zero of either sign. *)
Definition is_the_nan (v : Value) : bool :=
  match v with
  | VDouble d => match Prim2SF d with S754_nan => true | _ => false end
  | _ => false
  end.

Definition holds_zero (v : Value) : bool :=
  match v with
  | VDouble d => match Prim2SF d with S754_zero _ => true | _ => false end
  | _ => false
  end.

Definition holds_double (v : Value) : bool :=
  match v with
  | VDouble _ => true
  | _ => false
  end.

(** The expression reaches a call of the built-in: a [CallExpr] whose callee
    is the variable [print], outside the arguments of a call (a call with
    another callee throws before it looks at its arguments). *)
Fixpoint calls_print (e : Expr) : bool :=
  match e with
  | LiteralExpr _ => false
  | UnaryExpr _ r => calls_print r
  | BinaryExpr l _ r => calls_print l || calls_print r
  | GroupingExpr e => calls_print e
  | VariableExpr _ => false
  | AssignExpr _ v => calls_print v
  | CallExpr (VariableExpr var) _ _ => String.eqb (lexeme var) "print"
  | CallExpr _ _ _ => false
  end.

(** The statements [parse] returns for a token vector. *)
Definition parsed (toks : list Token) : option (list Stmt) :=
  fst <$> Parser.parse (Parser.Parser_new toks "script").

(** The programs used as examples, as the lexer hands them over.  The
    lexeme of a string token is taken to be the text between the quotes. *)
Definition semi : Token := tok SEMICOLON ";".
Definition eof : Token := tok END_OF_FILE "".
Definition int_lit (s : string) : Token := tok INTEGER_LITERAL s.
Definition str_lit (s : string) : Token := tok STRING_LITERAL s.
Definition ident (s : string) : Token := tok IDENTIFIER s.

(** ["a" + 1;] and [1 + "a";] *)
Definition prog_string_plus_int : list Token :=
  [str_lit "a"; tok PLUS "+"; int_lit "1"; semi; eof].
Definition prog_int_plus_string : list Token :=
  [int_lit "1"; tok PLUS "+"; str_lit "a"; semi; eof].

(** [1 + 2 * 3;] *)
Definition prog_precedence : list Token :=
  [int_lit "1"; tok PLUS "+"; int_lit "2"; tok STAR "*"; int_lit "3"; semi; eof].

(** [10 / 0;] and [true / 1;] *)
Definition prog_ten_by_zero : list Token :=
  [int_lit "10"; tok SLASH "/"; int_lit "0"; semi; eof].
Definition prog_true_by_one : list Token :=
  [tok TRUE "true"; tok SLASH "/"; int_lit "1"; semi; eof].

(** [print(1); y; print(2);] *)
Definition prog_undefined : list Token :=
  [ident "print"; tok LEFT_PAREN "("; int_lit "1"; tok RIGHT_PAREN ")"; semi;
   ident "y"; semi;
   ident "print"; tok LEFT_PAREN "("; int_lit "2"; tok RIGHT_PAREN ")"; semi; eof].

(** The statements [print(1); y; print(2);] is parsed into. *)
Definition print_call (v : Value) : Stmt :=
  ExpressionStmt
    (CallExpr (VariableExpr (ident "print")) (tok RIGHT_PAREN ")") [LiteralExpr v]).
Definition stmts_undefined_before : list Stmt := [print_call (VDouble 1)].
Definition stmt_undefined : Stmt := ExpressionStmt (VariableExpr (ident "y")).
Definition stmts_undefined_after : list Stmt := [print_call (VDouble 2)].

(** [var x; x;] *)
Definition prog_var_nil (x : string) : list Token :=
  [tok VAR "var"; ident x; semi; ident x; semi; eof].

(** A statement that starts with the print keyword and goes on with a call
    of the built-in: keyword, [print("x");] *)
Definition prog_print_keyword_call : list Token :=
  [tok PRINT "print"; ident "print"; tok LEFT_PAREN "("; str_lit "x";
   tok RIGHT_PAREN ")"; semi; eof].

(** *** What the parser keeps true *)

Module ParserSpec.
Import Parser.

(** The last token of the vector is the end-of-file token (so the vector is
    not empty). *)
Definition ends_with_eof (toks : list Token) : bool :=
  match rev toks with
  | t :: _ => bool_decide (type t = END_OF_FILE)
  | [] => false
  end.

(** The cursor is an index of the vector, and the vector ends with the
    end-of-file token. *)
Definition cursor_ok (p : Parser) : Prop :=
  ends_with_eof (tokens p) = true /\ (current p < length (tokens p))%nat.

(** Tokens from the cursor to the end of the vector. *)
Definition remaining (p : Parser) : nat := (length (tokens p) - current p)%nat.

(** [p'] is [p] later: the same tokens and file, the cursor not moved back,
    no diagnostic fewer. *)
Definition later (p p' : Parser) : Prop :=
  tokens p' = tokens p /\ filename p' = filename p
  /\ (current p <= current p')%nat
  /\ (length (diagnostics p) <= length (diagnostics p'))%nat.

(** What is asked of the way a member function ends, [p0] being the object
    when it was called: if it returns (and [strict]), a token was consumed;
    if it throws a [ParseError], a diagnostic was reported. *)
Definition ends_well {A} (strict : bool) (p0 : Parser) (res : result A) (p' : Parser)
  : Prop :=
  match res with
  | Return _ => strict = true -> (current p0 < current p')%nat
  | Throw (ParseError _) =>
      (length (diagnostics p0) < length (diagnostics p'))%nat
  | Throw _ => True
  end.

(** The run [r] of a member function called at [p0] did not run out of the
    recursion bound, and ended well, later than [p0], the cursor in range. *)
Definition post {A} (strict : bool) (p0 : Parser) (r : option (result A * Parser))
  : Prop :=
  exists res p', r = Some (res, p') /\ cursor_ok p' /\ later p0 p'
                 /\ ends_well strict p0 res p'.

(** [f] does so wherever at most [m] tokens remain. *)
Definition safe {A} (m : nat) (strict : bool) (f : M A) : Prop :=
  forall p, cursor_ok p -> (remaining p <= m)%nat -> post strict p (f p).

(** Where [synchronize] stops: at the end, after a [;], or before a token
    that starts a statement. *)
Definition starts_statement (ty : TokenType) : bool :=
  match ty with
  | FUNCTION | VAR | CONST | FOR | IF | WHILE | RETURN => true
  | _ => false
  end.

Definition sync_point (p : Parser) : bool :=
  isAtEnd p || bool_decide (type (previous p) = SEMICOLON)
  || starts_statement (type (peek p)).

(** [p] with the cursor at [i]. *)
Definition at_cursor (p : Parser) (i : nat) : Parser :=
  mkParser (tokens p) (filename p) i (diagnostics p).

(** One token consumed, nothing else touched. *)
Definition stepped (p p' : Parser) : Prop :=
  cursor_ok p' /\ tokens p' = tokens p /\ filename p' = filename p
  /\ diagnostics p' = diagnostics p /\ current p' = S (current p).

(** The tokens from the cursor on. *)
Definition rest (p : Parser) : list Token := skipn (current p) (tokens p).

(** A token after which an expression that is complete stays as it is: it
    is no operator, no [(] and no [=]. *)
Definition ends_expression (ty : TokenType) : bool :=
  match ty with
  | COMMA | RIGHT_PAREN | SEMICOLON => true
  | _ => false
  end.

(** [f(x, ..., x); y;] with [n + 1] arguments: [more_args n] is the [n]
    arguments after the first, each with its comma. *)
Fixpoint more_args (n : nat) : list Token :=
  match n with
  | O => []
  | S n' => tok COMMA "," :: ident "x" :: more_args n'
  end.

Definition call_program (n : nat) : list Token :=
  ident "f" :: tok LEFT_PAREN "(" :: ident "x" ::
  more_args n ++ [tok RIGHT_PAREN ")"; semi; ident "y"; semi; eof].

(** The diagnostic of [finishCall] for an argument [x] beyond the 255th. *)
Definition too_many (file : string) : Diagnostic :=
  mkDiagnostic ERROR "Cannot have more than 255 arguments. at 'x'"
    (mkLocation file 1 0).

(** How many of the arguments number [a], ..., [a + m - 1] (counted from 0)
    have 255 or more before them. *)
Definition excess (a m : nat) : nat := ((a + m - 255) - (a - 255))%nat.

End ParserSpec.

(** An integer literal too large for a [double]: 1 followed by 309 zeros. *)
Fixpoint zeros (n : nat) : string :=
  match n with
  | O => EmptyString
  | S n' => String "0" (zeros n')
  end.

Definition huge_literal : string := String "1" (zeros 309).

(** [b * b - b * b == b * b - b * b;] with [b] the literal 1 followed by 200
    zeros: [b * b] overflows to infinity, and infinity minus infinity is a
    NaN. *)
Definition big : Token := int_lit (String "1" (zeros 200)).
Definition prog_nan_self_compare : list Token :=
  [big; tok STAR "*"; big; tok MINUS "-"; big; tok STAR "*"; big;
   tok EQUAL_EQUAL "==";
   big; tok STAR "*"; big; tok MINUS "-"; big; tok STAR "*"; big; semi; eof].

(** The literal as a statement of its own, and a statement that a stray [)]
    breaks, for comparison. *)
Definition prog_huge_literal : list Token := [int_lit huge_literal; semi; eof].
Definition prog_stray_paren : list Token := [tok RIGHT_PAREN ")"; semi; eof].

(** The statements and the diagnostics [parse] ends with. *)
Definition parse_outcome (toks : list Token)
  : option (list Stmt * list Diagnostic) :=
  (fun r => (fst r, Parser.diagnostics (snd r)))
    <$> Parser.parse (Parser.Parser_new toks "script").

(** Keyword-led statement [print x;] and the three-operand programs
    [a + b * c;] and [a * b + c;] over identifiers. *)
Definition prog_print_keyword (x : string) : list Token :=
  [tok PRINT "print"; ident x; semi; eof].

Definition prog_add_mul (a b c : string) (add mul : TokenType) : list Token :=
  [ident a; tok add ""; ident b; tok mul ""; ident c; semi; eof].

Definition prog_mul_add (a b c : string) (add mul : TokenType) : list Token :=
  [ident a; tok mul ""; ident b; tok add ""; ident c; semi; eof].

(** A visitor that leaves the standard output as it found it. *)
Definition writes_nothing {A} (m : Interpreter.I A) : Prop :=
  forall st, Interpreter.cout (snd (m st)) = Interpreter.cout st.

(** The name [n] is assigned to in the expression; it is assigned to or
    declared in the statement, where the statement is one that is executed
    (the [while], [return] and function statements are not). *)
Fixpoint binds (n : string) (e : Expr) : bool :=
  match e with
  | LiteralExpr _ => false
  | UnaryExpr _ r => binds n r
  | BinaryExpr l _ r => binds n l || binds n r
  | GroupingExpr e => binds n e
  | VariableExpr _ => false
  | AssignExpr name v => String.eqb (lexeme name) n || binds n v
  | CallExpr callee _ args => binds n callee || existsb (binds n) args
  end.

Fixpoint binds_stmt (n : string) (s : Stmt) : bool :=
  match s with
  | ExpressionStmt e => binds n e
  | VarDeclStmt name init _ =>
      String.eqb (lexeme name) n
      || match init with
         | Some e => binds n e
         | None => false
         end
  | BlockStmt ss => existsb (binds_stmt n) ss
  | IfStmt c t e =>
      binds n c || binds_stmt n t
      || match e with
         | Some s => binds_stmt n s
         | None => false
         end
  | WhileStmt _ _ | ReturnStmt _ _ | FunctionStmt _ => false
  end.

(** The visitor leaves the variable [n] as it is: bound to what it was
    bound to, or not bound. *)
Definition keeps_binding (n : string) {A} (m : Interpreter.I A) : Prop :=
  forall st,
    Interpreter.variables (snd (m st)) !! n = Interpreter.variables st !! n.

(** [var x; 1; x;] *)
Definition prog_var_then_read (x : string) : list Token :=
  [tok VAR "var"; ident x; semi; int_lit "1"; semi; ident x; semi; eof].

(** One more statement of a run: executed in the state reached, unless
    the run has ended by an exception. *)
Definition run_in_order (outcome : result unit * Interpreter.Interpreter)
  (stmt : Stmt) : result unit * Interpreter.Interpreter :=
  match outcome with
  | (Return _, st) => Interpreter.execute stmt st
  | (Throw e, st) => (Throw e, st)
  end.

(** ** More vocabulary: the interpreter *)

(** An [int] that fits in 32 bits. *)
Definition in_range (n : Z) : bool := (-2147483648 <=? n) && (n <? 2147483648).

(** The operators of [visitBinaryExpr] that take two numbers of one kind;
    those among them that answer with a [bool]; and the operators the parser
    builds a [BinaryExpr] with and the [switch] has no case for. *)
Definition numeric_ops : list TokenType :=
  [MINUS; STAR; LESS; LESS_EQUAL; GREATER; GREATER_EQUAL].

Definition is_comparison (op : TokenType) : bool :=
  match op with
  | LESS | LESS_EQUAL | GREATER | GREATER_EQUAL => true
  | _ => false
  end.

Definition unknown_ops : list TokenType := [OR; AND; PERCENT].

(** The operand kinds [+] accepts. *)
Definition plus_accepts (l r : Value) : bool :=
  match l, r with
  | VInt _, VInt _ | VDouble _, VDouble _ | VString _, VString _
  | VString _, VInt _ | VInt _, VString _ => true
  | _, _ => false
  end.

(** What [print] hands to the stream for a value. *)
Definition render (v : Value) : Interpreter.Output :=
  match v with
  | VInt n => Interpreter.OutInt n
  | VDouble d => Interpreter.OutDouble d
  | VString s => Interpreter.OutText s
  | VBool b => Interpreter.OutText (if b then "true" else "false")
  | VNil => Interpreter.OutText "nil"
  end.

(** The callee is the variable [print]. *)
Definition is_print (callee : Expr) : bool :=
  match callee with
  | VariableExpr var => String.eqb (lexeme var) "print"
  | _ => false
  end.

(** The statements whose visitor has an empty body. *)
Definition inert (s : Stmt) : bool :=
  match s with
  | WhileStmt _ _ | FunctionStmt _ | ReturnStmt _ _ => true
  | _ => false
  end.

(** An assignment occurs in the expression. *)
Fixpoint assigns (e : Expr) : bool :=
  match e with
  | LiteralExpr _ => false
  | UnaryExpr _ r => assigns r
  | BinaryExpr l _ r => assigns l || assigns r
  | GroupingExpr e => assigns e
  | VariableExpr _ => false
  | AssignExpr _ _ => true
  | CallExpr callee _ args => assigns callee || existsb assigns args
  end.

(** How [visitIfStmt] reads a condition: a [bool] as it is, an [int] as
    "not zero", nothing else. *)
Definition truth (v : Value) : option bool :=
  match v with
  | VBool b => Some b
  | VInt n => Some (negb (n =? 0))
  | _ => None
  end.

(** The value a double application of a unary operator gives back: a [bool]
    under [!], a [double] under [-], and under [-] an [int] whose negation
    fits in 32 bits as it does itself (any but the least). *)
Definition involutive_on (op : TokenType) (v : Value) : bool :=
  match op, v with
  | BANG, VBool _ => true
  | MINUS, VDouble _ => true
  | MINUS, VInt n => in_range n && in_range (- n)
  | _, _ => false
  end.

(** The visitor only adds to the standard output. *)
Definition appends {A} (m : Interpreter.I A) : Prop :=
  forall st, Interpreter.cout st `prefix_of` Interpreter.cout (snd (m st)).

(** The visitor leaves the variables as they are. *)
Definition keeps_variables {A} (m : Interpreter.I A) : Prop :=
  forall st, Interpreter.variables (snd (m st)) = Interpreter.variables st.

(** The sign an operator is written with, as the messages carry it. *)
Definition op_symbol (op : TokenType) : string :=
  match op with
  | MINUS => "-" | STAR => "*"
  | LESS => "<" | LESS_EQUAL => "<=" | GREATER => ">" | GREATER_EQUAL => ">="
  | _ => ""
  end.

(** The loop of [visitCallExpr] over the arguments of [print]. *)
Definition print_all : list Expr -> Interpreter.I unit :=
  fix print_all (args : list Expr) : Interpreter.I unit :=
    match args with
    | [] => Interpreter.ret tt
    | arg :: rest =>
        Interpreter.bind (Interpreter.evaluate_by (Interpreter.accept arg))
          (fun v => Interpreter.bind (Interpreter.print_value v)
                      (fun _ => print_all rest))
    end.

(** The interpreter after [print] has written the value [v]. *)
Definition wrote (v : Value) (st : Interpreter.Interpreter)
  : Interpreter.Interpreter :=
  Interpreter.mkInterpreter (Interpreter.variables st)
    (Interpreter.lastValue st) (Interpreter.cout st ++ [render v]).

(** The arguments [args] evaluated from left to right from [st], each in the
    state the one before left and its value written as soon as it is there:
    the values are [vs] and the interpreter is left as [st']. *)
Fixpoint arguments_written (args : list Expr) (vs : list Value)
  (st st' : Interpreter.Interpreter) : Prop :=
  match args, vs with
  | [], [] => st' = st
  | arg :: args, v :: vs =>
      exists st1,
        Interpreter.evaluate arg st = (Return v, st1)
        /\ arguments_written args vs (wrote v st1) st'
  | _, _ => False
  end.

(** The interpreter after [print] has written the values [vs] of
    literals. *)
Definition printed (vs : list Value) (st : Interpreter.Interpreter)
  : Interpreter.Interpreter :=
  Interpreter.mkInterpreter (Interpreter.variables st)
    (List.last vs (Interpreter.lastValue st))
    (Interpreter.cout st ++ map render vs).

(** [a op b;] over identifiers. *)
Definition prog_binary (a b : string) (op : TokenType) : list Token :=
  [ident a; tok op ""; ident b; semi; eof].

(** ** More vocabulary: the parser *)

(** A token no statement and no expression can start with: no [var], [if],
    [while], print keyword, [return] or [{], no unary operator, no literal,
    identifier or [(]. *)
Definition starts_nothing (ty : TokenType) : bool :=
  match ty with
  | VAR | IF | WHILE | PRINT | RETURN | LEFT_BRACE
  | BANG | MINUS | FALSE | TRUE | NIL
  | INTEGER_LITERAL | FLOAT_LITERAL | STRING_LITERAL | IDENTIFIER
  | LEFT_PAREN => false
  | _ => true
  end.

(** The diagnostic [error(token, msg)] reports in the file [file]. *)
Definition diagnostic_at (file : string) (token : Token) (msg : string) : Diagnostic :=
  mkDiagnostic ERROR
    (if bool_decide (type token = END_OF_FILE) then (msg ++ " at end of file")%string
     else (msg ++ " at '" ++ lexeme token ++ "'")%string)
    (mkLocation file (line token) (column token)).

(** What [throw error(peek(), msg)] leaves. *)
Definition rejected (msg : string) (p : Parser.Parser)
  : option (result Expr * Parser.Parser) :=
  Some (Throw (ParseError msg),
        Parser.report (diagnostic_at (Parser.filename p) (Parser.peek p) msg) p).

(** [1 = x;] *)
Definition prog_assign_to_literal : list Token :=
  [int_lit "1"; tok EQUAL "="; ident "x"; semi; eof].

(** The operator groups of the binary levels, from [factor] up to
    [logicalOr], and the level above the [i] lowest groups: [level 0] is
    [unary], [level 1] is [factor], ..., [level 6] is [logicalOr]. *)
Definition binary_levels : list (list TokenType) :=
  [[SLASH; STAR; PERCENT]; [MINUS; PLUS];
   [GREATER; GREATER_EQUAL; LESS; LESS_EQUAL]; [BANG_EQUAL; EQUAL_EQUAL];
   [AND]; [OR]].

Definition group (i : nat) : list TokenType := nth i binary_levels [].

Fixpoint level (i fuel : nat) (expression : Parser.M Expr) : Parser.M Expr :=
  match i with
  | O => Parser.unary fuel expression
  | S j =>
      Parser.bind (level j fuel expression)
        (Parser.binary_loop fuel (group j) (level j fuel expression))
  end.

(** An operand [x] followed by operators with an operand each, as tokens,
    and the expression that takes them from the left. *)
Definition chain (x : Token) (steps : list (Token * Token)) : list Token :=
  x :: flat_map (fun s => [fst s; snd s]) steps.

Definition left_fold (steps : list (Token * Token)) (e : Expr) : Expr :=
  fold_left (fun e s => BinaryExpr e (fst s) (VariableExpr (snd s))) steps e.

Definition step_of (g : list TokenType) (s : Token * Token) : Prop :=
  In (type (fst s)) g /\ type (snd s) = IDENTIFIER.

(** Assignment targets, each with its [=], before the value [y]; and the
    expression that takes them from the right. *)
Definition assign_chain (targets : list (Token * Token)) (y : Token) : list Token :=
  (flat_map (fun s => [fst s; snd s]) targets ++ [y])%list.

Definition right_fold (targets : list (Token * Token)) (e : Expr) : Expr :=
  fold_right (fun s e => AssignExpr (fst s) e) e targets.

Definition target_of (s : Token * Token) : Prop :=
  type (fst s) = IDENTIFIER /\ type (snd s) = EQUAL.

(** Unary operators before an operand, the innermost last. *)
Definition prefixed (ops : list Token) (e : Expr) : Expr :=
  fold_right UnaryExpr e ops.

(** Empty argument lists after a callee: each a [(] and a [)]. *)
Definition call_chain (f : Token) (parens : list (Token * Token)) : list Token :=
  f :: flat_map (fun s => [fst s; snd s]) parens.

Definition called (parens : list (Token * Token)) (e : Expr) : Expr :=
  fold_left (fun e s => CallExpr e (snd s) []) parens e.

Definition parens_of (s : Token * Token) : Prop :=
  type (fst s) = LEFT_PAREN /\ type (snd s) = RIGHT_PAREN.

(** The tokens that [declaration] and [statement] do not take for
    themselves: what they start is an expression statement. *)
Definition starts_expression_statement (ty : TokenType) : bool :=
  match ty with
  | VAR | IF | WHILE | PRINT | RETURN | LEFT_BRACE | END_OF_FILE => false
  | _ => true
  end.

(** Identifiers as statements, [x1; x2; ...], and what they are parsed into. *)
Definition statements_of (xs : list Token) : list Token :=
  flat_map (fun x => [x; semi]) xs.

Definition expression_statements (xs : list Token) : list Stmt :=
  map (fun x => ExpressionStmt (VariableExpr x)) xs.

(** [if (c1) if (c2) ... if (cn)] before a body, and the statement the
    conditions [cs] make of an innermost statement [s] when none of them
    has an [else]. *)
Definition if_heads (cs : list Token) : list Token :=
  flat_map (fun c => [tok IF "if"; tok LEFT_PAREN "("; c; tok RIGHT_PAREN ")"]) cs.

Definition nested_ifs (cs : list Token) (s : Stmt) : Stmt :=
  fold_right (fun c s => IfStmt (VariableExpr c) s None) s cs.

(** [if (c1) ... if (cn) if (c) x; else y;] *)
Definition prog_dangling_else (cs : list Token) (c x y : Token) : list Token :=
  (if_heads (cs ++ [c]) ++ [x; semi; tok ELSE "else"; y; semi; eof])%list.

(** ** More vocabulary: integers *)

(** A value that is no [int]. *)
Definition no_int (v : Value) : bool :=
  match v with
  | VInt _ => false
  | _ => true
  end.

(** An expression, a statement with no [int] literal in it. *)
Fixpoint int_free (e : Expr) : bool :=
  match e with
  | LiteralExpr v => no_int v
  | UnaryExpr _ r => int_free r
  | BinaryExpr l _ r => int_free l && int_free r
  | GroupingExpr e => int_free e
  | VariableExpr _ => true
  | AssignExpr _ v => int_free v
  | CallExpr callee _ args => int_free callee && forallb int_free args
  end.

Definition int_free_option (o : option Expr) : bool :=
  match o with
  | Some e => int_free e
  | None => true
  end.

Fixpoint int_free_stmt (s : Stmt) : bool :=
  match s with
  | ExpressionStmt e => int_free e
  | VarDeclStmt _ init _ => int_free_option init
  | BlockStmt ss => forallb int_free_stmt ss
  | IfStmt c t e =>
      int_free c && int_free_stmt t
      && match e with
         | Some s => int_free_stmt s
         | None => true
         end
  | WhileStmt c b => int_free c && int_free_stmt b
  | ReturnStmt _ v => int_free_option v
  | FunctionStmt _ => true
  end.

(** What a parser function returns, when it returns, has the property. *)
Definition yields {A} (P : A -> Prop) (m : Parser.M A) : Prop :=
  forall p a p', m p = Some (Return a, p') -> P a.

Definition expr_ok (e : Expr) : Prop := int_free e = true.
Definition args_ok (es : list Expr) : Prop := forallb int_free es = true.
Definition stmt_ok (s : Stmt) : Prop := int_free_stmt s = true.
Definition stmts_ok (ss : list Stmt) : Prop := forallb int_free_stmt ss = true.

(** An interpreter no variable of which holds an [int], and that has
    written no [int] to the standard output. *)
Definition out_no_int (o : Interpreter.Output) : bool :=
  match o with
  | Interpreter.OutInt _ => false
  | _ => true
  end.

Definition int_free_state (st : Interpreter.Interpreter) : Prop :=
  map_Forall (fun _ v => no_int v = true) (Interpreter.variables st)
  /\ forallb out_no_int (Interpreter.cout st) = true.

(** The visitor keeps such an interpreter such, and what it returns, with
    the interpreter it leaves, has the property. *)
Definition carries {A} (P : A -> Interpreter.Interpreter -> Prop)
  (m : Interpreter.I A) : Prop :=
  forall st, int_free_state st ->
    int_free_state (snd (m st))
    /\ forall a, fst (m st) = Return a -> P a (snd (m st)).

Definition last_no_int {A} (_ : A) (st : Interpreter.Interpreter) : Prop :=
  no_int (Interpreter.lastValue st) = true.

Definition value_no_int (v : Value) (st : Interpreter.Interpreter) : Prop :=
  no_int v = true /\ no_int (Interpreter.lastValue st) = true.

(** [1 + 2; print(3);] *)
Definition prog_integer_literals : list Token :=
  [int_lit "1"; tok PLUS "+"; int_lit "2"; semi;
   ident "print"; tok LEFT_PAREN "("; int_lit "3"; tok RIGHT_PAREN ")"; semi;
   eof].

(** ** The conversions on examples *)

Module ConversionFacts.

Example stod_integer : stod "1" = inr 1%float.
Proof. reflexivity. Qed.

Example stod_fraction : stod "0.1" = inr 0x1.999999999999ap-4%float.
Proof. reflexivity. Qed.

Example stod_exponent : stod "12.5e-1" = inr 1.25%float.
Proof. reflexivity. Qed.

Example stod_largest :
  stod "1.7976931348623157e308" = inr 0x1.fffffffffffffp+1023%float.
Proof. vm_compute. reflexivity. Qed.

Example stod_overflow : stod "1e309" = inl (out_of_range "stod").
Proof. vm_compute. reflexivity. Qed.

Example stod_underflow : stod "1e-400" = inl (out_of_range "stod").
Proof. vm_compute. reflexivity. Qed.

Example stod_no_digit : stod "abc" = inl (invalid_argument "stod").
Proof. reflexivity. Qed.

Example stod_blank_and_sign : stod " -12.5" = inr (-12.5)%float.
Proof. vm_compute. reflexivity. Qed.

Example stod_sign_alone : stod "-" = inl (invalid_argument "stod").
Proof. reflexivity. Qed.

Example stod_hexadecimal : stod "0x1.8p1" = inr 3%float.
Proof. vm_compute. reflexivity. Qed.

Example stod_hexadecimal_no_digit : stod "0xg" = inr 0%float.
Proof. vm_compute. reflexivity. Qed.

Example stod_infinity : stod "-Infinity" = inr neg_infinity.
Proof. vm_compute. reflexivity. Qed.

Example stod_nan : stod "nan" = inr PrimFloat.nan.
Proof. vm_compute. reflexivity. Qed.

(** Just below the least normal number, 2^-1022: a text that rounds to it
    at 53 bits is converted, one that only rounds to it as a subnormal is a
    range error. *)
Example stod_least_normal :
  stod "2.22507385850720126e-308" = inr 0x1p-1022%float
  /\ stod "2.22507385850720125e-308" = inl (out_of_range "stod").
Proof. split; vm_compute; reflexivity. Qed.

Example stod_subnormal_exact : stod "0x1p-1074" = inr 0x1p-1074%float.
Proof. vm_compute. reflexivity. Qed.

Example int_div_truncates : int_div (-7) 2 = Some (-3).
Proof. reflexivity. Qed.

Example int_div_overflow : int_div (-2147483648) (-1) = None.
Proof. reflexivity. Qed.

Example to_string_negative : to_string (-12) = "-12".
Proof. reflexivity. Qed.

Example to_string_zero : to_string 0 = "0".
Proof. reflexivity. Qed.

Example wrap32_overflow : int_add 2147483647 1 = -2147483648.
Proof. reflexivity. Qed.

End ConversionFacts.

(** ** The interpreter: facts *)

Module InterpreterFacts.
Import Interpreter.

(** Induction on expressions that reaches the arguments of a call. *)
Lemma Expr_nested_ind (P : Expr -> Prop)
  (Hlit : forall v, P (LiteralExpr v))
  (Hun : forall op r, P r -> P (UnaryExpr op r))
  (Hbin : forall l op r, P l -> P r -> P (BinaryExpr l op r))
  (Hgr : forall e, P e -> P (GroupingExpr e))
  (Hvar : forall name, P (VariableExpr name))
  (Has : forall name v, P v -> P (AssignExpr name v))
  (Hcall : forall callee paren args,
      P callee -> Forall P args -> P (CallExpr callee paren args)) :
  forall e, P e.
Proof.
  fix IH 1. intros [v|op r|l op r|e|name|name v|callee paren args].
  - apply Hlit.
  - apply Hun, IH.
  - apply Hbin; apply IH.
  - apply Hgr, IH.
  - apply Hvar.
  - apply Has, IH.
  - apply Hcall; [apply IH|].
    induction args as [|a args IHargs]; constructor; [apply IH|exact IHargs].
Qed.

(** Induction on statements that reaches the statements of a block and the
    [else] branch. *)
Lemma Stmt_nested_ind (P : Stmt -> Prop)
  (Hex : forall e, P (ExpressionStmt e))
  (Hvar : forall name init c, P (VarDeclStmt name init c))
  (Hbl : forall ss, Forall P ss -> P (BlockStmt ss))
  (Hif1 : forall c t, P t -> P (IfStmt c t None))
  (Hif2 : forall c t e, P t -> P e -> P (IfStmt c t (Some e)))
  (Hwh : forall c b, P (WhileStmt c b))
  (Hret : forall k v, P (ReturnStmt k v))
  (Hfun : forall name, P (FunctionStmt name)) :
  forall s, P s.
Proof.
  fix IH 1. intros [e|name init c|ss|c t [e|]|c b|k v|name].
  - apply Hex.
  - apply Hvar.
  - apply Hbl. induction ss as [|s ss IHss]; constructor; [apply IH|exact IHss].
  - apply Hif2; apply IH.
  - apply Hif1; apply IH.
  - apply Hwh.
  - apply Hret.
  - apply Hfun.
Qed.

Lemma SFeqb_sym (x y : spec_float) : SFeqb x y = SFeqb y x.
Proof.
  unfold SFeqb.
  destruct x as [s1|s1| |s1 m1 e1], y as [s2|s2| |s2 m2 e2]; simpl;
    try reflexivity;
    try (destruct s1, s2; reflexivity);
    try (destruct s1; reflexivity); try (destruct s2; reflexivity).
  destruct s1, s2; try reflexivity.
  all: rewrite (Z.compare_antisym e1 e2); destruct (e1 ?= e2)%Z; simpl;
    try reflexivity.
  all: change (Pos.compare_cont Eq m2 m1)
         with (Pos.compare_cont (CompOpp Eq) m2 m1);
       rewrite <- (Pos.compare_cont_antisym m1 m2 Eq);
       destruct (Pos.compare_cont Eq m1 m2); reflexivity.
Qed.

Lemma double_eqb_sym (x y : double) : (x =? y)%float = (y =? x)%float.
Proof. rewrite !FloatAxioms.eqb_spec. apply SFeqb_sym. Qed.

Lemma value_eq_sym (a b : Value) : value_eq a b = value_eq b a.
Proof.
  destruct a as [x|x|x|x|], b as [y|y|y|y|]; simpl; try reflexivity.
  - apply Z.eqb_sym.
  - apply double_eqb_sym.
  - apply String.eqb_sym.
  - destruct x, y; reflexivity.
Qed.

Lemma value_ne_negb (a b : Value) : value_ne a b = negb (value_eq a b).
Proof. destruct a, b; reflexivity. Qed.

Lemma value_eq_refl (a : Value) : value_eq a a = negb (holds_nan a).
Proof.
  destruct a as [x|x|x|x|]; simpl.
  - apply Z.eqb_refl.
  - unfold PrimFloat.is_nan. now rewrite negb_involutive.
  - apply String.eqb_refl.
  - now destruct x.
  - reflexivity.
Qed.

Lemma value_eq_true_iff (a b : Value) :
  holds_double a = false -> (value_eq a b = true <-> a = b).
Proof.
  destruct a as [x|x|x|x|], b as [y|y|y|y|]; simpl; intros Hd;
    try discriminate; split; intros H; try discriminate; try reflexivity.
  - apply Z.eqb_eq in H. now subst.
  - injection H as ->. apply Z.eqb_refl.
  - apply String.eqb_eq in H. now subst.
  - injection H as ->. apply String.eqb_refl.
  - apply Bool.eqb_prop in H. now subst.
  - injection H as ->. now destruct y.
Qed.

Lemma value_eq_index (a b : Value) : value_eq a b = true -> index a = index b.
Proof. destruct a, b; simpl; intros H; try discriminate; reflexivity. Qed.

Lemma interpret_app (s1 s2 : list Stmt) (st : Interpreter) :
  interpret (s1 ++ s2) st =
  match interpret s1 st with
  | (Return _, st1) => interpret s2 st1
  | (Throw e, st1) => (Throw e, st1)
  end.
Proof.
  revert st. induction s1 as [|s s1 IH]; intros st; simpl.
  - reflexivity.
  - unfold bind. destruct (execute s st) as [[[]|e] st']; [apply IH|reflexivity].
Qed.

Lemma evaluate_variable_bound (name : Token) (st : Interpreter) (v : Value) :
  variables st !! lexeme name = Some v ->
  evaluate (VariableExpr name) st =
  (Return v, mkInterpreter (variables st) v (cout st)).
Proof.
  intros H. unfold evaluate, evaluate_by, bind. simpl. now rewrite H.
Qed.

Lemma interpret_cons (stmt : Stmt) (rest : list Stmt) (st : Interpreter) :
  interpret (stmt :: rest) st =
  match execute stmt st with
  | (Return _, st1) => interpret rest st1
  | (Throw e, st1) => (Throw e, st1)
  end.
Proof. reflexivity. Qed.

Lemma run_in_order_thrown (ss : list Stmt) (e : exception) (st : Interpreter) :
  fold_left run_in_order ss (Throw e, st) = (Throw e, st).
Proof. induction ss as [|s ss IH]; [reflexivity|exact IH]. Qed.

Lemma interpret_fold (ss : list Stmt) (st : Interpreter) :
  interpret ss st = fold_left run_in_order ss (Return tt, st).
Proof.
  revert st. induction ss as [|s ss IH]; intros st; [reflexivity|].
  rewrite interpret_cons. cbn [fold_left run_in_order].
  destruct (execute s st) as [[[]|e] st1];
    [apply IH|now rewrite run_in_order_thrown].
Qed.

(** C2.  [interpret] executes the statements in order, each in the state
    the one before left: it is [execute] folded over the statements from
    the left, from the first one on, for as long as [execute] returns; on
    one statement it is [execute]; on [before ++ after] it is what it does
    on [before] and then, from the state reached, on [after]; and when a
    statement throws after [before] has run, [interpret] ends with that very
    exception in the state the throw left, whatever the statements [after]
    are: none of them is executed and nothing more is written. *)
Theorem interpret_in_order_fail_fast (before after : list Stmt) (st : Interpreter) :
  interpret (before ++ after) st =
    match interpret before st with
    | (Return _, st1) => interpret after st1
    | (Throw e, st1) => (Throw e, st1)
    end
  /\ (forall stmt e st1 st2,
        interpret before st = (Return tt, st1) ->
        execute stmt st1 = (Throw e, st2) ->
        interpret (before ++ stmt :: after) st = (Throw e, st2))
  /\ interpret [] st = (Return tt, st)
  /\ (forall stmt, interpret [stmt] st = execute stmt st)
  /\ (forall stmt,
        interpret (stmt :: after) st =
        match execute stmt st with
        | (Return _, st1) => interpret after st1
        | (Throw e, st1) => (Throw e, st1)
        end)
  /\ (forall stmt st1,
        interpret before st = (Return tt, st1) ->
        interpret (before ++ stmt :: after) st =
        match execute stmt st1 with
        | (Return _, st2) => interpret after st2
        | (Throw e, st2) => (Throw e, st2)
        end)
  /\ interpret before st = fold_left run_in_order before (Return tt, st).
Proof.
  split; [apply interpret_app|]. split.
  { intros stmt e st1 st2 Hb Hs.
    rewrite interpret_app, Hb. simpl. unfold bind. now rewrite Hs. }
  split; [reflexivity|]. split.
  { intros stmt. rewrite interpret_cons.
    now destruct (execute stmt st) as [[[]|e] st1]. }
  split; [intros stmt; apply interpret_cons|]. split.
  { intros stmt st1 Hb. now rewrite interpret_app, Hb, interpret_cons. }
  apply interpret_fold.
Qed.

(** [print(1); y; print(2);]: the first statement writes, the second
    throws, the third is not run. *)
Lemma interpret_in_order_fail_fast_witness :
  parsed prog_undefined = Some (stmts_undefined_before ++ stmt_undefined :: stmts_undefined_after)
  /\ interpret (stmts_undefined_before ++ stmt_undefined :: stmts_undefined_after)
       Interpreter_new
     = (Throw (runtime_error "Undefined variable: y"),
        mkInterpreter ∅ VNil [OutDouble 1]).
Proof.
  split; [vm_compute; reflexivity|].
  apply (proj1 (proj2 (interpret_in_order_fail_fast stmts_undefined_before
                         stmts_undefined_after Interpreter_new))
           stmt_undefined (runtime_error "Undefined variable: y")
           (mkInterpreter ∅ VNil [OutDouble 1])
           (mkInterpreter ∅ VNil [OutDouble 1]));
    vm_compute; reflexivity.
Defined.

(** The five kinds of runtime fault, each thrown by [execute]: operands of
    the wrong kind, a division by zero, a variable that is not bound, a call
    of something else than [print], a condition that is neither a [bool] nor
    an [int]. *)
Example runtime_faults :
  fst (execute (ExpressionStmt
                  (BinaryExpr (LiteralExpr (VBool true)) (tok MINUS "-")
                     (LiteralExpr (VInt 1)))) Interpreter_new)
    = Throw (runtime_error "Invalid operands to -")
  /\ fst (execute (ExpressionStmt
                     (BinaryExpr (LiteralExpr (VInt 10)) (tok SLASH "/")
                        (LiteralExpr (VInt 0)))) Interpreter_new)
     = Throw (runtime_error "Division by zero")
  /\ fst (execute (ExpressionStmt (VariableExpr (ident "y"))) Interpreter_new)
     = Throw (runtime_error "Undefined variable: y")
  /\ fst (execute (ExpressionStmt
                     (CallExpr (VariableExpr (ident "f")) (tok RIGHT_PAREN ")") []))
            Interpreter_new)
     = Throw (runtime_error "Only print() is supported as a built-in function")
  /\ fst (execute (IfStmt (LiteralExpr (VString "s"))
                     (ExpressionStmt (LiteralExpr VNil)) None) Interpreter_new)
     = Throw (runtime_error "Invalid condition in if statement").
Proof. repeat split; reflexivity. Qed.

Lemma SFeqb_true_iff (f g : spec_float) :
  SFeqb f g = true <->
  (f = g /\ f <> S754_nan)
  \/ ((exists s, f = S754_zero s) /\ (exists s, g = S754_zero s)).
Proof.
  unfold SFeqb. split.
  - destruct f as [s1|s1| |s1 m1 e1], g as [s2|s2| |s2 m2 e2]; simpl;
      try discriminate; try (destruct s1; discriminate);
      try (destruct s2; discriminate).
    + intros _. right. eauto.
    + destruct s1, s2; try discriminate; intros _; left; split;
        (reflexivity || discriminate).
    + destruct s1, s2; try discriminate;
        destruct (e1 ?= e2)%Z eqn:Ee; try discriminate;
        apply Z.compare_eq in Ee; subst e2;
        destruct (Pos.compare_cont Eq m1 m2) eqn:Em; try discriminate;
        apply Pos.compare_eq in Em; subst m2; intros _; left; split;
        (reflexivity || discriminate).
  - intros [[<- Hn]|[[s1 ->] [s2 ->]]]; [|reflexivity].
    destruct f as [s1|s1| |s1 m1 e1]; simpl; try reflexivity.
    + now destruct s1.
    + now contradiction Hn.
    + assert (Hm : Pos.compare_cont Eq m1 m1 = Eq) by apply Pos.compare_refl.
      destruct s1; now rewrite Z.compare_refl, Hm.
Qed.

Lemma Prim2SF_same (x y : double) : Prim2SF x = Prim2SF y -> x = y.
Proof.
  intros H. rewrite <- (FloatAxioms.SF2Prim_Prim2SF x),
    <- (FloatAxioms.SF2Prim_Prim2SF y). now rewrite H.
Qed.

Lemma holds_nan_is_the_nan (a : Value) : holds_nan a = is_the_nan a.
Proof.
  destruct a as [x|x|x|x|]; try reflexivity. simpl.
  unfold PrimFloat.is_nan. rewrite FloatAxioms.eqb_spec.
  destruct (SFeqb (Prim2SF x) (Prim2SF x)) eqn:E.
  - apply SFeqb_true_iff in E as [[_ Hn]|[[s Hs] _]].
    + now destruct (Prim2SF x).
    + now rewrite Hs.
  - destruct (Prim2SF x) as [s|s| |s m e] eqn:Ex; try reflexivity;
      exfalso; apply not_true_iff_false in E; apply E, SFeqb_true_iff;
      left; split; (reflexivity || discriminate).
Qed.

Lemma value_eq_exactly (a b : Value) :
  value_eq a b = true <->
  (a = b /\ is_the_nan a = false)
  \/ (holds_zero a = true /\ holds_zero b = true).
Proof.
  destruct (holds_double a) eqn:Hd.
  - destruct a as [x|x|x|x|]; try discriminate.
    destruct b as [y|y|y|y|];
      try (simpl; split; [discriminate|intros [[? _]|[_ ?]]; discriminate]).
    cbn [value_eq is_the_nan holds_zero].
    rewrite FloatAxioms.eqb_spec, SFeqb_true_iff. split.
    + intros [[H Hn]|[[s1 H1] [s2 H2]]].
      * left. apply Prim2SF_same in H. subst y. split; [reflexivity|].
        now destruct (Prim2SF x).
      * right. now rewrite H1, H2.
    + intros [[H Hn]|[H1 H2]].
      * injection H as <-. left. split; [reflexivity|].
        intros E. now rewrite E in Hn.
      * right. destruct (Prim2SF x); try discriminate.
        destruct (Prim2SF y); try discriminate. eauto.
  - rewrite (value_eq_true_iff a b Hd). split.
    + intros <-. left. split; [reflexivity|]. now destruct a.
    + intros [[H _]|[H _]]; [exact H|]. now destruct a.
Qed.

(** C4, as the code has it.  [==] and [!=] never throw, and [!=] is the
    negation of [==]; the equality is symmetric; values of different kinds
    are unequal, and equal values are of one kind; two values are equal
    exactly when they are the same value, with two exceptions, both among
    the [double]s, which compare as IEEE 754 says: the NaN differs from
    itself, and the two zeros, [+0.0] and [-0.0], are equal.  So a value
    equals itself unless it holds the NaN, and for a value that is not a
    [double], being equal is being the same value. *)
Theorem equality_operators (a b : Value) :
  binary_op EQUAL_EQUAL a b = Return (VBool (value_eq a b))
  /\ binary_op BANG_EQUAL a b = Return (VBool (negb (value_eq a b)))
  /\ value_eq a b = value_eq b a
  /\ (index a <> index b -> value_eq a b = false)
  /\ value_eq a a = negb (holds_nan a)
  /\ (holds_double a = false -> (value_eq a b = true <-> a = b))
  /\ (value_eq a b = true <->
      (a = b /\ is_the_nan a = false)
      \/ (holds_zero a = true /\ holds_zero b = true))
  /\ holds_nan a = is_the_nan a
  /\ value_eq (VDouble 0) (VDouble (-0)) = true
  /\ VDouble 0 <> VDouble (-0).
Proof.
  split; [reflexivity|]. split; [simpl; now rewrite value_ne_negb|].
  split; [apply value_eq_sym|]. split.
  { intros Hi. destruct (value_eq a b) eqn:E; [|reflexivity].
    now apply value_eq_index in E. }
  split; [apply value_eq_refl|]. split; [apply value_eq_true_iff|].
  split; [apply value_eq_exactly|]. split; [apply holds_nan_is_the_nan|].
  split; [reflexivity|].
  intros H.
  apply (f_equal (fun v => match v with
                           | VDouble d => Prim2SF d
                           | _ => S754_nan
                           end)) in H.
  vm_compute in H. discriminate H.
Qed.

(** The claim fails where it says every value equals itself: the value that
    holds the NaN [double] does not, and [==] on it answers [false]. *)
Lemma nan_differs_from_itself :
  value_eq (VDouble PrimFloat.nan) (VDouble PrimFloat.nan) = false
  /\ binary_op EQUAL_EQUAL (VDouble PrimFloat.nan) (VDouble PrimFloat.nan)
     = Return (VBool false)
  /\ (fun r => (fst (snd r), lastValue (snd (snd r))))
       <$> run prog_nan_self_compare
     = Some (Return tt, VBool false).
Proof. repeat split; vm_compute; reflexivity. Qed.

(** *** What a statement does not bind stays as it is *)

Lemma keeps_binding_bind (n : string) {A B} (m : I A) (f : A -> I B) :
  keeps_binding n m -> (forall a, keeps_binding n (f a)) ->
  keeps_binding n (bind m f).
Proof.
  intros Hm Hf st. unfold bind. specialize (Hm st).
  destruct (m st) as [[a|e] st1]; cbn [snd] in *; [|exact Hm].
  now rewrite Hf.
Qed.

Lemma keeps_binding_same (n : string) {A} (m : I A) :
  (forall st, variables (snd (m st)) = variables st) -> keeps_binding n m.
Proof. intros H st. now rewrite H. Qed.

Lemma keeps_binding_evaluate_by (n : string) (m : I unit) :
  keeps_binding n m -> keeps_binding n (evaluate_by m).
Proof.
  intros H. apply keeps_binding_bind; [exact H|]. intros _.
  now apply keeps_binding_same.
Qed.

Lemma keeps_binding_store (n name : string) (v : Value) :
  String.eqb name n = false -> keeps_binding n (store name v).
Proof.
  intros H st. cbn [store snd variables]. apply lookup_insert_ne.
  now apply String.eqb_neq.
Qed.

Lemma binding_accept (n : string) (e : Expr) :
  binds n e = false -> keeps_binding n (accept e).
Proof.
  induction e as [v|op r IHr|l op r IHl IHr|e IHe|name|name v IHv
                  |callee paren args _ IHargs] using Expr_nested_ind;
    cbn [accept binds]; intros H.
  - now apply keeps_binding_same.
  - apply keeps_binding_bind; [now apply keeps_binding_evaluate_by, IHr|].
    intros v. apply keeps_binding_same. intros st. now destruct (type op), v.
  - apply orb_false_elim in H as [Hl Hr].
    apply keeps_binding_bind; [now apply keeps_binding_evaluate_by, IHl|].
    intros lv.
    apply keeps_binding_bind; [now apply keeps_binding_evaluate_by, IHr|].
    intros rv. apply keeps_binding_same. intros st.
    now destruct (binary_op (type op) lv rv).
  - apply keeps_binding_bind; [now apply keeps_binding_evaluate_by, IHe|].
    intros v. now apply keeps_binding_same.
  - apply keeps_binding_same. intros st.
    now destruct (variables st !! lexeme name).
  - apply orb_false_elim in H as [Hname Hv].
    apply keeps_binding_bind; [now apply keeps_binding_evaluate_by, IHv|].
    intros u. apply keeps_binding_bind; [now apply keeps_binding_store|].
    intros _. now apply keeps_binding_same.
  - apply orb_false_elim in H as [_ Hargs].
    destruct callee; try (now apply keeps_binding_same).
    destruct (String.eqb (lexeme name) "print");
      [|now apply keeps_binding_same].
    apply keeps_binding_bind; [|intros _; now apply keeps_binding_same].
    induction IHargs as [|a args Ha _ IH]; [now apply keeps_binding_same|].
    cbn [existsb] in Hargs. apply orb_false_elim in Hargs as [Ha' Hargs].
    apply keeps_binding_bind; [now apply keeps_binding_evaluate_by, Ha|].
    intros v. apply keeps_binding_bind.
    + apply keeps_binding_same. intros st. now destruct v.
    + intros _. now apply IH.
Qed.

Lemma binding_execute (n : string) (s : Stmt) :
  binds_stmt n s = false -> keeps_binding n (execute s).
Proof.
  induction s as [e|name init c|ss IHss|c t IHt|c t e IHt IHe|c b|k v|name]
    using Stmt_nested_ind; cbn [execute binds_stmt]; intros H;
    try (now apply keeps_binding_same).
  - apply keeps_binding_bind;
      [now apply keeps_binding_evaluate_by, binding_accept|].
    intros v. now apply keeps_binding_same.
  - apply orb_false_elim in H as [Hname Hinit].
    apply keeps_binding_bind.
    + destruct init; [now apply keeps_binding_evaluate_by, binding_accept
                     |now apply keeps_binding_same].
    + intros v. apply keeps_binding_bind; [now apply keeps_binding_store|].
      intros _. now apply keeps_binding_same.
  - induction IHss as [|s ss Hs _ IH]; [now apply keeps_binding_same|].
    cbn [existsb] in H. apply orb_false_elim in H as [Hs' Hss].
    apply keeps_binding_bind; [now apply Hs|]. intros _. now apply IH.
  - apply orb_false_elim in H as [H _]. apply orb_false_elim in H as [Hc Ht].
    apply keeps_binding_bind;
      [now apply keeps_binding_evaluate_by, binding_accept|].
    intros v. apply keeps_binding_bind.
    + apply keeps_binding_same. intros st. now destruct v.
    + intros []; [now apply IHt|now apply keeps_binding_same].
  - apply orb_false_elim in H as [H He]. apply orb_false_elim in H as [Hc Ht].
    apply keeps_binding_bind;
      [now apply keeps_binding_evaluate_by, binding_accept|].
    intros v. apply keeps_binding_bind.
    + apply keeps_binding_same. intros st. now destruct v.
    + intros []; [now apply IHt|now apply IHe].
Qed.

Lemma binding_interpret (n : string) (ss : list Stmt) :
  existsb (binds_stmt n) ss = false -> keeps_binding n (interpret ss).
Proof.
  induction ss as [|s ss IH]; cbn [existsb interpret]; intros H.
  - now apply keeps_binding_same.
  - apply orb_false_elim in H as [Hs Hss].
    apply keeps_binding_bind; [now apply binding_execute|].
    intros _. now apply IH.
Qed.

(** C7.  Reading a name with no binding throws "Undefined variable";
    reading a bound name returns the value it is bound to, whatever was
    evaluated last; an assignment whose value has been evaluated binds the
    name, bound before or not, to that value, returns it and leaves every
    other name as it was; a read of the name then returns the value, straight
    away and after any statements that neither assign to the name nor
    declare it, whether they return or throw; the only exception an
    assignment can end with is one thrown by its value expression, so
    assigning a literal never throws; and after two assignments a read
    returns the value written last. *)
Theorem variable_read_and_assignment (name : Token) (st : Interpreter) :
  (variables st !! lexeme name = None ->
   evaluate (VariableExpr name) st =
   (Throw (runtime_error ("Undefined variable: " ++ lexeme name)), st))
  /\ (forall value v st1,
        evaluate value st = (Return v, st1) ->
        let st2 :=
          mkInterpreter (<[lexeme name := v]> (variables st1)) v (cout st1) in
        evaluate (AssignExpr name value) st = (Return v, st2)
        /\ evaluate (VariableExpr name) st2 = (Return v, st2))
  /\ (forall value e st1,
        evaluate value st = (Throw e, st1) ->
        evaluate (AssignExpr name value) st = (Throw e, st1))
  /\ (forall v,
        evaluate (AssignExpr name (LiteralExpr v)) st =
        (Return v, mkInterpreter (<[lexeme name := v]> (variables st)) v (cout st)))
  /\ (forall v1 v2,
        let after :=
          snd (evaluate (AssignExpr name (LiteralExpr v2))
                 (snd (evaluate (AssignExpr name (LiteralExpr v1)) st))) in
        evaluate (VariableExpr name) after = (Return v2, after))
  /\ (forall v,
        variables st !! lexeme name = Some v ->
        evaluate (VariableExpr name) st
        = (Return v, mkInterpreter (variables st) v (cout st)))
  /\ (forall value v st1 between r st3,
        evaluate value st = (Return v, st1) ->
        existsb (binds_stmt (lexeme name)) between = false ->
        interpret between (snd (evaluate (AssignExpr name value) st))
          = (r, st3) ->
        evaluate (VariableExpr name) st3
        = (Return v, mkInterpreter (variables st3) v (cout st3)))
  /\ (forall value v st1 other,
        evaluate value st = (Return v, st1) ->
        lexeme other <> lexeme name ->
        variables (snd (evaluate (AssignExpr name value) st)) !! lexeme other
        = variables st1 !! lexeme other).
Proof.
  assert (Hassign : forall s value v s1,
    evaluate value s = (Return v, s1) ->
    evaluate (AssignExpr name value) s =
      (Return v, mkInterpreter (<[lexeme name := v]> (variables s1)) v (cout s1))).
  { intros s value v s1 H. unfold evaluate, evaluate_by in *. simpl.
    unfold evaluate_by, bind in *. simpl in *.
    destruct (accept value s) as [[[]|e] s'] eqn:E; simpl in *; [|discriminate].
    injection H as <- <-. reflexivity. }
  assert (Hread : forall m v o,
    evaluate (VariableExpr name) (mkInterpreter (<[lexeme name := v]> m) v o)
    = (Return v, mkInterpreter (<[lexeme name := v]> m) v o)).
  { intros m v o. rewrite (evaluate_variable_bound _ _ v); [reflexivity|].
    simpl. apply lookup_insert_eq. }
  split; [|split; [|split; [|split; [|split; [|split; [|split]]]]]].
  - intros H. unfold evaluate, evaluate_by, bind. simpl. now rewrite H.
  - intros value v st1 H. cbv zeta. split; [apply (Hassign _ _ _ _ H)|apply Hread].
  - intros value e st1 H. unfold evaluate, evaluate_by in *. simpl.
    unfold evaluate_by, bind in *. simpl in *.
    destruct (accept value st) as [[[]|e'] s'] eqn:E; simpl in *;
      [discriminate|]. now injection H as <- <-.
  - intros v.
    now rewrite (Hassign st (LiteralExpr v) v
                   (mkInterpreter (variables st) v (cout st)) eq_refl).
  - intros v1 v2. cbv zeta.
    rewrite (Hassign st (LiteralExpr v1) v1 _ eq_refl). cbn [snd].
    rewrite (Hassign _ (LiteralExpr v2) v2 _ eq_refl). cbn [snd].
    apply Hread.
  - intros v. apply evaluate_variable_bound.
  - intros value v st1 between r st3 Hv Hb Hrun.
    apply evaluate_variable_bound.
    pose proof (binding_interpret _ _ Hb
                  (snd (evaluate (AssignExpr name value) st))) as Hkeep.
    rewrite Hrun in Hkeep. cbn [snd] in Hkeep. rewrite Hkeep.
    rewrite (Hassign _ _ _ _ Hv). cbn [snd variables].
    apply lookup_insert_eq.
  - intros value v st1 other Hv Hne.
    rewrite (Hassign _ _ _ _ Hv). cbn [snd variables].
    now apply lookup_insert_ne.
Qed.

End InterpreterFacts.

(** ** The parser: facts *)

Module ParserFacts.
Import Parser ParserSpec.

Lemma later_refl (p : Parser) : later p p.
Proof. repeat split; lia. Qed.

Lemma later_trans (p q r : Parser) : later p q -> later q r -> later p r.
Proof.
  intros (H1 & H2 & H3 & H4) (G1 & G2 & G3 & G4).
  repeat split; try congruence; lia.
Qed.

Lemma eof_is_last (toks : list Token) (i : nat) :
  ends_with_eof toks = true -> S i = length toks ->
  type (nth i toks eof_token) = END_OF_FILE.
Proof.
  unfold ends_with_eof. intros H Hi.
  destruct (rev toks) as [|t r] eqn:E; [discriminate|].
  apply bool_decide_eq_true in H.
  assert (Ht : toks = rev r ++ [t]).
  { rewrite <- (rev_involutive toks), E. reflexivity. }
  subst toks. rewrite length_app in Hi. simpl in Hi.
  rewrite app_nth2 by lia.
  replace (i - length (rev r))%nat with 0%nat by lia. exact H.
Qed.

(** The cursor can move on where the token under it is not the last. *)
Lemma not_at_end_room (p : Parser) :
  cursor_ok p -> isAtEnd p = false -> (S (current p) < length (tokens p))%nat.
Proof.
  intros [He Hc] Hn.
  destruct (decide (S (current p) = length (tokens p))) as [Heq|Hne]; [|lia].
  unfold isAtEnd, peek in Hn. apply bool_decide_eq_false in Hn.
  exfalso. apply Hn. now apply eof_is_last.
Qed.

Lemma remaining_pos (p : Parser) : cursor_ok p -> (1 <= remaining p)%nat.
Proof. intros [_ H]. unfold remaining. lia. Qed.

Lemma advance_stepped (p : Parser) :
  cursor_ok p -> isAtEnd p = false -> stepped p (advance p).
Proof.
  intros Hok Hn. pose proof (not_at_end_room p Hok Hn) as Hr.
  unfold advance. rewrite Hn. destruct Hok as [He Hc].
  repeat split; simpl; auto.
Qed.

Lemma advance_at_end (p : Parser) : isAtEnd p = true -> advance p = p.
Proof. intros H. unfold advance. now rewrite H. Qed.

Lemma stepped_later (p p' : Parser) : stepped p p' -> later p p'.
Proof.
  intros (_ & H1 & H2 & H3 & H4). repeat split; auto; [lia|rewrite H3; lia].
Qed.

Lemma check_true (ty : TokenType) (p : Parser) :
  check ty p = true -> isAtEnd p = false /\ type (peek p) = ty.
Proof.
  unfold check. destruct (isAtEnd p); [discriminate|].
  intros H. apply bool_decide_eq_true in H. auto.
Qed.

Lemma match_spec (ty : TokenType) (p : Parser) :
  cursor_ok p ->
  match_ ty p = (false, p)
  \/ (match_ ty p = (true, advance p) /\ stepped p (advance p)
      /\ type (peek p) = ty).
Proof.
  intros Hok. unfold match_. destruct (check ty p) eqn:E; [right|now left].
  apply check_true in E as [Hn Ht]. repeat split; auto.
  all: now apply advance_stepped.
Qed.

Lemma match_any_spec (types : list TokenType) (p : Parser) :
  cursor_ok p ->
  match_any types p = (false, p)
  \/ (match_any types p = (true, advance p) /\ stepped p (advance p)
      /\ In (type (peek p)) types).
Proof.
  intros Hok. induction types as [|ty rest IH]; simpl; [now left|].
  destruct (check ty p) eqn:E.
  - right. apply check_true in E as [Hn Ht]. repeat split; auto.
    all: now apply advance_stepped.
  - destruct IH as [IH|(IH & Hs & Hin)]; [now left|right]. auto.
Qed.


(** *** How runs compose *)

Ltac facts :=
  repeat match goal with
  | H : stepped _ _ |- _ =>
      let Ht := fresh "Ht" in let Hd := fresh "Hd" in
      destruct H as (? & Ht & ? & Hd & ?);
      pose proof (f_equal (@length Token) Ht);
      pose proof (f_equal (@length Diagnostic) Hd)
  | H : later _ _ |- _ =>
      let Ht := fresh "Ht" in
      destruct H as (Ht & ? & ? & ?);
      pose proof (f_equal (@length Token) Ht)
  end.

Ltac arith :=
  unfold cursor_ok, remaining in *;
  cbn [current tokens diagnostics filename] in *; lia.

Ltac side :=
  facts;
  lazymatch goal with
  | |- cursor_ok _ => assumption
  | |- later _ _ => unfold later; repeat split; first [congruence | arith]
  | |- _ \/ _ => first [left; reflexivity | right; arith | left; arith]
  | |- _ => intros; first [discriminate | arith]
  end.

Lemma post_intro {A} (s : bool) (p0 p' : Parser) (res : result A) r :
  r = Some (res, p') -> cursor_ok p' -> later p0 p' -> ends_well s p0 res p' ->
  post s p0 r.
Proof. intros. exists res, p'. auto. Qed.

Lemma post_ret {A} (s : bool) (p0 p : Parser) (a : A) :
  cursor_ok p -> later p0 p -> (s = true -> (current p0 < current p)%nat) ->
  post s p0 (ret a p).
Proof. intros Hok Hl Hs. now apply (post_intro s p0 p (Return a)). Qed.

Lemma report_ok (d : Diagnostic) (p : Parser) :
  cursor_ok p -> cursor_ok (report d p).
Proof. intros H. exact H. Qed.

Lemma report_later (d : Diagnostic) (p0 p : Parser) :
  later p0 p -> later p0 (report d p).
Proof.
  intros (H1 & H2 & H3 & H4). repeat split; simpl; auto.
  rewrite length_app. simpl. lia.
Qed.

Lemma error_ok (t : Token) (msg : string) (p : Parser) :
  cursor_ok p -> cursor_ok (snd (error t msg p)).
Proof. intros H. exact H. Qed.

Lemma error_later (t : Token) (msg : string) (p0 p : Parser) :
  later p0 p -> later p0 (snd (error t msg p)).
Proof. intros H. unfold error. simpl. now apply report_later. Qed.

Lemma post_throw_error {A} (s : bool) (p0 p : Parser) (t : Token) (msg : string) :
  cursor_ok p -> later p0 p -> post (A := A) s p0 (throw_error t msg p).
Proof.
  intros Hok Hl. unfold throw_error, error.
  eapply post_intro; [reflexivity|exact Hok|now apply report_later|].
  simpl. rewrite length_app. simpl. destruct Hl as (_ & _ & _ & H). lia.
Qed.

Lemma scaled_exception (m base e : Z) (x : exception) :
  scaled m base e = inl x -> x = out_of_range "stod".
Proof.
  unfold scaled. cbv zeta.
  match goal with
  | |- context [round_fraction ?a ?b] => destruct (round_fraction a b)
  end; try (intros [= <-]; reflexivity).
  match goal with |- context [if ?c then _ else _] => destruct c end;
    [intros [= <-]; reflexivity|discriminate].
Qed.

Lemma stod_exception (s : string) (e : exception) :
  stod s = inl e -> e = invalid_argument "stod" \/ e = out_of_range "stod".
Proof.
  unfold stod. destruct (read_sign (skip_spaces s)) as [neg t].
  destruct (starts_with "inf" t); [discriminate|].
  destruct (starts_with "nan" t); [discriminate|].
  destruct (hex_prefixed t) as [digits|].
  - unfold hexadecimal.
    destruct (read_mantissa read_hex_digits digits) as [[[m n] nf] r].
    destruct (m =? 0); [discriminate|].
    destruct (scaled _ _ _) eqn:E; [|discriminate].
    intros [= <-]. right. exact (scaled_exception _ _ _ _ E).
  - unfold decimal.
    destruct (read_mantissa read_digits t) as [[[m n] nf] r].
    destruct n; [intros [= <-]; now left|].
    destruct (m =? 0); [discriminate|].
    destruct (scaled _ _ _) eqn:E; [|discriminate].
    intros [= <-]. right. exact (scaled_exception _ _ _ _ E).
Qed.

Lemma post_throw_stod {A} (s : bool) (p0 p : Parser) (lx : string) (e : exception) :
  stod lx = inl e -> cursor_ok p -> later p0 p -> post (A := A) s p0 (throw e p).
Proof.
  intros He Hok Hl. apply (post_intro s p0 p (Throw e)); auto.
  destruct (stod_exception _ _ He) as [-> | ->]; exact I.
Qed.

Lemma post_consume (p0 p : Parser) (ty : TokenType) (msg : string) :
  cursor_ok p -> later p0 p -> post true p0 (consume ty msg p).
Proof.
  intros Hok Hl. unfold consume. destruct (check ty p) eqn:E.
  - apply check_true in E as [Hn _].
    pose proof (advance_stepped p Hok Hn) as Hs.
    eapply post_intro; [reflexivity|..]; simpl; side.
  - now apply post_throw_error.
Qed.

Lemma post_bind {A B} (s s1 : bool) (p0 p : Parser) (m : M A) (f : A -> M B) :
  post s1 p0 (m p) ->
  (forall a p1, cursor_ok p1 -> later p0 p1 ->
                (s1 = true -> (current p0 < current p1)%nat) ->
                post s p0 (f a p1)) ->
  post s p0 (bind m f p).
Proof.
  intros (res & p1 & Hr & Hok & Hl & Hw) Hf. unfold bind. rewrite Hr.
  destruct res as [a|e].
  - now apply Hf.
  - now apply (post_intro s p0 p1 (Throw e)).
Qed.

Lemma post_weaken {A} (s : bool) (p0 : Parser) (r : option (result A * Parser)) :
  post true p0 r -> post s p0 r.
Proof.
  intros (res & p' & Hr & Hok & Hl & Hw). apply (post_intro s p0 p' res); auto.
  destruct res as [a|[]]; simpl in *; auto.
Qed.

Lemma post_lift {A} (s s1 : bool) (p0 p : Parser) (r : option (result A * Parser)) :
  later p0 p -> post s1 p r ->
  (s = true -> s1 = true \/ (current p0 < current p)%nat) ->
  post s p0 r.
Proof.
  intros Hl (res & p' & Hr & Hok' & Hl' & Hw) Hs.
  apply (post_intro s p0 p' res); auto; [now apply (later_trans _ p)|].
  destruct res as [a|[]]; simpl in *; auto.
  - intros Hst. destruct (Hs Hst) as [->|Hlt]; side.
  - side.
Qed.

Lemma post_safe {A} (s s1 : bool) (m : nat) (p0 p : Parser) (g : M A) :
  safe m s1 g -> cursor_ok p -> (remaining p <= m)%nat -> later p0 p ->
  (s = true -> s1 = true \/ (current p0 < current p)%nat) ->
  post s p0 (g p).
Proof.
  intros Hg Hok Hrem Hl Hs. apply (post_lift s s1 p0 p); auto.
Qed.

Lemma safe_mono {A} (m m' : nat) (s : bool) (f : M A) :
  (m' <= m)%nat -> safe m s f -> safe m' s f.
Proof. intros Hle Hf p Hok Hrem. apply Hf; auto. lia. Qed.


(** *** Each member function ends well *)

Ltac on_match :=
  match goal with
  | Hok : cursor_ok ?p |- context [match_ ?ty ?p] =>
      destruct (match_spec ty p Hok) as [-> | (-> & ? & ?)]
  | Hok : cursor_ok ?p |- context [match_any ?tys ?p] =>
      destruct (match_any_spec tys p Hok) as [-> | (-> & ? & ?)]
  end; cbv beta match.

Ltac next :=
  lazymatch goal with
  | |- post _ _ (bind _ _ _) => eapply post_bind; [|intros ? ? ? ? ?]
  | |- post _ _ (ret _ _) => apply post_ret; side
  | |- post _ _ (throw_error _ _ _) => apply post_throw_error; side
  | |- post _ _ (consume _ _ _) =>
      first [apply post_consume | apply post_weaken, post_consume]; side
  end.

Lemma primary_safe (m : nat) (expression : M Expr) :
  safe m true expression -> safe (S m) true (primary expression).
Proof.
  intros Hrec p Hok Hrem. unfold primary.
  on_match; [|next].
  on_match; [|next].
  on_match; [|next].
  on_match.
  2:{ facts. destruct (stod _) eqn:E; [eapply post_throw_stod; eauto; side|next]. }
  on_match; [|next].
  on_match; [|next].
  on_match; [next|].
  next.
  - apply (post_safe true true m); auto; side.
  - next; [next|]. next.
Qed.


Lemma arguments_loop_safe (expression : M Expr) (k : nat) :
  forall (arguments : list Expr) (p : Parser),
    cursor_ok p -> (remaining p < k)%nat ->
    safe (remaining p) true expression ->
    post true p (arguments_loop k expression arguments p).
Proof.
  induction k as [|k IH]; intros arguments p Hok Hrem Hrec; [lia|].
  cbn [arguments_loop].
  set (p' := if (255 <=? length arguments)%nat then _ else p).
  assert (Hok' : cursor_ok p') by (subst p'; destruct (_ <=? _)%nat; auto).
  assert (Hl' : later p p').
  { subst p'. destruct (_ <=? _)%nat; [apply error_later|]; apply later_refl. }
  assert (Hc' : current p' = current p) by (subst p'; now destruct (_ <=? _)%nat).
  clearbody p'.
  eapply post_bind.
  - apply (post_lift true true p p'); auto.
    apply Hrec; auto. side.
  - intros a p1 Hok1 Hl1 Hs1. cbv beta. specialize (Hs1 eq_refl).
    on_match; [next|].
    apply (post_lift true true p (advance p1)); [side| |auto].
    apply IH; [side|side|]. apply (safe_mono (remaining p)); [side|auto].
Qed.

Lemma finishCall_safe (fuel : nat) (expression : M Expr) (callee : Expr) (p : Parser) :
  cursor_ok p -> (remaining p < fuel)%nat ->
  safe (remaining p) true expression ->
  post true p (finishCall fuel expression callee p).
Proof.
  intros Hok Hrem Hrec. unfold finishCall.
  eapply (post_bind true false).
  - destruct (negb (check RIGHT_PAREN p)).
    + apply post_weaken. now apply arguments_loop_safe.
    + next.
  - intros args p1 Hok1 Hl1 _. next; [next|]. next.
Qed.

Lemma call_loop_safe (fuel : nat) (expression : M Expr) (k : nat) :
  forall (expr : Expr) (p : Parser),
    cursor_ok p -> (remaining p < k)%nat -> (remaining p < fuel)%nat ->
    safe (remaining p) true expression ->
    post false p (call_loop k fuel expression expr p).
Proof.
  induction k as [|k IH]; intros expr p Hok Hrem Hfuel Hrec; [lia|].
  cbn [call_loop]. on_match; [next|].
  eapply (post_bind false true).
  - apply (post_lift true true p (advance p)); [side| |auto].
    apply finishCall_safe; [side|side|].
    apply (safe_mono (remaining p)); [side|auto].
  - intros e p1 Hok1 Hl1 Hs1. specialize (Hs1 eq_refl).
    apply (post_lift false false p p1); [side| |discriminate].
    apply IH; [side|side|side|]. apply (safe_mono (remaining p)); [side|auto].
Qed.

Lemma call_safe (m fuel : nat) (expression : M Expr) :
  (S m < fuel)%nat -> safe m true expression ->
  safe (S m) true (call fuel expression).
Proof.
  intros Hfuel Hrec p Hok Hrem. unfold call.
  eapply (post_bind true true).
  - now apply (primary_safe m).
  - intros e p1 Hok1 Hl1 Hs1. specialize (Hs1 eq_refl).
    apply (post_lift true false p p1); [side| |side].
    apply call_loop_safe; [side|side|side|].
    apply (safe_mono m); [side|auto].
Qed.

Lemma unary_rec_safe (call : M Expr) (k : nat) :
  forall p : Parser,
    cursor_ok p -> (remaining p < k)%nat -> safe (remaining p) true call ->
    post true p (unary_rec k call p).
Proof.
  induction k as [|k IH]; intros p Hok Hrem Hcall; [lia|].
  cbn [unary_rec]. on_match; [now apply Hcall|].
  eapply (post_bind true true).
  - apply (post_lift true true p (advance p)); [side| |auto].
    apply IH; [side|side|]. apply (safe_mono (remaining p)); [side|auto].
  - intros e p1 Hok1 Hl1 Hs1. next.
Qed.

Lemma unary_safe (m fuel : nat) (expression : M Expr) :
  (S m < fuel)%nat -> safe m true expression ->
  safe (S m) true (unary fuel expression).
Proof.
  intros Hfuel Hrec p Hok Hrem. unfold unary.
  apply unary_rec_safe; [auto|lia|].
  apply (safe_mono (S m)); [auto|now apply call_safe].
Qed.

Lemma binary_loop_safe (ops : list TokenType) (operand : M Expr) (k : nat) :
  forall (expr : Expr) (p : Parser),
    cursor_ok p -> (remaining p < k)%nat -> safe (remaining p) true operand ->
    post false p (binary_loop k ops operand expr p).
Proof.
  induction k as [|k IH]; intros expr p Hok Hrem Hop; [lia|].
  cbn [binary_loop]. on_match; [next|].
  eapply (post_bind false true).
  - apply (post_lift true true p (advance p)); [side| |auto].
    apply Hop; side.
  - intros e p1 Hok1 Hl1 Hs1. specialize (Hs1 eq_refl).
    apply (post_lift false false p p1); [side| |discriminate].
    apply IH; [side|side|]. apply (safe_mono (remaining p)); [side|auto].
Qed.

(** A left-associative level: its operand, then the loop. *)
Lemma level_safe (m fuel : nat) (ops : list TokenType) (operand : M Expr) :
  (m < fuel)%nat -> safe m true operand ->
  safe m true (expr <- operand ;; binary_loop fuel ops operand expr).
Proof.
  intros Hfuel Hop p Hok Hrem.
  eapply (post_bind true true).
  - now apply Hop.
  - intros e p1 Hok1 Hl1 Hs1. specialize (Hs1 eq_refl).
    apply (post_lift true false p p1); [side| |side].
    apply binary_loop_safe; [side|side|].
    apply (safe_mono m); [side|auto].
Qed.

Lemma logicalOr_safe (m fuel : nat) (expression : M Expr) :
  (S m < fuel)%nat -> safe m true expression ->
  safe (S m) true (logicalOr fuel expression).
Proof.
  intros Hfuel Hrec.
  unfold logicalOr, logicalAnd, equality, comparison, term, factor.
  repeat (apply level_safe; [lia|]). now apply unary_safe.
Qed.

Lemma assignment_safe (m fuel : nat) (expression : M Expr) :
  (S m < fuel)%nat -> safe m true expression ->
  safe (S m) true (assignment fuel expression).
Proof.
  intros Hfuel Hrec p Hok Hrem. unfold assignment.
  eapply (post_bind true true).
  - exact (logicalOr_safe m fuel expression Hfuel Hrec p Hok Hrem).
  - intros e p1 Hok1 Hl1 Hs1. specialize (Hs1 eq_refl).
    on_match; [next|].
    eapply (post_bind true true).
    + apply (post_safe true true m); auto; side.
    + intros v p2 Hok2 Hl2 Hs2. specialize (Hs2 eq_refl).
      destruct e; try next.
      all: apply post_ret;
        [now apply error_ok|apply error_later; side|intros _; simpl; side].
Qed.

Lemma expression_safe (fuel : nat) :
  forall m, (m < fuel)%nat -> safe m true (expression fuel).
Proof.
  induction fuel as [|fuel IH]; intros m Hm; [lia|].
  destruct m as [|m].
  - intros p Hok Hrem. pose proof (remaining_pos p Hok). lia.
  - cbn [expression]. apply assignment_safe; [lia|]. apply IH. lia.
Qed.


Ltac by_expression m :=
  apply (post_safe true true m);
  [apply expression_safe; lia|side|side|side|side].

Lemma expressionStatement_safe (m fuel : nat) :
  (m < fuel)%nat -> safe m true (expressionStatement fuel).
Proof.
  intros Hfuel p Hok Hrem. unfold expressionStatement.
  next; [by_expression m|]. next; [next|]. next.
Qed.

Lemma printStatement_safe (m fuel : nat) :
  (m < fuel)%nat -> safe m true (printStatement fuel).
Proof.
  intros Hfuel p Hok Hrem. unfold printStatement.
  next; [by_expression m|]. next; [next|]. next.
Qed.

Lemma returnStatement_safe (m fuel : nat) :
  (m < fuel)%nat -> safe m true (returnStatement fuel).
Proof.
  intros Hfuel p Hok Hrem. unfold returnStatement.
  eapply (post_bind true false).
  - destruct (negb (check SEMICOLON p)); [|next].
    next; [by_expression m|]. next.
  - intros v p1 Hok1 Hl1 _. next; [next|]. next.
Qed.

Lemma varDeclaration_safe (m fuel : nat) (is_const : bool) :
  (m < fuel)%nat -> safe m true (varDeclaration fuel is_const).
Proof.
  intros Hfuel p Hok Hrem. unfold varDeclaration.
  next; [next|]. specialize (H1 eq_refl).
  eapply (post_bind true false).
  - on_match.
    + destruct is_const; next.
    + next; [by_expression m|]. next.
  - intros v p2 Hok2 Hl2 _. next; [next|]. next.
Qed.

Lemma declaration_safe (m fuel : nat) (statement : M Stmt) :
  (m < fuel)%nat -> safe m true statement ->
  safe m true (declaration fuel statement).
Proof.
  intros Hfuel Hrec p Hok Hrem. unfold declaration.
  on_match; [now apply Hrec|].
  apply (post_safe true true m); [now apply varDeclaration_safe|side..].
Qed.

Lemma ifStatement_safe (m fuel : nat) (statement : M Stmt) :
  (m < fuel)%nat -> safe m true statement ->
  safe m true (ifStatement fuel statement).
Proof.
  intros Hfuel Hrec p Hok Hrem. unfold ifStatement.
  next; [next|]. specialize (H1 eq_refl).
  next; [by_expression m|].
  next; [next|].
  next; [apply (post_safe true true m); auto; side|].
  on_match; [next|].
  next; [apply (post_safe true true m); auto; side|]. next.
Qed.

Lemma whileStatement_safe (m fuel : nat) (statement : M Stmt) :
  (m < fuel)%nat -> safe m true statement ->
  safe m true (whileStatement fuel statement).
Proof.
  intros Hfuel Hrec p Hok Hrem. unfold whileStatement.
  next; [next|]. specialize (H1 eq_refl).
  next; [by_expression m|].
  next; [next|].
  next; [apply (post_safe true true m); auto; side|]. next.
Qed.

Lemma block_loop_safe (declaration : M Stmt) (k : nat) :
  forall (statements : list Stmt) (p : Parser),
    cursor_ok p -> (remaining p < k)%nat ->
    safe (remaining p) true declaration ->
    post false p (block_loop k declaration statements p).
Proof.
  induction k as [|k IH]; intros statements p Hok Hrem Hd; [lia|].
  cbn [block_loop].
  destruct (negb (check RIGHT_BRACE p) && negb (isAtEnd p)); [|next].
  eapply (post_bind false true).
  - now apply Hd.
  - intros s p1 Hok1 Hl1 Hs1. specialize (Hs1 eq_refl).
    apply (post_lift false false p p1); [side| |discriminate].
    apply IH; [side|side|]. apply (safe_mono (remaining p)); [side|auto].
Qed.

Lemma block_safe (m fuel : nat) (statement : M Stmt) :
  (m < fuel)%nat -> safe m true statement ->
  safe m true (block fuel statement).
Proof.
  intros Hfuel Hrec p Hok Hrem. unfold block.
  eapply (post_bind true false).
  - apply block_loop_safe; [auto|lia|].
    apply (safe_mono m); [auto|]. now apply declaration_safe.
  - intros ss p1 Hok1 Hl1 _. next; [next|]. next.
Qed.

Lemma statement_body_safe (m fuel : nat) (statement : M Stmt) :
  (S m < fuel)%nat -> safe m true statement ->
  safe (S m) true (statement_body fuel statement).
Proof.
  intros Hfuel Hrec p Hok Hrem. unfold statement_body.
  on_match.
  2:{ apply (post_safe true true m);
        [now apply ifStatement_safe; [lia|]|side..]. }
  on_match.
  2:{ apply (post_safe true true m);
        [now apply whileStatement_safe; [lia|]|side..]. }
  on_match.
  2:{ apply (post_safe true true m);
        [apply printStatement_safe; lia|side..]. }
  on_match.
  2:{ apply (post_safe true true m);
        [apply returnStatement_safe; lia|side..]. }
  on_match.
  2:{ next;
        [apply (post_safe true true m); [now apply block_safe; [lia|]|side..]
        |next]. }
  apply (expressionStatement_safe (S m) fuel); auto.
Qed.

Lemma statement_safe (fuel : nat) :
  forall m, (m < fuel)%nat -> safe m true (statement fuel).
Proof.
  induction fuel as [|fuel IH]; intros m Hm; [lia|].
  destruct m as [|m].
  - intros p Hok Hrem. pose proof (remaining_pos p Hok). lia.
  - cbn [statement]. apply statement_body_safe; [lia|]. apply IH. lia.
Qed.

Lemma declaration_top_safe (fuel m : nat) :
  (m < fuel)%nat -> safe m true (declaration fuel (statement fuel)).
Proof.
  intros Hm. apply declaration_safe; [auto|]. now apply statement_safe.
Qed.


(** *** [synchronize] and [parse] *)

Lemma synchronize_loop_step (k : nat) (p : Parser) :
  synchronize_loop (S k) p =
  if sync_point p then Some p else synchronize_loop k (advance p).
Proof.
  unfold sync_point. cbn [synchronize_loop].
  destruct (isAtEnd p); [reflexivity|].
  destruct (bool_decide (type (previous p) = SEMICOLON)); [reflexivity|].
  destruct (type (peek p)); reflexivity.
Qed.

Lemma at_cursor_current (p : Parser) : at_cursor p (current p) = p.
Proof. now destruct p. Qed.

Lemma sync_point_not_at_end (p : Parser) :
  sync_point p = false -> isAtEnd p = false.
Proof. unfold sync_point. now destruct (isAtEnd p). Qed.

Lemma synchronize_loop_spec (k : nat) :
  forall p : Parser,
    cursor_ok p -> (remaining p < k)%nat ->
    exists p',
      synchronize_loop k p = Some p' /\ cursor_ok p' /\ later p p'
      /\ diagnostics p' = diagnostics p /\ sync_point p' = true
      /\ forall i, (current p <= i < current p')%nat ->
                   sync_point (at_cursor p i) = false.
Proof.
  induction k as [|k IH]; intros p Hok Hrem; [lia|].
  rewrite synchronize_loop_step. destruct (sync_point p) eqn:Hsp.
  - exists p. repeat split; auto; try apply later_refl; try apply Hok. lia.
  - pose proof (advance_stepped p Hok (sync_point_not_at_end p Hsp)) as Hst.
    destruct (IH (advance p)) as (p' & Hr & Hok' & Hl & Hd & Hs & Hskip);
      [side|side|].
    exists p'. split; [exact Hr|]. split; [exact Hok'|].
    split; [apply (later_trans _ (advance p)); [now apply stepped_later|auto]|].
    destruct Hst as (_ & Ht & Hf & Hdg & Hc).
    split; [congruence|]. split; [exact Hs|].
    intros i Hi. destruct (decide (i = current p)) as [->|Hne].
    + now rewrite at_cursor_current.
    + specialize (Hskip i ltac:(lia)).
      unfold at_cursor in *. now rewrite Ht, Hf, Hdg in Hskip.
Qed.

(** [synchronize] where a statement failed. *)
Lemma synchronize_spec (fuel : nat) (p : Parser) :
  cursor_ok p -> (remaining p < fuel)%nat ->
  exists p',
    synchronize fuel p = Some p' /\ cursor_ok p' /\ later p p'
    /\ diagnostics p' = diagnostics p /\ sync_point p' = true
    /\ (current (advance p) <= current p')%nat
    /\ forall i, (current (advance p) <= i < current p')%nat ->
                 sync_point (at_cursor p i) = false.
Proof.
  intros Hok Hrem. unfold synchronize.
  destruct (isAtEnd p) eqn:He.
  - rewrite (advance_at_end p He).
    destruct (synchronize_loop_spec fuel p Hok Hrem)
      as (p' & Hr & Hok' & Hl & Hd & Hs & Hskip).
    exists p'. repeat split; auto; try apply Hok'; apply Hl.
  - pose proof (advance_stepped p Hok He) as Hst.
    destruct (synchronize_loop_spec fuel (advance p)) as
      (p' & Hr & Hok' & Hl & Hd & Hs & Hskip); [side|side|].
    exists p'. split; [exact Hr|]. split; [exact Hok'|].
    split; [apply (later_trans _ (advance p)); [now apply stepped_later|auto]|].
    destruct Hst as (_ & Ht & Hf & Hdg & Hc).
    split; [congruence|]. split; [exact Hs|]. split; [apply Hl|].
    intros i Hi. specialize (Hskip i Hi).
    unfold at_cursor in *. now rewrite Ht, Hf, Hdg in Hskip.
Qed.

Lemma isAtEnd_same (p q : Parser) :
  tokens q = tokens p -> current q = current p -> isAtEnd q = isAtEnd p.
Proof. intros Ht Hc. unfold isAtEnd, peek. now rewrite Ht, Hc. Qed.

Lemma parse_loop_total (fuel k : nat) :
  forall (statements : list Stmt) (p : Parser),
    cursor_ok p -> (remaining p < k)%nat -> (length (tokens p) < fuel)%nat ->
    exists statements' p',
      parse_loop k fuel statements p = Some (statements', p')
      /\ cursor_ok p' /\ later p p' /\ isAtEnd p' = true.
Proof.
  induction k as [|k IH]; intros statements p Hok Hrem Hfuel; [lia|].
  cbn [parse_loop]. destruct (isAtEnd p) eqn:He.
  - exists statements, p. repeat split; auto; try apply Hok; apply later_refl.
  - destruct (declaration_top_safe fuel (remaining p) ltac:(unfold remaining; lia)
                p Hok (Nat.le_refl _))
      as (res & p1 & Hr & Hok1 & Hl1 & Hw).
    rewrite Hr. destruct res as [s|e].
    + specialize (Hw eq_refl).
      destruct (IH (statements ++ [s])%list p1) as (ss & p' & Hp & Hok' & Hl' & He');
        [side|side|side|].
      exists ss, p'. repeat split; auto; try apply Hok'.
      all: apply (later_trans _ p1 _ Hl1 Hl').
    + destruct (synchronize_spec fuel p1) as
        (p2 & Hs & Hok2 & Hl2 & Hd2 & Hsp & Hadv & _); [side|side|].
      rewrite Hs.
      assert (Hlt : (current p < current p2)%nat).
      { destruct (isAtEnd p1) eqn:He1.
        - destruct (decide (current p1 = current p)) as [Heq|Hne]; [|side].
          rewrite (isAtEnd_same p p1) in He1; [congruence|apply Hl1|auto].
        - pose proof (advance_stepped p1 Hok1 He1). side. }
      destruct (IH statements p2) as (ss & p' & Hp & Hok' & Hl' & He');
        [side|side|side|].
      exists ss, p'. repeat split; auto; try apply Hok'.
      all: apply (later_trans _ p2 _ (later_trans _ p1 _ Hl1 Hl2) Hl').
Qed.


Lemma start_ok (toks : list Token) (file : string) :
  ends_with_eof toks = true -> cursor_ok (Parser_new toks file).
Proof.
  intros H. split; [exact H|]. cbn [current tokens Parser_new].
  destruct toks; [discriminate|]. simpl. lia.
Qed.

(** X1 (the first half of C3).  [parse] returns.  For every token vector that ends with the end-of-file
    token, the recursion bound of the model is never reached: [parse] gives
    back statements with the cursor on an end-of-file token, inside the
    vector, and no exception leaves it. *)
Theorem parse_total (toks : list Token) (file : string) :
  ends_with_eof toks = true ->
  exists statements p',
    parse (Parser_new toks file) = Some (statements, p')
    /\ tokens p' = toks /\ (current p' < length toks)%nat
    /\ isAtEnd p' = true.
Proof.
  intros H. pose proof (start_ok toks file H) as Hok.
  destruct (parse_loop_total (fuel_for (Parser_new toks file))
              (fuel_for (Parser_new toks file)) [] (Parser_new toks file) Hok)
    as (ss & p' & Hp & Hok' & Hl & He);
    [unfold fuel_for, remaining; simpl; lia|unfold fuel_for; lia|].
  exists ss, p'. split; [exact Hp|]. destruct Hl as (Ht & _).
  cbn [tokens Parser_new] in Ht. split; [exact Ht|]. split; [|exact He].
  destruct Hok' as [_ Hc]. now rewrite Ht in Hc.
Qed.

Lemma parse_total_witness :
  ends_with_eof [tok RIGHT_PAREN ")"; semi; ident "x"; semi; eof] = true
  /\ exists statements p',
       parse (Parser_new [tok RIGHT_PAREN ")"; semi; ident "x"; semi; eof] "script")
         = Some (statements, p')
       /\ tokens p' = [tok RIGHT_PAREN ")"; semi; ident "x"; semi; eof]
       /\ (current p' < length [tok RIGHT_PAREN ")"; semi; ident "x"; semi; eof])%nat
       /\ isAtEnd p' = true.
Proof.
  split; [reflexivity|].
  apply (parse_total [tok RIGHT_PAREN ")"; semi; ident "x"; semi; eof] "script").
  reflexivity.
Defined.

(** X2 (the second half of C3, for the parser's own [ParseError]).  A
    statement that fails is caught and recovered from.  Where
    [declaration] throws inside [parse]'s loop: if what it throws is a
    [ParseError], a diagnostic has been reported since the statement began;
    [synchronize] then returns, having advanced one token (none at the end)
    and skipped on to the first cursor position that is at the end, just after
    a [;], or before a token that starts a statement, reporting nothing; and
    the loop goes on from there, later in the vector than the statement
    began. *)
Theorem statement_failure_recovery (p p1 : Parser) (e : exception) :
  cursor_ok p -> isAtEnd p = false ->
  declaration (fuel_for p) (statement (fuel_for p)) p = Some (Throw e, p1) ->
  (forall what, e = ParseError what ->
                (length (diagnostics p) < length (diagnostics p1))%nat)
  /\ exists p2,
       synchronize (fuel_for p) p1 = Some p2
       /\ sync_point p2 = true
       /\ (current (advance p1) <= current p2)%nat
       /\ (forall i, (current (advance p1) <= i < current p2)%nat ->
                     sync_point (at_cursor p1 i) = false)
       /\ diagnostics p2 = diagnostics p1
       /\ (current p < current p2)%nat
       /\ forall k statements,
            parse_loop (S k) (fuel_for p) statements p =
            parse_loop k (fuel_for p) statements p2.
Proof.
  intros Hok He Hd.
  destruct (declaration_top_safe (fuel_for p) (remaining p)
              ltac:(unfold fuel_for, remaining; lia) p Hok (Nat.le_refl _))
    as (res & q & Hr & Hok1 & Hl1 & Hw).
  rewrite Hd in Hr. injection Hr as <- <-.
  split; [intros what ->; exact Hw|].
  destruct (synchronize_spec (fuel_for p) p1 Hok1) as
    (p2 & Hs & Hok2 & Hl2 & Hd2 & Hsp & Hadv & Hskip);
    [unfold fuel_for; side|].
  exists p2. do 5 (split; [assumption|]).
  assert (Hlt : (current p < current p2)%nat).
  { destruct (isAtEnd p1) eqn:He1.
    - destruct (decide (current p1 = current p)) as [Heq|Hne]; [|side].
      rewrite (isAtEnd_same p p1) in He1; [congruence|apply Hl1|auto].
    - pose proof (advance_stepped p1 Hok1 He1). side. }
  split; [exact Hlt|].
  intros k statements. cbn [parse_loop]. now rewrite He, Hd, Hs.
Qed.


(** [) ;]: the statement fails on the [)] with a diagnostic, and
    [synchronize] stops after the [;]. *)
Lemma statement_failure_recovery_witness :
  exists p2,
    synchronize 4
      (report (mkDiagnostic ERROR "Expect expression. at ')'"
                 (mkLocation "script" 1 0))
         (Parser_new prog_stray_paren "script")) = Some p2
    /\ sync_point p2 = true /\ current p2 = 2%nat.
Proof.
  destruct (statement_failure_recovery
              (Parser_new prog_stray_paren "script")
              (report (mkDiagnostic ERROR "Expect expression. at ')'"
                         (mkLocation "script" 1 0))
                 (Parser_new prog_stray_paren "script"))
              (ParseError "Expect expression."))
    as (_ & p2 & Hs & Hsp & _).
  - split; [reflexivity|simpl; lia].
  - reflexivity.
  - vm_compute. reflexivity.
  - exists p2. split; [exact Hs|]. split; [exact Hsp|].
    vm_compute in Hs. now injection Hs as <-.
Defined.

End ParserFacts.

(** ** The parser on tokens that are known *)

Module ParserRuns.
Import Parser ParserSpec.

Lemma nth_hd_skipn {A} (i : nat) (l : list A) (d : A) :
  nth i l d = hd d (skipn i l).
Proof.
  revert l. induction i as [|i IH]; intros [|x l]; simpl; auto.
Qed.

Lemma skipn_S_tl {A} (i : nat) (l : list A) : skipn (S i) l = tl (skipn i l).
Proof.
  revert l. induction i as [|i IH]; intros [|x l]; simpl; auto.
Qed.

Lemma peek_rest (p : Parser) (t : Token) (l : list Token) :
  rest p = t :: l -> peek p = t.
Proof. unfold rest, peek. intros H. now rewrite nth_hd_skipn, H. Qed.

Lemma not_at_end (p : Parser) (t : Token) (l : list Token) :
  rest p = t :: l -> type t <> END_OF_FILE -> isAtEnd p = false.
Proof.
  intros H Ht. unfold isAtEnd. rewrite (peek_rest p t l H).
  now apply bool_decide_eq_false.
Qed.

(** What [advance] leaves, the token under the cursor not being the end. *)
Lemma advance_rest (p : Parser) (t : Token) (l : list Token) :
  rest p = t :: l -> type t <> END_OF_FILE ->
  rest (advance p) = l /\ previous (advance p) = t
  /\ tokens (advance p) = tokens p /\ filename (advance p) = filename p
  /\ diagnostics (advance p) = diagnostics p.
Proof.
  intros H Ht. unfold advance. rewrite (not_at_end p t l H Ht).
  unfold rest, previous in *. cbn [current tokens filename diagnostics].
  rewrite skipn_S_tl, H. cbn [Nat.pred]. rewrite nth_hd_skipn, H. auto.
Qed.

Lemma check_hit (ty : TokenType) (p : Parser) (t : Token) (l : list Token) :
  rest p = t :: l -> type t = ty -> ty <> END_OF_FILE -> check ty p = true.
Proof.
  intros H Ht Hne. unfold check. rewrite (not_at_end p t l H) by congruence.
  rewrite (peek_rest p t l H). now apply bool_decide_eq_true.
Qed.

Lemma check_miss (ty : TokenType) (p : Parser) (t : Token) (l : list Token) :
  rest p = t :: l -> type t <> ty -> check ty p = false.
Proof.
  intros H Ht. unfold check. destruct (isAtEnd p); [reflexivity|].
  rewrite (peek_rest p t l H). now apply bool_decide_eq_false.
Qed.

Lemma match_hit (ty : TokenType) (p : Parser) (t : Token) (l : list Token) :
  rest p = t :: l -> type t = ty -> ty <> END_OF_FILE ->
  match_ ty p = (true, advance p).
Proof. intros H Ht Hne. unfold match_. now rewrite (check_hit ty p t l). Qed.

Lemma match_miss (ty : TokenType) (p : Parser) (t : Token) (l : list Token) :
  rest p = t :: l -> type t <> ty -> match_ ty p = (false, p).
Proof. intros H Ht. unfold match_. now rewrite (check_miss ty p t l). Qed.

Lemma match_any_miss (tys : list TokenType) (p : Parser) (t : Token) (l : list Token) :
  rest p = t :: l -> ~ In (type t) tys -> match_any tys p = (false, p).
Proof.
  intros H Ht. induction tys as [|ty tys IH]; [reflexivity|].
  cbn [match_any]. rewrite (check_miss ty p t l H).
  - apply IH. intros Hin. apply Ht. now right.
  - intros Heq. apply Ht. now left.
Qed.

Lemma consume_hit (ty : TokenType) (msg : string) (p : Parser) (t : Token)
  (l : list Token) :
  rest p = t :: l -> type t = ty -> ty <> END_OF_FILE ->
  consume ty msg p = Some (Return t, advance p).
Proof.
  intros H Ht Hne. unfold consume. rewrite (check_hit ty p t l) by auto.
  destruct (advance_rest p t l H) as (_ & -> & _); congruence.
Qed.

(** The operators of the binary levels, [(] and [=]: none of them ends an
    expression. *)
Lemma ends_expression_quiet (ty : TokenType) :
  ends_expression ty = true ->
  ty <> LEFT_PAREN /\ ty <> EQUAL
  /\ ~ In ty [SLASH; STAR; PERCENT] /\ ~ In ty [MINUS; PLUS]
  /\ ~ In ty [GREATER; GREATER_EQUAL; LESS; LESS_EQUAL]
  /\ ~ In ty [BANG_EQUAL; EQUAL_EQUAL] /\ ~ In ty [AND] /\ ~ In ty [OR].
Proof.
  destruct ty; try discriminate; intros _; repeat split;
    try discriminate; simpl; intuition discriminate.
Qed.

Lemma binary_loop_quiet (k : nat) (ops : list TokenType) (operand : M Expr)
  (e : Expr) (p : Parser) (t : Token) (l : list Token) :
  rest p = t :: l -> ~ In (type t) ops ->
  binary_loop (S k) ops operand e p = Some (Return e, p).
Proof.
  intros H Ht. cbn [binary_loop]. now rewrite (match_any_miss ops p t l).
Qed.

Lemma level_through (k : nat) (ops : list TokenType) (operand : M Expr)
  (e : Expr) (p p' : Parser) (t : Token) (l : list Token) :
  operand p = Some (Return e, p') -> rest p' = t :: l -> ~ In (type t) ops ->
  (x <- operand ;; binary_loop (S k) ops operand x) p = Some (Return e, p').
Proof.
  intros Hop H Ht. unfold bind. rewrite Hop. now apply (binary_loop_quiet k ops _ e p' t l).
Qed.

(** An expression that [call] has read and that a closing token follows is
    the whole expression. *)
Lemma expression_through (fuel : nat) (e : Expr) (p p' : Parser)
  (t t' : Token) (l l' : list Token) :
  rest p = t :: l -> ~ In (type t) [BANG; MINUS] ->
  call (S fuel) (expression fuel) p = Some (Return e, p') ->
  rest p' = t' :: l' -> ends_expression (type t') = true ->
  expression (S fuel) p = Some (Return e, p').
Proof.
  intros H Ht Hcall H' Ht'.
  destruct (ends_expression_quiet _ Ht') as (Hp & Heq & H1 & H2 & H3 & H4 & H5 & H6).
  cbn [expression]. unfold assignment.
  assert (Hor : logicalOr (S fuel) (expression fuel) p = Some (Return e, p')).
  { unfold logicalOr, logicalAnd, equality, comparison, term, factor.
    repeat (apply (level_through _ _ _ e p p' t' l'); [|assumption|assumption]).
    unfold unary. cbn [unary_rec]. now rewrite (match_any_miss _ p t l). }
  unfold bind at 1. rewrite Hor. now rewrite (match_miss EQUAL p' t' l').
Qed.

Lemma primary_identifier (expression : M Expr) (p : Parser) (t : Token)
  (l : list Token) :
  rest p = t :: l -> type t = IDENTIFIER ->
  primary expression p = Some (Return (VariableExpr t), advance p).
Proof.
  intros H Ht. unfold primary.
  rewrite (match_miss FALSE p t l), (match_miss TRUE p t l),
    (match_miss NIL p t l) by (auto; congruence).
  rewrite (match_any_miss _ p t l) by (auto; rewrite Ht; simpl; intuition discriminate).
  rewrite (match_miss STRING_LITERAL p t l) by (auto; congruence).
  rewrite (match_hit IDENTIFIER p t l) by (auto; congruence).
  destruct (advance_rest p t l H) as (_ & -> & _); [congruence|reflexivity].
Qed.

(** [x] before a closing token is the expression [x]. *)
Lemma expression_identifier (fuel : nat) (p : Parser) (t t' : Token)
  (l : list Token) :
  rest p = t :: t' :: l -> type t = IDENTIFIER ->
  ends_expression (type t') = true ->
  expression (S (S fuel)) p = Some (Return (VariableExpr t), advance p).
Proof.
  intros H Ht Ht'.
  destruct (advance_rest p t _ H) as (Hr & _); [congruence|].
  apply (expression_through _ _ p _ t t' (t' :: l) l); auto.
  - rewrite Ht. simpl. intuition discriminate.
  - unfold call, bind. rewrite (primary_identifier _ p t _ H Ht).
    cbn [call_loop]. rewrite (match_miss LEFT_PAREN _ t' l); auto.
    now destruct (ends_expression_quiet _ Ht').
Qed.


Lemma excess_one (a : nat) :
  excess a 1 = if (255 <=? a)%nat then 1%nat else 0%nat.
Proof. unfold excess. destruct (Nat.leb_spec 255 a); lia. Qed.

Lemma excess_succ (a m : nat) :
  excess a (S m) = (excess a 1 + excess (S a) m)%nat.
Proof. unfold excess. lia. Qed.

(** The check of [finishCall] before an argument [x]: a diagnostic when 255
    arguments or more are there already, and nothing else changes. *)
Lemma limit_check (arguments : list Expr) (p : Parser) (l : list Token) :
  rest p = ident "x" :: l ->
  let p1 :=
    if (255 <=? length arguments)%nat
    then snd (error (peek p) "Cannot have more than 255 arguments." p)
    else p in
  rest p1 = rest p /\ tokens p1 = tokens p /\ filename p1 = filename p
  /\ diagnostics p1 =
     (diagnostics p ++ repeat (too_many (filename p)) (excess (length arguments) 1))%list.
Proof.
  intros H. rewrite excess_one, (peek_rest p _ _ H).
  destruct (255 <=? length arguments)%nat; cbn [repeat].
  - repeat split; reflexivity.
  - rewrite app_nil_r. auto.
Qed.

(** The loop of [finishCall] over [x, ..., x)]: every argument is read,
    those beyond the 255th with a diagnostic each. *)
Lemma arguments_loop_args (fuel n : nat) :
  forall (k : nat) (arguments : list Expr) (p : Parser) (l : list Token),
    (n < k)%nat ->
    rest p = ident "x" :: (more_args n ++ tok RIGHT_PAREN ")" :: l)%list ->
    exists p',
      arguments_loop k (expression (S (S fuel))) arguments p =
        Some (Return (arguments ++ repeat (VariableExpr (ident "x")) (S n))%list, p')
      /\ rest p' = tok RIGHT_PAREN ")" :: l
      /\ tokens p' = tokens p /\ filename p' = filename p
      /\ diagnostics p' =
         (diagnostics p
          ++ repeat (too_many (filename p)) (excess (length arguments) (S n)))%list.
Proof.
  induction n as [|n IH]; intros k arguments p l Hk H;
    (destruct k as [|k]; [lia|]); cbn [arguments_loop];
    destruct (limit_check arguments p _ H) as (Hr1 & Ht1 & Hf1 & Hd1);
    cbv zeta in Hr1, Ht1, Hf1, Hd1;
    set (p1 := if (255 <=? length arguments)%nat then _ else p) in *;
    clearbody p1; rewrite H in Hr1; cbn [more_args app] in Hr1;
    (destruct (advance_rest p1 _ _ Hr1) as (Ha & _ & Hta & Hfa & Hda);
       [discriminate|]);
    unfold bind at 1;
    rewrite (expression_identifier fuel p1 _ _ _ Hr1 eq_refl eq_refl).
  - rewrite (match_miss COMMA _ _ _ Ha) by discriminate.
    exists (advance p1). repeat split; auto; congruence.
  - rewrite (match_hit COMMA _ _ _ Ha) by (auto; discriminate).
    destruct (advance_rest (advance p1) _ _ Ha) as (Hb & _ & Htb & Hfb & Hdb);
      [discriminate|].
    destruct (IH k (arguments ++ [VariableExpr (ident "x")])%list
                (advance (advance p1)) l ltac:(lia) Hb)
      as (p' & Hrun & Hr' & Ht' & Hf' & Hd').
    exists p'. split.
    + rewrite Hrun. now rewrite <- app_assoc.
    + split; [exact Hr'|]. split; [congruence|]. split; [congruence|].
      rewrite Hd', Hdb, Hda, Hd1, Hfb, Hfa, Hf1, <- app_assoc, <- repeat_app.
      rewrite length_app. cbn [length].
      rewrite (excess_succ (length arguments) (S n)).
      now rewrite Nat.add_1_r.
Qed.


(** [f(x, ..., x);] as a statement. *)
Lemma call_statement (fuel n : nat) (p : Parser) (l : list Token) :
  (n < fuel)%nat ->
  rest p = ident "f" :: tok LEFT_PAREN "(" :: ident "x" ::
           (more_args n ++ tok RIGHT_PAREN ")" :: semi :: l)%list ->
  exists p',
    expressionStatement (S (S (S fuel))) p =
      Some (Return (ExpressionStmt
                      (CallExpr (VariableExpr (ident "f")) (tok RIGHT_PAREN ")")
                         (repeat (VariableExpr (ident "x")) (S n)))), p')
    /\ rest p' = l /\ tokens p' = tokens p /\ filename p' = filename p
    /\ diagnostics p' =
       (diagnostics p ++ repeat (too_many (filename p)) (S n - 255))%list.
Proof.
  intros Hn H.
  destruct (advance_rest p _ _ H) as (H1 & _ & Ht1 & Hf1 & Hd1); [discriminate|].
  set (p1 := advance p) in *.
  destruct (advance_rest p1 _ _ H1) as (H2 & _ & Ht2 & Hf2 & Hd2); [discriminate|].
  set (p2 := advance p1) in *.
  destruct (arguments_loop_args fuel n (S (S (S fuel))) [] p2 (semi :: l)
              ltac:(lia) H2) as (p3 & Hargs & H3 & Ht3 & Hf3 & Hd3).
  destruct (advance_rest p3 _ _ H3) as (H4 & _ & Ht4 & Hf4 & Hd4); [discriminate|].
  set (p4 := advance p3) in *.
  destruct (advance_rest p4 _ _ H4) as (H5 & _ & Ht5 & Hf5 & Hd5); [discriminate|].
  assert (Hcall :
    call (S (S (S fuel))) (expression (S (S fuel))) p =
      Some (Return (CallExpr (VariableExpr (ident "f")) (tok RIGHT_PAREN ")")
                      (repeat (VariableExpr (ident "x")) (S n))), p4)).
  { unfold call, bind at 1. rewrite (primary_identifier _ p _ _ H eq_refl).
    fold p1. cbn [call_loop].
    rewrite (match_hit LEFT_PAREN p1 _ _ H1) by (auto; discriminate). fold p2.
    unfold bind at 1, finishCall, bind at 1.
    rewrite (check_miss RIGHT_PAREN p2 _ _ H2) by discriminate. cbn [negb].
    rewrite Hargs. cbn [app]. unfold bind at 1.
    rewrite (consume_hit RIGHT_PAREN _ p3 _ _ H3) by (auto; discriminate).
    fold p4. unfold ret at 1.
    now rewrite (match_miss LEFT_PAREN p4 _ _ H4) by discriminate. }
  exists (advance p4). split.
  - unfold expressionStatement, bind at 1.
    rewrite (expression_through _ _ p p4 _ _ _ _ H ltac:(simpl; intuition discriminate)
               Hcall H4 eq_refl).
    unfold bind at 1.
    now rewrite (consume_hit SEMICOLON _ p4 _ _ H4) by (auto; discriminate).
  - split; [exact H5|]. split; [congruence|]. split; [congruence|].
    rewrite Hd5, Hd4, Hd3, Hd2, Hd1, Hf2, Hf1. unfold excess. cbn [length].
    now rewrite Nat.add_0_l, Nat.sub_0_r.
Qed.

(** [y;] as a statement. *)
Lemma identifier_statement (fuel : nat) (p : Parser) (t : Token) (l : list Token) :
  rest p = t :: semi :: l -> type t = IDENTIFIER ->
  expressionStatement (S (S fuel)) p =
    Some (Return (ExpressionStmt (VariableExpr t)), advance (advance p))
  /\ rest (advance (advance p)) = l
  /\ tokens (advance (advance p)) = tokens p
  /\ filename (advance (advance p)) = filename p
  /\ diagnostics (advance (advance p)) = diagnostics p.
Proof.
  intros H Ht.
  destruct (advance_rest p _ _ H) as (H1 & _ & Ht1 & Hf1 & Hd1); [congruence|].
  destruct (advance_rest _ _ _ H1) as (H2 & _ & Ht2 & Hf2 & Hd2); [discriminate|].
  split; [|repeat split; congruence].
  unfold expressionStatement, bind at 1.
  rewrite (expression_identifier fuel p _ _ _ H Ht eq_refl). unfold bind at 1.
  now rewrite (consume_hit SEMICOLON _ _ _ _ H1) by (auto; discriminate).
Qed.

(** A statement that an identifier starts is an expression statement. *)
Lemma declaration_identifier (fuel : nat) (p : Parser) (t : Token) (l : list Token) :
  rest p = t :: l -> type t = IDENTIFIER ->
  declaration (S fuel) (statement (S fuel)) p = expressionStatement (S fuel) p.
Proof.
  intros H Ht. unfold declaration.
  rewrite (match_miss VAR p t l) by (auto; congruence).
  cbn [statement]. unfold statement_body.
  now rewrite (match_miss IF p t l), (match_miss WHILE p t l),
    (match_miss PRINT p t l), (match_miss RETURN p t l),
    (match_miss LEFT_BRACE p t l) by (auto; congruence).
Qed.

Lemma more_args_length (n : nat) : length (more_args n) = (2 * n)%nat.
Proof. induction n as [|n IH]; simpl; [reflexivity|]. rewrite IH. lia. Qed.

Lemma rest_start (toks : list Token) (file : string) :
  rest (Parser_new toks file) = toks.
Proof. reflexivity. Qed.

(** C8.  A call with more than 255 arguments is parsed like any other: for
    every [n], the tokens of [f(x, ..., x); y;] with [n + 1] arguments give
    the call expression with all its [n + 1] arguments, then the statement
    that follows it, and the diagnostics are one "Cannot have more than 255
    arguments." for each argument beyond the 255th, none when there are 255
    or fewer. *)
Theorem too_many_arguments_not_fatal (n : nat) (file : string) :
  exists p',
    parse (Parser_new (call_program n) file) =
      Some ([ExpressionStmt
               (CallExpr (VariableExpr (ident "f")) (tok RIGHT_PAREN ")")
                  (repeat (VariableExpr (ident "x")) (S n)));
             ExpressionStmt (VariableExpr (ident "y"))], p')
    /\ diagnostics p' = repeat (too_many file) (S n - 255).
Proof.
  unfold parse, fuel_for. cbn [tokens Parser_new].
  set (p := Parser_new (call_program n) file).
  assert (Hlen : exists L, length (call_program n) = S (S (S (S L))) /\ (n < L)%nat).
  { exists (length (more_args n ++ [semi; ident "y"; semi; eof])%list).
    unfold call_program. cbn [length]. rewrite !length_app, more_args_length.
    cbn [length]. split; lia. }
  destruct Hlen as (L & -> & HL).
  assert (H : rest p = ident "f" :: tok LEFT_PAREN "(" :: ident "x" ::
                (more_args n ++ tok RIGHT_PAREN ")" :: semi :: [ident "y"; semi; eof])%list)
    by reflexivity.
  destruct (call_statement (S (S L)) n p _ ltac:(lia) H)
    as (p1 & Hs1 & H1 & Ht1 & Hf1 & Hd1).
  destruct (identifier_statement (S (S (S L))) p1 _ _ H1 eq_refl)
    as (Hs2 & H2 & Ht2 & Hf2 & Hd2).
  set (p2 := advance (advance p1)) in *.
  exists p2. split.
  - cbn [parse_loop].
    rewrite (not_at_end p _ _ H) by discriminate.
    rewrite (declaration_identifier _ p _ _ H eq_refl), Hs1.
    rewrite (not_at_end p1 _ _ H1) by discriminate.
    rewrite (declaration_identifier _ p1 _ _ H1 eq_refl), Hs2.
    unfold isAtEnd. now rewrite (peek_rest p2 _ _ H2).
  - now rewrite Hd2, Hd1.
Qed.

End ParserRuns.

(** ** What is written to the standard output *)

Module OutputFacts.
Import Interpreter.

Lemma writes_nothing_bind {A B} (m : I A) (f : A -> I B) :
  writes_nothing m -> (forall a, writes_nothing (f a)) ->
  writes_nothing (bind m f).
Proof.
  intros Hm Hf st. unfold bind. specialize (Hm st).
  destruct (m st) as [[a|e] st']; simpl in *; [|exact Hm].
  now rewrite Hf.
Qed.

Lemma writes_nothing_evaluate_by (m : I unit) :
  writes_nothing m -> writes_nothing (evaluate_by m).
Proof.
  intros Hm. unfold evaluate_by. apply writes_nothing_bind; [exact Hm|].
  intros _ st. reflexivity.
Qed.

Lemma writes_nothing_unary_op (op : TokenType) (v : Value) :
  writes_nothing (unary_op op v).
Proof. intros st. destruct op, v; reflexivity. Qed.

(** An expression that reaches no call of [print] writes nothing. *)
Lemma accept_writes_nothing (e : Expr) :
  calls_print e = false -> writes_nothing (accept e).
Proof.
  induction e as [v|op r IHr|l IHl op r IHr|e IHe|name|name v IHv|callee _ paren args];
    cbn [calls_print accept]; intros H.
  - intros st. reflexivity.
  - apply writes_nothing_bind;
      [now apply writes_nothing_evaluate_by, IHr|apply writes_nothing_unary_op].
  - apply orb_false_elim in H as [Hl Hr].
    apply writes_nothing_bind; [now apply writes_nothing_evaluate_by, IHl|].
    intros lv. apply writes_nothing_bind; [now apply writes_nothing_evaluate_by, IHr|].
    intros rv st. now destruct (binary_op (type op) lv rv).
  - apply writes_nothing_bind; [now apply writes_nothing_evaluate_by, IHe|].
    intros v st. reflexivity.
  - intros st. now destruct (variables st !! lexeme name).
  - apply writes_nothing_bind; [now apply writes_nothing_evaluate_by, IHv|].
    intros v'. apply writes_nothing_bind;
      [intros st; reflexivity|intros ? st; reflexivity].
  - destruct callee; try (intros st; reflexivity).
    rewrite H. intros st. reflexivity.
Qed.

(** An expression statement writes what evaluating its expression writes. *)
Lemma execute_expression_output (e : Expr) (st : Interpreter) :
  cout (snd (execute (ExpressionStmt e) st)) = cout (snd (accept e st)).
Proof.
  cbn [execute]. unfold evaluate, evaluate_by, bind.
  now destruct (accept e st) as [[[]|ex] st'].
Qed.

Lemma evaluate_output (e : Expr) (st : Interpreter) :
  cout (snd (evaluate e st)) = cout (snd (accept e st)).
Proof.
  unfold evaluate, evaluate_by, bind.
  now destruct (accept e st) as [[[]|ex] st'].
Qed.

End OutputFacts.

(** ** Whole programs: tokens parsed, statements interpreted *)

Module Programs.

(** C1, on the code.  The operator [+] does join a string and an [int],
    either way round, the [int] in decimal; but an integer literal reaches
    the interpreter as a [double] ([Parser::primary] converts the lexeme of an
    [INTEGER_LITERAL] with [std::stod]), so the programs ["a" + 1;] and
    [1 + "a";] throw "Invalid operands to +". *)
Theorem string_plus_integer_literal :
  (forall s n, Interpreter.binary_op PLUS (VString s) (VInt n)
               = Return (VString (s ++ to_string n)%string))
  /\ (forall n s, Interpreter.binary_op PLUS (VInt n) (VString s)
                  = Return (VString (to_string n ++ s)%string))
  /\ Interpreter.binary_op PLUS (VString "a") (VInt 1) = Return (VString "a1")
  /\ Interpreter.binary_op PLUS (VInt 1) (VString "a") = Return (VString "1a")
  /\ parsed prog_string_plus_int =
       Some [ExpressionStmt
               (BinaryExpr (LiteralExpr (VString "a")) (tok PLUS "+")
                  (LiteralExpr (VDouble 1)))]
  /\ (fst ∘ snd) <$> run prog_string_plus_int
     = Some (Throw (runtime_error "Invalid operands to +"))
  /\ (fst ∘ snd) <$> run prog_int_plus_string
     = Some (Throw (runtime_error "Invalid operands to +")).
Proof. repeat split; vm_compute; reflexivity. Qed.

(** C3, on the code.  A statement made of an integer literal too large for a
    [double] fails inside [std::stod] with [std::out_of_range]; [parse]
    catches it and recovers, the statement is dropped, and no diagnostic is
    reported, whereas a statement that a stray [)] breaks is dropped with
    one. *)
Theorem overflowing_literal_dropped_silently :
  stod huge_literal = inl (out_of_range "stod")
  /\ fst <$> Parser.declaration 4 (Parser.statement 4)
               (Parser.Parser_new prog_huge_literal "script")
     = Some (Throw (out_of_range "stod"))
  /\ parse_outcome prog_huge_literal = Some ([], [])
  /\ parse_outcome prog_stray_paren
     = Some ([], [mkDiagnostic ERROR "Expect expression. at ')'"
                    (mkLocation "script" 1 0)]).
Proof. repeat split; vm_compute; reflexivity. Qed.

(** C5.  [/] throws "Division by zero" exactly when the operands are
    numeric of one kind and the right one is the zero of the kind, "Invalid
    operands to /" exactly when they are not numeric of one kind; it returns
    exactly when they are numeric of one kind, the right one is not zero and
    they are not the [int]s -2^31 and -1, whose quotient is no [int]: there
    the division traps, which is neither a return nor one of the two
    exceptions.  [10 / 0;] throws the former exception and [true / 1;] the
    latter. *)
Theorem division_faults (l r : Value) :
  (Interpreter.binary_op SLASH l r = Throw (runtime_error "Division by zero")
   <-> same_numeric l r = true /\ is_zero r = true)
  /\ (Interpreter.binary_op SLASH l r = Throw (runtime_error "Invalid operands to /")
      <-> same_numeric l r = false)
  /\ ((exists v, Interpreter.binary_op SLASH l r = Return v)
      <-> same_numeric l r = true /\ is_zero r = false
          /\ quotient_overflows l r = false)
  /\ (Interpreter.binary_op SLASH l r = Throw (trap "SIGFPE")
      <-> quotient_overflows l r = true)
  /\ (fst ∘ snd) <$> run prog_ten_by_zero
     = Some (Throw (runtime_error "Division by zero"))
  /\ (fst ∘ snd) <$> run prog_true_by_one
     = Some (Throw (runtime_error "Invalid operands to /")).
Proof.
  split; [|split; [|split; [|split; [|split; vm_compute; reflexivity]]]].
  - destruct l as [a|a|a|a|], r as [b|b|b|b|]; simpl;
      try (split; [discriminate|intros [? ?]; discriminate]).
    + unfold int_div.
      destruct (b =? 0); [|destruct ((a =? -2147483648) && (b =? -1))];
        split; try discriminate; auto; intros [_ ?]; discriminate.
    + destruct (b =? 0)%float; split; try discriminate; auto;
        intros [_ ?]; discriminate.
  - destruct l as [a|a|a|a|], r as [b|b|b|b|]; simpl;
      try (split; reflexivity); try (split; discriminate).
    + unfold int_div.
      destruct (b =? 0); [|destruct ((a =? -2147483648) && (b =? -1))];
        split; discriminate.
    + destruct (b =? 0)%float; split; discriminate.
  - destruct l as [a|a|a|a|], r as [b|b|b|b|]; simpl;
      try (split; [intros [? ?]; discriminate|intros (? & ? & ?); discriminate]).
    + unfold int_div.
      destruct (b =? 0); [|destruct ((a =? -2147483648) && (b =? -1))];
        split; try (intros [? ?]; discriminate);
        try (intros (? & ? & ?); discriminate); eauto.
    + destruct (b =? 0)%float; split; try (intros [? ?]; discriminate);
        try (intros (? & ? & ?); discriminate); eauto.
  - destruct l as [a|a|a|a|], r as [b|b|b|b|]; simpl;
      try (split; discriminate).
    + unfold int_div. destruct (b =? 0) eqn:Eb.
      * apply Z.eqb_eq in Eb. subst b. rewrite andb_false_r.
        split; discriminate.
      * destruct ((a =? -2147483648) && (b =? -1)); split;
          try discriminate; reflexivity.
    + destruct (b =? 0)%float; split; discriminate.
Qed.


(** C6.  The multiplicative operators bind tighter than the additive ones:
    [a + b * c] is parsed as [a + (b * c)] and [a * b + c] as [(a * b) + c],
    whichever additive and multiplicative operators stand there; and
    [1 + 2 * 3;] is parsed so and evaluates to 7 (the [double] 7, as every
    numeric literal is a [double]). *)
Theorem multiplicative_binds_tighter (a b c : string) (add mul : TokenType) :
  In add [PLUS; MINUS] -> In mul [STAR; SLASH; PERCENT] ->
  parsed (prog_add_mul a b c add mul) =
    Some [ExpressionStmt
            (BinaryExpr (VariableExpr (ident a)) (tok add "")
               (BinaryExpr (VariableExpr (ident b)) (tok mul "")
                  (VariableExpr (ident c))))]
  /\ parsed (prog_mul_add a b c add mul) =
       Some [ExpressionStmt
               (BinaryExpr
                  (BinaryExpr (VariableExpr (ident a)) (tok mul "")
                     (VariableExpr (ident b)))
                  (tok add "") (VariableExpr (ident c)))]
  /\ parsed prog_precedence =
       Some [ExpressionStmt
               (BinaryExpr (LiteralExpr (VDouble 1)) (tok PLUS "+")
                  (BinaryExpr (LiteralExpr (VDouble 2)) (tok STAR "*")
                     (LiteralExpr (VDouble 3))))]
  /\ (fun r => (fst (snd r), Interpreter.lastValue (snd (snd r))))
       <$> run prog_precedence
     = Some (Return tt, VDouble 7).
Proof.
  intros Ha Hm.
  destruct Ha as [<-|[<-|[]]]; destruct Hm as [<-|[<-|[<-|[]]]];
    repeat split; vm_compute; reflexivity.
Qed.

Lemma multiplicative_binds_tighter_witness :
  parsed (prog_add_mul "a" "b" "c" MINUS SLASH) =
    Some [ExpressionStmt
            (BinaryExpr (VariableExpr (ident "a")) (tok MINUS "")
               (BinaryExpr (VariableExpr (ident "b")) (tok SLASH "")
                  (VariableExpr (ident "c"))))]
  /\ parsed (prog_mul_add "a" "b" "c" MINUS SLASH) =
       Some [ExpressionStmt
               (BinaryExpr
                  (BinaryExpr (VariableExpr (ident "a")) (tok SLASH "")
                     (VariableExpr (ident "b")))
                  (tok MINUS "") (VariableExpr (ident "c")))]
  /\ parsed prog_precedence =
       Some [ExpressionStmt
               (BinaryExpr (LiteralExpr (VDouble 1)) (tok PLUS "+")
                  (BinaryExpr (LiteralExpr (VDouble 2)) (tok STAR "*")
                     (LiteralExpr (VDouble 3))))]
  /\ (fun r => (fst (snd r), Interpreter.lastValue (snd (snd r))))
       <$> run prog_precedence
     = Some (Return tt, VDouble 7).
Proof.
  apply (multiplicative_binds_tighter "a" "b" "c" MINUS SLASH); simpl; tauto.
Defined.

(** C9.  [var x;] is parsed into a declaration without initializer;
    executing such a declaration binds the name to nil, whatever was there,
    and a read of the name then returns nil, straight away and after any
    statements that neither assign to the name nor declare it, whatever they
    evaluated last; the programs [var x; x;] and [var x; 1; x;] end without
    exception, their last value nil. *)
Theorem var_without_initializer_is_nil (x : string) (name : Token) (c : bool)
  (st : Interpreter.Interpreter) :
  parsed [tok VAR "var"; ident x; semi; eof]
    = Some [VarDeclStmt (ident x) None false]
  /\ Interpreter.execute (VarDeclStmt name None c) st =
       (Return tt,
        Interpreter.mkInterpreter
          (<[lexeme name := VNil]> (Interpreter.variables st)) VNil
          (Interpreter.cout st))
  /\ Interpreter.evaluate (VariableExpr name)
       (snd (Interpreter.execute (VarDeclStmt name None c) st))
     = (Return VNil, snd (Interpreter.execute (VarDeclStmt name None c) st))
  /\ (fun r => (fst (snd r), Interpreter.lastValue (snd (snd r))))
       <$> run (prog_var_nil x)
     = Some (Return tt, VNil)
  /\ (forall between r st3,
        existsb (binds_stmt (lexeme name)) between = false ->
        Interpreter.interpret between
          (snd (Interpreter.execute (VarDeclStmt name None c) st)) = (r, st3) ->
        Interpreter.evaluate (VariableExpr name) st3
        = (Return VNil,
           Interpreter.mkInterpreter (Interpreter.variables st3) VNil
             (Interpreter.cout st3)))
  /\ (fun r => (fst (snd r), Interpreter.lastValue (snd (snd r))))
       <$> run (prog_var_then_read x)
     = Some (Return tt, VNil).
Proof.
  split; [vm_compute; reflexivity|]. split; [reflexivity|]. split; [|split; [|split]].
  - cbn [Interpreter.execute Interpreter.bind Interpreter.ret Interpreter.store
         Interpreter.set_lastValue snd].
    rewrite (InterpreterFacts.evaluate_variable_bound name _ VNil); [reflexivity|].
    apply lookup_insert_eq.
  - unfold run. set (r := Parser.parse _). vm_compute in r. subst r.
    cbn [Interpreter.interpret Interpreter.execute Interpreter.bind
         Interpreter.ret Interpreter.store Interpreter.set_lastValue
         Interpreter.evaluate Interpreter.evaluate_by Interpreter.accept
         Interpreter.get_lastValue Interpreter.Interpreter_new
         Interpreter.variables Interpreter.lastValue Interpreter.cout
         fst snd fmap option_fmap option_map lexeme ident tok].
    unfold Interpreter.bind.
    rewrite (InterpreterFacts.evaluate_variable_bound _ _ VNil)
      by apply lookup_insert_eq.
    reflexivity.
  - intros between r st3 Hb Hrun.
    apply InterpreterFacts.evaluate_variable_bound.
    pose proof (InterpreterFacts.binding_interpret _ _ Hb
                  (snd (Interpreter.execute (VarDeclStmt name None c) st)))
      as Hkeep.
    rewrite Hrun in Hkeep. cbn [snd] in Hkeep. rewrite Hkeep.
    cbn [Interpreter.execute Interpreter.bind Interpreter.ret Interpreter.store
         Interpreter.set_lastValue snd Interpreter.variables].
    apply lookup_insert_eq.
  - unfold run. set (r := Parser.parse _). vm_compute in r. subst r.
    cbn [Interpreter.interpret Interpreter.execute Interpreter.bind
         Interpreter.ret Interpreter.store Interpreter.set_lastValue
         Interpreter.evaluate Interpreter.evaluate_by Interpreter.accept
         Interpreter.get_lastValue Interpreter.Interpreter_new
         Interpreter.variables Interpreter.lastValue Interpreter.cout
         fst snd fmap option_fmap option_map lexeme ident tok].
    unfold Interpreter.bind.
    cbn [Interpreter.set_lastValue Interpreter.get_lastValue
         Interpreter.variables Interpreter.lastValue Interpreter.cout fst snd].
    rewrite (InterpreterFacts.evaluate_variable_bound _ _ VNil)
      by apply lookup_insert_eq.
    reflexivity.
Qed.


(** C10, as the code has it.  A statement that starts with the print
    keyword is, when it parses, the expression statement of the expression
    that follows the keyword, and nothing stands for the keyword: executing
    it writes what evaluating that expression writes, which is nothing when
    the expression reaches no call of the built-in [print]. *)
Theorem print_keyword_statement (fuel : nat) (p p' : Parser.Parser) (s : Stmt) :
  Parser.check PRINT p = true ->
  Parser.statement fuel p = Some (Return s, p') ->
  exists e p1,
    Parser.expression fuel (Parser.advance p) = Some (Return e, p1)
    /\ s = ExpressionStmt e
    /\ forall st,
         Interpreter.cout (snd (Interpreter.execute s st))
         = Interpreter.cout (snd (Interpreter.evaluate e st))
         /\ (calls_print e = false ->
             Interpreter.cout (snd (Interpreter.execute s st))
             = Interpreter.cout st).
Proof.
  intros Hc Hs. destruct fuel as [|n]; [discriminate|].
  cbn [Parser.statement] in Hs. unfold Parser.statement_body in Hs.
  destruct (ParserFacts.check_true _ _ Hc) as [He Ht].
  assert (Hmiss : forall ty, ty <> PRINT -> Parser.match_ ty p = (false, p)).
  { intros ty Hty. unfold Parser.match_, Parser.check. rewrite He, Ht.
    rewrite bool_decide_eq_false_2; [reflexivity|congruence]. }
  rewrite (Hmiss IF), (Hmiss WHILE) in Hs by discriminate.
  unfold Parser.match_ at 1 in Hs. rewrite Hc in Hs.
  unfold Parser.printStatement, Parser.bind in Hs.
  destruct (Parser.expression (S n) (Parser.advance p)) as [[[e|ex] p1]|];
    try discriminate.
  destruct (Parser.consume SEMICOLON _ p1) as [[[t|ex] p2]|]; try discriminate.
  injection Hs as <- <-. exists e, p1. split; [reflexivity|]. split; [reflexivity|].
  intros st. rewrite OutputFacts.execute_expression_output,
    OutputFacts.evaluate_output. split; [reflexivity|].
  intros Hq. now apply OutputFacts.accept_writes_nothing.
Qed.

Lemma print_keyword_statement_witness :
  exists e p1,
    Parser.expression 5
      (Parser.advance (Parser.Parser_new (prog_print_keyword "x") "script"))
      = Some (Return e, p1)
    /\ ExpressionStmt (VariableExpr (ident "x")) = ExpressionStmt e
    /\ forall st,
         Interpreter.cout
           (snd (Interpreter.execute (ExpressionStmt (VariableExpr (ident "x"))) st))
         = Interpreter.cout (snd (Interpreter.evaluate e st))
         /\ (calls_print e = false ->
             Interpreter.cout
               (snd (Interpreter.execute
                       (ExpressionStmt (VariableExpr (ident "x"))) st))
             = Interpreter.cout st).
Proof.
  apply (print_keyword_statement 5
           (Parser.Parser_new (prog_print_keyword "x") "script")
           (Parser.mkParser (prog_print_keyword "x") "script" 3 [])).
  - reflexivity.
  - vm_compute. reflexivity.
Defined.

(** The claim fails where it says that such a statement writes nothing: the
    keyword followed by [print("x");] is parsed and run without exception,
    and writes [x]. *)
Lemma print_keyword_statement_writes :
  parsed prog_print_keyword_call =
    Some [ExpressionStmt
            (CallExpr (VariableExpr (ident "print")) (tok RIGHT_PAREN ")")
               [LiteralExpr (VString "x")])]
  /\ (fun r => (fst (snd r), Interpreter.cout (snd (snd r))))
       <$> run prog_print_keyword_call
     = Some (Return tt, [Interpreter.OutText "x"]).
Proof. split; vm_compute; reflexivity. Qed.

End Programs.

(** ** The interpreter: more facts *)

Module InterpreterMore.
Import Interpreter.

Lemma wrap32_in_range (z : Z) : in_range z = true -> wrap32 z = z.
Proof.
  unfold in_range, wrap32. intros H. apply andb_prop in H as [H1 H2].
  apply Z.leb_le in H1. apply Z.ltb_lt in H2.
  rewrite Z.mod_small; lia.
Qed.

(** X3.  No operator but [+] mixes kinds, and none converts: [-], [*], [<],
    [<=], [>] and [>=] return exactly when the operands are two [int]s or
    two [double]s, the arithmetic ones a value of the operands' kind and the
    comparisons a [bool], and otherwise throw "Invalid operands to" with the
    operator; [+] returns exactly on those kinds, two strings, or a string
    and an [int], and otherwise throws "Invalid operands to +". *)
Theorem numeric_operators_same_kind (op : TokenType) (l r : Value) :
  In op numeric_ops ->
  match binary_op op l r with
  | Return v =>
      same_numeric l r = true
      /\ index v = (if is_comparison op then 3%nat else index l)
  | Throw e =>
      same_numeric l r = false
      /\ e = runtime_error ("Invalid operands to " ++ op_symbol op)
  end
  /\ match binary_op PLUS l r with
     | Return v => plus_accepts l r = true
     | Throw e =>
         plus_accepts l r = false /\ e = runtime_error "Invalid operands to +"
     end.
Proof.
  intros Hop. split.
  - destruct Hop as [<-|[<-|[<-|[<-|[<-|[<-|[]]]]]]];
      destruct l, r; simpl; auto.
  - destruct l, r; simpl; auto.
Qed.

Lemma numeric_operators_same_kind_witness :
  match binary_op LESS (VInt 1) (VDouble 1) with
  | Return v =>
      same_numeric (VInt 1) (VDouble 1) = true
      /\ index v = (if is_comparison LESS then 3%nat else index (VInt 1))
  | Throw e =>
      same_numeric (VInt 1) (VDouble 1) = false
      /\ e = runtime_error ("Invalid operands to " ++ op_symbol LESS)
  end
  /\ match binary_op PLUS (VInt 1) (VDouble 1) with
     | Return v => plus_accepts (VInt 1) (VDouble 1) = true
     | Throw e =>
         plus_accepts (VInt 1) (VDouble 1) = false
         /\ e = runtime_error "Invalid operands to +"
     end.
Proof.
  apply (numeric_operators_same_kind LESS (VInt 1) (VDouble 1)).
  simpl. tauto.
Defined.

(** X4.  On [int]s the arithmetic is exact wherever the exact result fits
    in 32 bits: [+], [-] and [*] return the sum, the difference and the
    product, and [/] by a divisor other than 0 the quotient truncated toward
    zero. *)
Theorem int_arithmetic_exact (a b : Z) :
  (in_range (a + b) = true ->
   binary_op PLUS (VInt a) (VInt b) = Return (VInt (a + b)))
  /\ (in_range (a - b) = true ->
      binary_op MINUS (VInt a) (VInt b) = Return (VInt (a - b)))
  /\ (in_range (a * b) = true ->
      binary_op STAR (VInt a) (VInt b) = Return (VInt (a * b)))
  /\ (b <> 0 -> in_range (Z.quot a b) = true ->
      binary_op SLASH (VInt a) (VInt b) = Return (VInt (Z.quot a b))).
Proof.
  repeat split; simpl; unfold int_add, int_sub, int_mul, int_div.
  - intros H. now rewrite wrap32_in_range.
  - intros H. now rewrite wrap32_in_range.
  - intros H. now rewrite wrap32_in_range.
  - intros Hb H. apply Z.eqb_neq in Hb. rewrite Hb.
    destruct ((a =? -2147483648) && (b =? -1)) eqn:E; [|reflexivity].
    apply andb_prop in E as [Ea Eb%Z.eqb_eq]. apply Z.eqb_eq in Ea.
    subst a b. discriminate H.
Qed.

Lemma int_arithmetic_exact_witness :
  binary_op PLUS (VInt 2147483646) (VInt 1) = Return (VInt 2147483647)
  /\ binary_op SLASH (VInt (-7)) (VInt 2) = Return (VInt (-3)).
Proof.
  split.
  - apply (proj1 (int_arithmetic_exact 2147483646 1)). reflexivity.
  - apply (proj2 (proj2 (proj2 (int_arithmetic_exact (-7) 2)))); [lia|reflexivity].
Defined.

(** A binary expression whose operands evaluate: the operator applied to
    the two values, in the state the right operand left. *)
Lemma evaluate_binary (l r : Expr) (op : Token) (st st1 st2 : Interpreter)
  (lv rv : Value) :
  evaluate l st = (Return lv, st1) ->
  evaluate r st1 = (Return rv, st2) ->
  evaluate (BinaryExpr l op r) st =
  match binary_op (type op) lv rv with
  | Return v => (Return v, mkInterpreter (variables st2) v (cout st2))
  | Throw e => (Throw e, st2)
  end.
Proof.
  intros Hl Hr. unfold evaluate at 1. cbn [accept].
  fold (evaluate l). fold (evaluate r). unfold evaluate_by, bind.
  rewrite Hl, Hr. now destruct (binary_op (type op) lv rv).
Qed.

(** X5.  The operators [or], [and] and [%] are parsed into a [BinaryExpr]
    like the others, and evaluating one throws "Unknown binary operator",
    after both operands have been evaluated (there is no short circuit: what
    the operands did to the state stays done). *)
Theorem unknown_operators_fault (a b : string) (op : Token) (l r : Expr)
  (st st1 st2 : Interpreter) (lv rv : Value) :
  In (type op) unknown_ops ->
  evaluate l st = (Return lv, st1) ->
  evaluate r st1 = (Return rv, st2) ->
  evaluate (BinaryExpr l op r) st
    = (Throw (runtime_error "Unknown binary operator"), st2)
  /\ parsed (prog_binary a b (type op)) =
       Some [ExpressionStmt
               (BinaryExpr (VariableExpr (ident a)) (tok (type op) "")
                  (VariableExpr (ident b)))].
Proof.
  intros Hop Hl Hr. split.
  - rewrite (evaluate_binary l r op st st1 st2 lv rv Hl Hr).
    destruct Hop as [<-|[<-|[<-|[]]]]; reflexivity.
  - destruct Hop as [<-|[<-|[<-|[]]]]; vm_compute; reflexivity.
Qed.

Lemma unknown_operators_fault_witness :
  evaluate (BinaryExpr (AssignExpr (ident "x") (LiteralExpr (VBool true)))
              (tok OR "or") (LiteralExpr (VBool true))) Interpreter_new
    = (Throw (runtime_error "Unknown binary operator"),
       mkInterpreter (<["x" := VBool true]> ∅) (VBool true) [])
  /\ parsed (prog_binary "a" "b" (type (tok OR "or"))) =
       Some [ExpressionStmt
               (BinaryExpr (VariableExpr (ident "a")) (tok (type (tok OR "or")) "")
                  (VariableExpr (ident "b")))].
Proof.
  apply (unknown_operators_fault "a" "b" (tok OR "or")
           (AssignExpr (ident "x") (LiteralExpr (VBool true)))
           (LiteralExpr (VBool true)) Interpreter_new
           (mkInterpreter (<["x" := VBool true]> ∅) (VBool true) [])
           (mkInterpreter (<["x" := VBool true]> ∅) (VBool true) [])
           (VBool true) (VBool true)).
  - simpl. tauto.
  - reflexivity.
  - reflexivity.
Defined.


Lemma print_value_render (v : Value) : print_value v = write (render v).
Proof. now destruct v. Qed.

Lemma accept_print (var paren : Token) (args : list Expr) :
  lexeme var = "print" ->
  accept (CallExpr (VariableExpr var) paren args)
  = bind (print_all args) (fun _ => set_lastValue VNil).
Proof. intros H. cbn [accept]. now rewrite H. Qed.

(** X7.  A call of anything but the variable [print] throws at once:
    neither the callee nor an argument is evaluated, and the interpreter is
    left as it was. *)
Theorem unsupported_call_untouched (callee : Expr) (paren : Token)
  (args : list Expr) (st : Interpreter) :
  is_print callee = false ->
  evaluate (CallExpr callee paren args) st
    = (Throw (runtime_error "Only print() is supported as a built-in function"),
       st).
Proof.
  intros H. unfold evaluate, evaluate_by, bind. cbn [accept].
  destruct callee; try reflexivity. cbn [is_print] in H. now rewrite H.
Qed.

Lemma unsupported_call_untouched_witness :
  evaluate (CallExpr (VariableExpr (ident "f")) (tok RIGHT_PAREN ")")
              [AssignExpr (ident "x") (LiteralExpr (VInt 1))]) Interpreter_new
    = (Throw (runtime_error "Only print() is supported as a built-in function"),
       Interpreter_new).
Proof.
  apply (unsupported_call_untouched (VariableExpr (ident "f"))). reflexivity.
Defined.

Lemma execute_block (ss : list Stmt) (st : Interpreter) :
  execute (BlockStmt ss) st = interpret ss st.
Proof.
  cbn [execute]. revert st. induction ss as [|s ss IH]; intros st; [reflexivity|].
  cbn [interpret]. unfold bind. destruct (execute s st) as [[[]|e] st1]; auto.
Qed.

(** X8.  A block opens no scope: executing it is interpreting its statements
    in the same environment, so a block can be replaced by its statements
    where it stands, and what it declares or assigns stays bound after it. *)
Theorem block_is_transparent (ss rest : list Stmt) (st : Interpreter) :
  execute (BlockStmt ss) st = interpret ss st
  /\ interpret (BlockStmt ss :: rest) st = interpret (ss ++ rest) st.
Proof.
  split; [apply execute_block|].
  cbn [interpret]. unfold bind. rewrite execute_block.
  rewrite InterpreterFacts.interpret_app.
  now destruct (interpret ss st) as [[[]|e] st1].
Qed.

(** X9.  The [while], function and [return] statements do nothing at all:
    their condition, body or value is never evaluated, no exception is
    thrown, the statements after a [return] are still run; taking one out of
    a statement sequence changes nothing. *)
Theorem inert_statements (before after : list Stmt) (s : Stmt) (st : Interpreter) :
  inert s = true ->
  interpret (before ++ s :: after) st = interpret (before ++ after) st.
Proof.
  intros H. rewrite !InterpreterFacts.interpret_app.
  destruct (interpret before st) as [[[]|e] st1]; [|reflexivity].
  destruct s; try discriminate; reflexivity.
Qed.

Lemma inert_statements_witness :
  interpret ([] ++ ReturnStmt (tok RETURN "return")
                     (Some (VariableExpr (ident "undefined")))
                :: [print_call (VInt 1)]) Interpreter_new
  = interpret ([] ++ [print_call (VInt 1)]) Interpreter_new.
Proof.
  apply (inert_statements [] [print_call (VInt 1)]). reflexivity.
Defined.

(** X10.  An [if] evaluates its condition once and runs one branch at most,
    in the state the condition left: the [then] branch for [true] or an
    [int] other than 0, the [else] branch, or nothing when there is none,
    for [false] or the [int] 0; a condition of another kind (a [double], a
    string, nil) throws "Invalid condition in if statement" and neither
    branch is run; when the condition throws, so does the [if]. *)
Theorem if_statement_branches (c : Expr) (t : Stmt) (e : option Stmt)
  (st st1 : Interpreter) (r : result Value) :
  evaluate c st = (r, st1) ->
  execute (IfStmt c t e) st =
  match r with
  | Return v =>
      match truth v with
      | Some true => execute t st1
      | Some false =>
          match e with
          | Some s => execute s st1
          | None => (Return tt, st1)
          end
      | None => (Throw (runtime_error "Invalid condition in if statement"), st1)
      end
  | Throw x => (Throw x, st1)
  end.
Proof.
  intros H. cbn [execute]. unfold bind at 1. rewrite H.
  destruct r as [v|x]; [|reflexivity].
  destruct v as [n|d|s|b|]; cbn [truth]; unfold bind, ret, throw;
    try reflexivity.
  - destruct (n =? 0), e; reflexivity.
  - destruct b, e; reflexivity.
Qed.

Lemma if_statement_branches_witness :
  execute (IfStmt (LiteralExpr (VDouble 1)) (print_call (VInt 1)) None)
    Interpreter_new
  = (Throw (runtime_error "Invalid condition in if statement"),
     mkInterpreter ∅ (VDouble 1) []).
Proof.
  apply (if_statement_branches (LiteralExpr (VDouble 1)) (print_call (VInt 1))
           None Interpreter_new (mkInterpreter ∅ (VDouble 1) [])
           (Return (VDouble 1))).
  reflexivity.
Defined.


(** *** The standard output only grows *)

Lemma appends_bind {A B} (m : I A) (f : A -> I B) :
  appends m -> (forall a, appends (f a)) -> appends (bind m f).
Proof.
  intros Hm Hf st. unfold bind. specialize (Hm st).
  destruct (m st) as [[a|e] st1]; cbn [snd] in *; [|exact Hm].
  etransitivity; [exact Hm|apply Hf].
Qed.

Lemma appends_keep {A} (m : I A) :
  (forall st, cout (snd (m st)) = cout st) -> appends m.
Proof. intros H st. now rewrite H. Qed.

Lemma appends_evaluate_by (m : I unit) : appends m -> appends (evaluate_by m).
Proof.
  intros H. apply appends_bind; [exact H|]. intros _. now apply appends_keep.
Qed.

Lemma appends_print_value (v : Value) : appends (print_value v).
Proof.
  rewrite print_value_render. intros st. cbn [write snd cout].
  now apply prefix_app_r.
Qed.

Lemma appends_accept (e : Expr) : appends (accept e).
Proof.
  induction e as [v|op r IHr|l op r IHl IHr|e IHe|name|name v IHv
                  |callee paren args _ IHargs] using InterpreterFacts.Expr_nested_ind;
    cbn [accept].
  - now apply appends_keep.
  - apply appends_bind; [now apply appends_evaluate_by|].
    intros v. apply appends_keep. intros st. now destruct (type op), v.
  - apply appends_bind; [now apply appends_evaluate_by|]. intros lv.
    apply appends_bind; [now apply appends_evaluate_by|]. intros rv.
    apply appends_keep. intros st. now destruct (binary_op (type op) lv rv).
  - apply appends_bind; [now apply appends_evaluate_by|]. intros v.
    now apply appends_keep.
  - apply appends_keep. intros st. now destruct (variables st !! lexeme name).
  - apply appends_bind; [now apply appends_evaluate_by|]. intros v'.
    apply appends_bind; intros; now apply appends_keep.
  - destruct callee; try (now apply appends_keep).
    destruct (String.eqb (lexeme name) "print"); [|now apply appends_keep].
    apply appends_bind; [|intros; now apply appends_keep].
    induction IHargs as [|a args Ha _ IH]; [now apply appends_keep|].
    apply appends_bind; [now apply appends_evaluate_by|]. intros v.
    apply appends_bind; [apply appends_print_value|]. intros _. exact IH.
Qed.

Lemma appends_execute (s : Stmt) : appends (execute s).
Proof.
  induction s as [e|name init c|ss IHss|c t IHt|c t e IHt IHe|c b|k v|name]
    using InterpreterFacts.Stmt_nested_ind; cbn [execute]; try (now apply appends_keep).
  - apply appends_bind; [now apply appends_evaluate_by, appends_accept|].
    intros v. now apply appends_keep.
  - apply appends_bind.
    + destruct init; [now apply appends_evaluate_by, appends_accept
                     |now apply appends_keep].
    + intros v. apply appends_bind; intros; now apply appends_keep.
  - induction IHss as [|s ss Hs _ IH]; [now apply appends_keep|].
    apply appends_bind; [exact Hs|]. intros _. exact IH.
  - apply appends_bind; [now apply appends_evaluate_by, appends_accept|].
    intros v. apply appends_bind.
    + destruct v; now apply appends_keep.
    + intros []; [exact IHt|now apply appends_keep].
  - apply appends_bind; [now apply appends_evaluate_by, appends_accept|].
    intros v. apply appends_bind.
    + destruct v; now apply appends_keep.
    + intros []; [exact IHt|exact IHe].
Qed.

(** X11.  Whatever is interpreted, what has been written to the standard
    output stays written: the output before is a prefix of the output after,
    whether the run ends or throws. *)
Theorem output_only_grows (statements : list Stmt) (st : Interpreter) :
  cout st `prefix_of` cout (snd (interpret statements st)).
Proof.
  revert st. induction statements as [|s ss IH]; intros st; [reflexivity|].
  cbn [interpret]. apply appends_bind; [apply appends_execute|].
  intros _. exact IH.
Qed.

(** *** The arguments of [print] *)

Lemma last_default {A} (l : list A) (x d d' : A) :
  List.last (x :: l) d = List.last (x :: l) d'.
Proof.
  revert x. induction l as [|y l IH]; intros x; [reflexivity|].
  change (List.last (y :: l) d = List.last (y :: l) d'). apply IH.
Qed.

Lemma print_all_cons (arg : Expr) (args : list Expr) (st st1 : Interpreter)
  (v : Value) :
  evaluate arg st = (Return v, st1) ->
  print_all (arg :: args) st = print_all args (wrote v st1).
Proof.
  intros H. cbn [print_all]. unfold bind at 1.
  change (evaluate_by (accept arg) st) with (evaluate arg st). rewrite H.
  unfold bind at 1. now rewrite print_value_render.
Qed.

(** The loop over arguments that evaluate: each is written, in order. *)
Lemma print_all_written (args : list Expr) :
  forall (vs : list Value) (st st' : Interpreter) (rest : list Expr),
    arguments_written args vs st st' ->
    print_all (args ++ rest) st = print_all rest st'.
Proof.
  induction args as [|a args IH]; intros [|v vs] st st' rest H;
    cbn [arguments_written] in H; try contradiction.
  - now subst st'.
  - destruct H as (st1 & Ha & H). cbn [app].
    rewrite (print_all_cons a _ st st1 v Ha). now apply (IH vs).
Qed.

(** The loop returns only when every argument has been evaluated and
    written. *)
Lemma print_all_returns (args : list Expr) :
  forall (st st' : Interpreter),
    print_all args st = (Return tt, st') ->
    exists vs, arguments_written args vs st st'.
Proof.
  induction args as [|a args IH]; intros st st' H.
  - exists []. cbn in H. now injection H as <-.
  - destruct (evaluate a st) as [[v|e] st1] eqn:Ha.
    + rewrite (print_all_cons a _ st st1 v Ha) in H.
      destruct (IH _ _ H) as (vs & Hvs). exists (v :: vs).
      cbn [arguments_written]. eauto.
    + cbn [print_all] in H. unfold bind at 1 in H.
      change (evaluate_by (accept a) st) with (evaluate a st) in H.
      rewrite Ha in H. discriminate.
Qed.

Lemma arguments_written_length (args : list Expr) :
  forall (vs : list Value) (st st' : Interpreter),
    arguments_written args vs st st' ->
    length vs = length args
    /\ (length (cout st) + length args <= length (cout st'))%nat.
Proof.
  induction args as [|a args IH]; intros [|v vs] st st' H;
    cbn [arguments_written] in H; try contradiction.
  - subst st'. cbn [length]. split; [reflexivity|lia].
  - destruct H as (st1 & Ha & H). destruct (IH _ _ _ H) as [Hl Hc].
    cbn [length]. split; [now rewrite Hl|].
    pose proof (prefix_length _ _ (appends_evaluate_by _ (appends_accept a) st))
      as Hgrow.
    change (evaluate_by (accept a) st) with (evaluate a st) in Hgrow.
    rewrite Ha in Hgrow. cbn [snd] in Hgrow.
    unfold wrote in Hc. cbn [cout] in Hc. rewrite length_app in Hc.
    cbn [length] in Hc. lia.
Qed.

Lemma arguments_written_output (args : list Expr) :
  forall (vs : list Value) (st st' : Interpreter),
    arguments_written args vs st st' ->
    forallb (fun arg => negb (calls_print arg)) args = true ->
    cout st' = (cout st ++ map render vs)%list.
Proof.
  induction args as [|a args IH]; intros [|v vs] st st' H Hq;
    cbn [arguments_written] in H; try contradiction.
  - subst st'. cbn [map]. now rewrite app_nil_r.
  - destruct H as (st1 & Ha & H). cbn [forallb] in Hq.
    apply andb_prop in Hq as [Hqa Hq]. apply negb_true_iff in Hqa.
    rewrite (IH _ _ _ H Hq). unfold wrote. cbn [cout map].
    rewrite <- app_assoc. cbn [app]. f_equal.
    pose proof (OutputFacts.evaluate_output a st) as Ho.
    rewrite Ha, (OutputFacts.accept_writes_nothing a Hqa st) in Ho.
    exact Ho.
Qed.

(** Literals evaluate to themselves and change nothing. *)
Lemma literals_written (vs : list Value) (st : Interpreter) :
  arguments_written (map LiteralExpr vs) vs st (printed vs st).
Proof.
  revert st. induction vs as [|v vs IH]; intros st.
  - unfold printed. cbn [map List.last arguments_written].
    rewrite app_nil_r. now destruct st.
  - cbn [map arguments_written].
    exists (mkInterpreter (variables st) v (cout st)). split; [reflexivity|].
    replace (printed (v :: vs) st)
      with (printed vs (wrote v (mkInterpreter (variables st) v (cout st))));
      [apply IH|].
    unfold printed, wrote. cbn [variables lastValue cout map].
    rewrite <- app_assoc. cbn [app]. f_equal.
    destruct vs as [|v0 vs']; [reflexivity|].
    change (List.last (v :: v0 :: vs') (lastValue st))
      with (List.last (v0 :: vs') (lastValue st)).
    apply last_default.
Qed.

(** X6.  A call of [print] evaluates its arguments from left to right, each
    in the state the one before left, and writes each value, rendered by its
    kind, as soon as it is there; with all arguments evaluated it yields nil,
    the variables being what the arguments made them and the output at least
    one line longer for each argument, and exactly the renderings of the
    values, in order, when no argument reaches a call of [print] itself.
    When a further argument throws, the arguments before it have been
    written already and the call throws what the argument threw.  The call
    returns in no other way.  The token kind, line and column of the callee
    play no part, only its lexeme. *)
Theorem print_writes_arguments (ty : TokenType) (ln col : nat) (paren : Token)
  (args : list Expr) (vs : list Value) (st st' : Interpreter) :
  arguments_written args vs st st' ->
  evaluate (CallExpr (VariableExpr (mkToken ty "print" ln col)) paren args) st
    = (Return VNil, mkInterpreter (variables st') VNil (cout st'))
  /\ (forall bad rest e st2,
        evaluate bad st' = (Throw e, st2) ->
        evaluate (CallExpr (VariableExpr (mkToken ty "print" ln col)) paren
                    (args ++ bad :: rest)) st
        = (Throw e, st2))
  /\ (length (cout st) + length args <= length (cout st'))%nat
  /\ (forallb (fun arg => negb (calls_print arg)) args = true ->
      cout st' = (cout st ++ map render vs)%list)
  /\ (forall others v st2,
        evaluate (CallExpr (VariableExpr (mkToken ty "print" ln col)) paren
                    others) st = (Return v, st2) ->
        exists ws st3,
          arguments_written others ws st st3
          /\ v = VNil
          /\ st2 = mkInterpreter (variables st3) VNil (cout st3)).
Proof.
  intros H. split; [|split; [|split; [|split]]].
  - unfold evaluate, evaluate_by. rewrite accept_print by reflexivity.
    unfold bind. rewrite <- (app_nil_r args).
    now rewrite (print_all_written args vs st st' [] H).
  - intros bad rest e st2 Hbad. unfold evaluate, evaluate_by in *.
    rewrite accept_print by reflexivity. unfold bind at 1 2.
    rewrite (print_all_written args vs st st' _ H).
    cbn [print_all]. unfold bind at 1, evaluate_by.
    unfold bind in Hbad |- *.
    destruct (accept bad st') as [[[]|e'] s']; [discriminate|].
    now injection Hbad as <- <-.
  - apply (arguments_written_length args vs st st' H).
  - now apply arguments_written_output.
  - intros others v st2 Hcall. unfold evaluate, evaluate_by in Hcall.
    rewrite accept_print in Hcall by reflexivity. unfold bind in Hcall.
    destruct (print_all others st) as [[[]|e] st3] eqn:Hall; [|discriminate].
    cbn in Hcall. injection Hcall as <- <-.
    destruct (print_all_returns others st st3 Hall) as (ws & Hws).
    exists ws, st3. auto.
Qed.

(** [print(x = 1, x, "s")] where [x] is not bound: the first argument binds
    it, the second reads it. *)
Lemma print_writes_arguments_witness :
  evaluate
    (CallExpr (VariableExpr (ident "print")) (tok RIGHT_PAREN ")")
       [AssignExpr (ident "x") (LiteralExpr (VDouble 1));
        VariableExpr (ident "x"); LiteralExpr (VString "s")])
    Interpreter_new
  = (Return VNil,
     mkInterpreter (<["x" := VDouble 1]> ∅) VNil
       [OutDouble 1; OutDouble 1; OutText "s"]).
Proof.
  refine (proj1 (print_writes_arguments IDENTIFIER 1 0 (tok RIGHT_PAREN ")")
           [AssignExpr (ident "x") (LiteralExpr (VDouble 1));
            VariableExpr (ident "x"); LiteralExpr (VString "s")]
           [VDouble 1; VDouble 1; VString "s"]
           Interpreter_new
           (mkInterpreter (<["x" := VDouble 1]> ∅) (VString "s")
              [OutDouble 1; OutDouble 1; OutText "s"]) _)).
  cbn [arguments_written].
  exists (mkInterpreter (<["x" := VDouble 1]> ∅) (VDouble 1) []).
  split; [vm_compute; reflexivity|].
  exists (mkInterpreter (<["x" := VDouble 1]> ∅) (VDouble 1) [OutDouble 1]).
  split; [vm_compute; reflexivity|].
  exists (mkInterpreter (<["x" := VDouble 1]> ∅) (VString "s")
            [OutDouble 1; OutDouble 1]).
  split; vm_compute; reflexivity.
Defined.

(** *** Expressions and the variables *)

Lemma keeps_bind {A B} (m : I A) (f : A -> I B) :
  keeps_variables m -> (forall a, keeps_variables (f a)) ->
  keeps_variables (bind m f).
Proof.
  intros Hm Hf st. unfold bind. specialize (Hm st).
  destruct (m st) as [[a|e] st1]; cbn [snd] in *; [|exact Hm].
  now rewrite Hf.
Qed.

Lemma keeps_evaluate_by (m : I unit) :
  keeps_variables m -> keeps_variables (evaluate_by m).
Proof.
  intros H. apply keeps_bind; [exact H|]. intros _ st. reflexivity.
Qed.

Lemma keeps_accept (e : Expr) : assigns e = false -> keeps_variables (accept e).
Proof.
  induction e as [v|op r IHr|l op r IHl IHr|e IHe|name|name v IHv
                  |callee paren args _ IHargs] using InterpreterFacts.Expr_nested_ind;
    cbn [accept assigns]; intros H.
  - intros st. reflexivity.
  - apply keeps_bind; [now apply keeps_evaluate_by, IHr|].
    intros v st. now destruct (type op), v.
  - apply orb_false_elim in H as [Hl Hr].
    apply keeps_bind; [now apply keeps_evaluate_by, IHl|]. intros lv.
    apply keeps_bind; [now apply keeps_evaluate_by, IHr|]. intros rv st.
    now destruct (binary_op (type op) lv rv).
  - apply keeps_bind; [now apply keeps_evaluate_by, IHe|]. intros v st.
    reflexivity.
  - intros st. now destruct (variables st !! lexeme name).
  - discriminate.
  - apply orb_false_elim in H as [_ Hargs].
    destruct callee; try (intros st; reflexivity).
    destruct (String.eqb (lexeme name) "print"); [|intros st; reflexivity].
    apply keeps_bind; [|intros _ st; reflexivity].
    induction IHargs as [|a args Ha _ IH]; [intros st; reflexivity|].
    cbn [existsb] in Hargs. apply orb_false_elim in Hargs as [Ha' Hargs].
    apply keeps_bind; [now apply keeps_evaluate_by, Ha|]. intros v.
    apply keeps_bind; [intros st; now destruct v|]. intros _. now apply IH.
Qed.

(** X12.  Evaluating an expression in which no assignment occurs leaves every
    variable as it was, whether the evaluation returns, prints or throws. *)
Theorem expression_without_assignment_keeps_variables (e : Expr) (st : Interpreter) :
  assigns e = false -> variables (snd (evaluate e st)) = variables st.
Proof.
  intros H. apply (keeps_evaluate_by (accept e)). now apply keeps_accept.
Qed.

Lemma expression_without_assignment_keeps_variables_witness :
  variables
    (snd (evaluate
            (CallExpr (VariableExpr (ident "print")) (tok RIGHT_PAREN ")")
               [BinaryExpr (LiteralExpr (VInt 1)) (tok PLUS "+")
                  (VariableExpr (ident "y"))])
            Interpreter_new))
  = variables Interpreter_new.
Proof.
  apply expression_without_assignment_keeps_variables. reflexivity.
Defined.

(** X13.  A declaration with an initializer does what the assignment of the
    initializer to the name does: the same state results and the same
    exception, if any; the name may have been declared before, and the
    [const] mark of the declaration changes nothing. *)
Theorem declaration_is_assignment (name : Token) (init : Expr) (c : bool)
  (st : Interpreter) :
  execute (VarDeclStmt name (Some init) c) st =
  (match fst (evaluate (AssignExpr name init) st) with
   | Return _ => Return tt
   | Throw x => Throw x
   end,
   snd (evaluate (AssignExpr name init) st)).
Proof.
  cbn [execute]. unfold evaluate at 2 3. cbn [accept].
  fold (evaluate init). unfold evaluate_by, bind.
  now destruct (evaluate init st) as [[v|x] st1].
Qed.


(** *** The unary operators *)

Lemma SFopp_involutive (x : spec_float) : SFopp (SFopp x) = x.
Proof. destruct x; simpl; now rewrite ?negb_involutive. Qed.

Lemma double_opp_involutive (d : double) : (- - d)%float = d.
Proof.
  rewrite <- (SF2Prim_Prim2SF (- - d)), !opp_spec, SFopp_involutive.
  apply SF2Prim_Prim2SF.
Qed.

Lemma int_neg_involutive (n : Z) :
  in_range n && in_range (- n) = true -> int_neg (int_neg n) = n.
Proof.
  intros H. apply andb_prop in H as [H1 H2]. unfold int_neg.
  rewrite (wrap32_in_range (- n) H2), Z.opp_involutive.
  now apply wrap32_in_range.
Qed.

Lemma evaluate_lastValue (e : Expr) (st st1 : Interpreter) (v : Value) :
  evaluate e st = (Return v, st1) -> lastValue st1 = v.
Proof.
  unfold evaluate, evaluate_by, bind.
  destruct (accept e st) as [[[]|x] s]; [|discriminate].
  cbn. now intros [= <- <-].
Qed.

Lemma evaluate_unary (op : Token) (e : Expr) (st st1 : Interpreter) (v : Value) :
  evaluate e st = (Return v, st1) ->
  evaluate (UnaryExpr op e) st =
  match unary_op (type op) v st1 with
  | (Return _, s) => (Return (lastValue s), s)
  | (Throw x, s) => (Throw x, s)
  end.
Proof.
  intros H. unfold evaluate at 1. cbn [accept]. fold (evaluate e).
  unfold evaluate_by, bind. rewrite H.
  now destruct (unary_op (type op) v st1) as [[[]|x] s].
Qed.

(** X14.  Unary [!] negates a [bool] and throws "Unary ! on non-bool" on
    any other kind (an [int] has no truth value here); unary [-] negates an
    [int] or a [double] and throws "Unary minus on non-number" on any other
    kind; and negating twice gives the value back, for a [bool] under [!] and
    for a [double] or an [int] other than the least under [-]: the
    expression then evaluates exactly as its operand does. *)
Theorem unary_operators (op : Token) (e : Expr) (st st1 : Interpreter) (v : Value) :
  evaluate e st = (Return v, st1) ->
  (involutive_on (type op) v = true ->
   evaluate (UnaryExpr op (UnaryExpr op e)) st = (Return v, st1))
  /\ (type op = BANG -> index v <> 3%nat ->
      evaluate (UnaryExpr op e) st
        = (Throw (runtime_error "Unary ! on non-bool"), st1))
  /\ (type op = MINUS -> index v <> 0%nat -> index v <> 1%nat ->
      evaluate (UnaryExpr op e) st
        = (Throw (runtime_error "Unary minus on non-number"), st1)).
Proof.
  intros H. pose proof (evaluate_lastValue e st st1 v H) as Hlast.
  split; [|split].
  - intros Hinv.
    assert (Hfirst : exists w,
      evaluate (UnaryExpr op e) st
        = (Return w, mkInterpreter (variables st1) w (cout st1))
      /\ unary_op (type op) w (mkInterpreter (variables st1) w (cout st1))
         = (Return tt, mkInterpreter (variables st1) v (cout st1))).
    { rewrite (evaluate_unary op e st st1 v H).
      destruct (type op), v as [n|d|s|b|]; try discriminate; cbn.
      - exists (VBool (negb b)). split; [reflexivity|].
        cbn. now rewrite negb_involutive.
      - exists (VInt (int_neg n)). split; [reflexivity|].
        cbn. now rewrite int_neg_involutive.
      - exists (VDouble (- d)). split; [reflexivity|].
        cbn. now rewrite double_opp_involutive. }
    destruct Hfirst as (w & Hw & Hsecond).
    rewrite (evaluate_unary op (UnaryExpr op e) st _ w Hw), Hsecond.
    cbn [lastValue]. f_equal. destruct st1. cbn in *. now subst.
  - intros Hop Hv. rewrite (evaluate_unary op e st st1 v H), Hop.
    destruct v; try reflexivity. now contradiction Hv.
  - intros Hop Hv0 Hv1. rewrite (evaluate_unary op e st st1 v H), Hop.
    destruct v; try reflexivity; [now contradiction Hv0|now contradiction Hv1].
Qed.

Lemma unary_operators_witness :
  evaluate (UnaryExpr (tok MINUS "-")
              (UnaryExpr (tok MINUS "-") (LiteralExpr (VInt 2147483647))))
    Interpreter_new
  = (Return (VInt 2147483647), mkInterpreter ∅ (VInt 2147483647) []).
Proof.
  apply (proj1 (unary_operators (tok MINUS "-") (LiteralExpr (VInt 2147483647))
                  Interpreter_new
                  (mkInterpreter ∅ (VInt 2147483647) [])
                  (VInt 2147483647) eq_refl)).
  reflexivity.
Defined.

End InterpreterMore.

(** ** The parser: more facts *)

Module ParserMore.
Import Parser ParserSpec ParserFacts ParserRuns.

(** X15.  Wherever the cursor stands in a token vector that ends with the
    end-of-file token, [expression] and [declaration] come to an end, the
    cursor still in the vector and not moved back, no diagnostic taken away.
    When they return, at least one token has been consumed (there is no
    empty expression and no empty statement); when they throw a
    [ParseError], a diagnostic has been reported. *)
Theorem expression_and_declaration_progress (p : Parser) :
  cursor_ok p ->
  (exists res p',
     expression (fuel_for p) p = Some (res, p')
     /\ cursor_ok p' /\ later p p' /\ ends_well true p res p')
  /\ (exists res p',
        declaration (fuel_for p) (statement (fuel_for p)) p = Some (res, p')
        /\ cursor_ok p' /\ later p p' /\ ends_well true p res p').
Proof.
  intros Hok.
  assert (Hrem : (remaining p < fuel_for p)%nat)
    by (unfold remaining, fuel_for; lia).
  split.
  - exact (expression_safe (fuel_for p) (remaining p) Hrem p Hok (Nat.le_refl _)).
  - exact (declaration_top_safe (fuel_for p) (remaining p) Hrem p Hok
             (Nat.le_refl _)).
Qed.

Lemma expression_and_declaration_progress_witness :
  (exists res p',
     expression 4 (Parser_new prog_stray_paren "script") = Some (res, p')
     /\ cursor_ok p' /\ later (Parser_new prog_stray_paren "script") p'
     /\ ends_well true (Parser_new prog_stray_paren "script") res p')
  /\ (exists res p',
        declaration 4 (statement 4) (Parser_new prog_stray_paren "script")
          = Some (res, p')
        /\ cursor_ok p' /\ later (Parser_new prog_stray_paren "script") p'
        /\ ends_well true (Parser_new prog_stray_paren "script") res p').
Proof.
  apply (expression_and_declaration_progress (Parser_new prog_stray_paren "script")).
  split; [reflexivity|simpl; lia].
Defined.


Lemma check_miss_peek (ty : TokenType) (p : Parser) :
  type (peek p) <> ty -> check ty p = false.
Proof.
  intros H. unfold check. destruct (isAtEnd p); [reflexivity|].
  now apply bool_decide_eq_false.
Qed.

Lemma match_miss_peek (ty : TokenType) (p : Parser) :
  type (peek p) <> ty -> match_ ty p = (false, p).
Proof. intros H. unfold match_. now rewrite check_miss_peek. Qed.

Lemma match_any_miss_peek (tys : list TokenType) (p : Parser) :
  ~ In (type (peek p)) tys -> match_any tys p = (false, p).
Proof.
  intros H. induction tys as [|ty tys IH]; [reflexivity|].
  cbn [match_any]. rewrite check_miss_peek.
  - apply IH. intros Hin. apply H. now right.
  - intros Heq. apply H. now left.
Qed.

Lemma bind_throw {A B} (m : M A) (f : A -> M B) (p p' : Parser) (e : exception) :
  m p = Some (Throw e, p') -> bind m f p = Some (Throw e, p').
Proof. intros H. unfold bind. now rewrite H. Qed.

Lemma expression_rejects (fuel : nat) (p : Parser) :
  starts_nothing (type (peek p)) = true ->
  expression (S fuel) p = rejected "Expect expression." p.
Proof.
  intros H.
  assert (Hprim : primary (expression fuel) p = rejected "Expect expression." p).
  { unfold primary.
    rewrite (match_miss_peek FALSE), (match_miss_peek TRUE),
      (match_miss_peek NIL) by (intros E; rewrite E in H; discriminate).
    rewrite match_any_miss_peek
      by (intros [E|[E|[]]]; rewrite <- E in H; discriminate).
    rewrite (match_miss_peek STRING_LITERAL), (match_miss_peek IDENTIFIER),
      (match_miss_peek LEFT_PAREN) by (intros E; rewrite E in H; discriminate).
    reflexivity. }
  cbn [expression].
  unfold assignment, logicalOr, logicalAnd, equality, comparison, term, factor.
  do 7 (apply bind_throw).
  unfold unary. cbn [unary_rec].
  rewrite match_any_miss_peek
    by (intros [E|[E|[]]]; rewrite <- E in H; discriminate).
  unfold call. now apply bind_throw.
Qed.

(** X16.  A statement cannot start with [function], [const], [for] or
    [else], nor with a binary operator, [=], [)], [}], [,], [;] or the end of
    the file: [declaration] (and [expression]) then throws the [ParseError]
    "Expect expression.", having consumed nothing and reported one
    diagnostic, which carries the position of the token and its lexeme, or
    "at end of file".  So no function statement, no [const] declaration and
    no [for] loop is ever parsed. *)
Theorem unsupported_statement_start (fuel : nat) (p : Parser) :
  starts_nothing (type (peek p)) = true ->
  expression (S fuel) p
    = Some (Throw (ParseError "Expect expression."),
            report (diagnostic_at (filename p) (peek p) "Expect expression.") p)
  /\ declaration (S fuel) (statement (S fuel)) p
     = Some (Throw (ParseError "Expect expression."),
             report (diagnostic_at (filename p) (peek p) "Expect expression.") p).
Proof.
  intros H. split; [now apply expression_rejects|].
  unfold declaration.
  rewrite (match_miss_peek VAR) by (intros E; rewrite E in H; discriminate).
  cbn [statement]. unfold statement_body.
  rewrite (match_miss_peek IF), (match_miss_peek WHILE), (match_miss_peek PRINT),
    (match_miss_peek RETURN), (match_miss_peek LEFT_BRACE)
    by (intros E; rewrite E in H; discriminate).
  unfold expressionStatement. apply bind_throw. now apply expression_rejects.
Qed.

Lemma unsupported_statement_start_witness :
  expression 3 (Parser_new [tok FOR "for"; tok LEFT_PAREN "("; eof] "script")
    = Some (Throw (ParseError "Expect expression."),
            report (mkDiagnostic ERROR "Expect expression. at 'for'"
                      (mkLocation "script" 1 0))
              (Parser_new [tok FOR "for"; tok LEFT_PAREN "("; eof] "script"))
  /\ declaration 3 (statement 3)
       (Parser_new [tok FOR "for"; tok LEFT_PAREN "("; eof] "script")
     = Some (Throw (ParseError "Expect expression."),
             report (mkDiagnostic ERROR "Expect expression. at 'for'"
                       (mkLocation "script" 1 0))
               (Parser_new [tok FOR "for"; tok LEFT_PAREN "("; eof] "script")).
Proof.
  apply (unsupported_statement_start 2
           (Parser_new [tok FOR "for"; tok LEFT_PAREN "("; eof] "script")).
  reflexivity.
Defined.


(** X17.  An assignment whose target is not a variable is reported and
    parsing goes on: where the left side has been read, [=] follows and the
    right side is read too, [expression] returns; if the left side is a
    variable the result is the assignment and nothing is reported, otherwise
    the result is the left side alone, the right side is dropped, and one
    diagnostic "Invalid assignment target" is reported at the [=]. *)
Theorem invalid_assignment_target (fuel : nat) (p p1 p2 : Parser)
  (target value : Expr) (equals : Token) (l : list Token) :
  logicalOr (S fuel) (expression fuel) p = Some (Return target, p1) ->
  rest p1 = equals :: l ->
  type equals = EQUAL ->
  expression fuel (advance p1) = Some (Return value, p2) ->
  expression (S fuel) p =
  Some (match target with
        | VariableExpr name =>
            (Return (AssignExpr name value), p2)
        | _ =>
            (Return target,
             report (diagnostic_at (filename p2) equals "Invalid assignment target")
               p2)
        end).
Proof.
  intros Hor Hrest Heq Hval. cbn [expression]. unfold assignment.
  unfold bind at 1. rewrite Hor.
  rewrite (match_hit EQUAL p1 _ _ Hrest Heq) by discriminate.
  destruct (advance_rest p1 _ _ Hrest) as (_ & -> & _); [congruence|].
  unfold bind. rewrite Hval. now destruct target.
Qed.

Lemma invalid_assignment_target_witness :
  expression 5 (Parser_new prog_assign_to_literal "script") =
  Some (Return (LiteralExpr (VDouble 1)),
        report (mkDiagnostic ERROR "Invalid assignment target at '='"
                  (mkLocation "script" 1 0))
          (mkParser prog_assign_to_literal "script" 3 [])).
Proof.
  apply (invalid_assignment_target 4 (Parser_new prog_assign_to_literal "script")
           (mkParser prog_assign_to_literal "script" 1 [])
           (mkParser prog_assign_to_literal "script" 3 [])
           (LiteralExpr (VDouble 1)) (VariableExpr (ident "x"))
           (tok EQUAL "=") [ident "x"; semi; eof]);
    vm_compute; reflexivity.
Defined.


(** *** The binary levels take their operands from the left *)

Lemma logicalOr_level (fuel : nat) (expression : M Expr) :
  logicalOr fuel expression = level 6 fuel expression.
Proof. reflexivity. Qed.

Lemma match_any_hit (tys : list TokenType) (p : Parser) (t : Token) (l : list Token) :
  rest p = t :: l -> In (type t) tys -> type t <> END_OF_FILE ->
  match_any tys p = (true, advance p).
Proof.
  intros H Hin Hne. induction tys as [|ty tys IH]; [destruct Hin|].
  cbn [match_any]. destruct (check ty p) eqn:E; [reflexivity|].
  destruct Hin as [Heq|Hin]; [|now apply IH].
  rewrite (check_hit ty p t l H) in E; congruence.
Qed.

(** An identifier is read by every level as it is, when the token after it
    is no [(] and no operator of the levels below. *)
Lemma level_identifier (i fuel : nat) (expression : M Expr) (q : Parser)
  (y t' : Token) (l' : list Token) :
  rest q = y :: t' :: l' -> type y = IDENTIFIER -> type t' <> LEFT_PAREN ->
  (forall j, (j < i)%nat -> ~ In (type t') (group j)) ->
  level i (S fuel) expression q = Some (Return (VariableExpr y), advance q).
Proof.
  intros H Hy Hp. induction i as [|i IH]; intros Hlow.
  - cbn [level]. unfold unary. cbn [unary_rec].
    rewrite (match_any_miss _ q y _ H)
      by (rewrite Hy; simpl; intuition discriminate).
    unfold call, bind. rewrite (primary_identifier _ q y _ H Hy).
    cbn [call_loop].
    destruct (advance_rest q y _ H) as (Hr & _); [congruence|].
    now rewrite (match_miss LEFT_PAREN _ t' l' Hr).
  - cbn [level].
    destruct (advance_rest q y _ H) as (Hr & _); [congruence|].
    apply (level_through fuel (group i) _ _ q (advance q) t' l');
      [apply IH; intros j Hj; apply Hlow; lia|exact Hr|apply Hlow; lia].
Qed.

(** What a level has read is what the levels above read, when no operator of
    theirs follows. *)
Lemma level_lift (n i fuel : nat) (expression : M Expr) (p p' : Parser)
  (e : Expr) (t : Token) (l : list Token) :
  level i (S fuel) expression p = Some (Return e, p') ->
  rest p' = t :: l ->
  (forall j, (i <= j < i + n)%nat -> ~ In (type t) (group j)) ->
  level (i + n) (S fuel) expression p = Some (Return e, p').
Proof.
  intros Hlev Hr. induction n as [|n IH]; intros Hup.
  - now rewrite Nat.add_0_r.
  - rewrite Nat.add_succ_r. cbn [level].
    apply (level_through fuel (group (i + n)) _ e p p' t l);
      [apply IH; intros j Hj; apply Hup; lia|exact Hr|apply Hup; lia].
Qed.

(** The loop of a level over operators of its group, each with an
    identifier: a fold from the left. *)
Lemma binary_loop_fold (g : list TokenType) (operand : M Expr) :
  ~ In END_OF_FILE g -> ~ In SEMICOLON g ->
  (forall q y t' l',
      rest q = y :: t' :: l' -> type y = IDENTIFIER ->
      In (type t') g \/ type t' = SEMICOLON ->
      operand q = Some (Return (VariableExpr y), advance q)) ->
  forall (steps : list (Token * Token)) (k : nat) (e : Expr) (p : Parser)
         (l : list Token),
    (length steps < k)%nat -> Forall (step_of g) steps ->
    rest p = (flat_map (fun s => [fst s; snd s]) steps ++ semi :: l)%list ->
    exists p',
      binary_loop k g operand e p = Some (Return (left_fold steps e), p')
      /\ rest p' = semi :: l /\ tokens p' = tokens p
      /\ filename p' = filename p /\ diagnostics p' = diagnostics p.
Proof.
  intros Heof Hsemi Hop steps.
  induction steps as [|[o y] steps IH]; intros k e p l Hk Hsteps H;
    (destruct k as [|k]; [simpl in Hk; lia|]).
  - exists p. split; [|auto].
    now apply (binary_loop_quiet k g operand e p semi l).
  - inversion Hsteps as [|s ss [Ho Hy] Hrest]; subst. cbn [fst snd] in *.
    cbn [flat_map app fst snd] in H.
    assert (Hone : type o <> END_OF_FILE) by (intros E; rewrite E in Ho; auto).
    destruct (advance_rest p o _ H Hone) as (H1 & Hprev & Ht1 & Hf1 & Hd1).
    destruct (advance_rest (advance p) y _ H1) as (H2 & _ & Ht2 & Hf2 & Hd2);
      [congruence|].
    assert (Hoperand :
      operand (advance p) = Some (Return (VariableExpr y), advance (advance p))).
    { destruct steps as [|[o' y'] steps'].
      - apply (Hop _ y semi l H1 Hy). now right.
      - apply (Hop _ y o' _ H1 Hy). left.
        inversion Hrest as [|s ss [Ho' _] _]; subst. exact Ho'. }
    destruct (IH k (BinaryExpr e o (VariableExpr y)) (advance (advance p)) l)
      as (p' & Hrun & Hr' & Ht' & Hf' & Hd'); [simpl in Hk; lia|exact Hrest|exact H2|].
    exists p'. split.
    + cbn [binary_loop]. rewrite (match_any_hit g p o _ H Ho Hone).
      unfold bind. rewrite Hprev, Hoperand. exact Hrun.
    + repeat split; congruence.
Qed.

(** The groups: no end of file, no [;], no [(], and no operator of a lower
    group. *)
Lemma group_facts (i : nat) (ty : TokenType) :
  In ty (group i) ->
  ty <> END_OF_FILE /\ ty <> SEMICOLON /\ ty <> LEFT_PAREN /\ ty <> EQUAL
  /\ forall j, (j < i)%nat -> ~ In ty (group j).
Proof.
  intros H.
  do 6 (destruct i as [|i];
        [simpl in H; repeat (destruct H as [<-|H]); try destruct H;
         repeat split; try discriminate;
         intros j Hj;
         do 6 (destruct j as [|j]; [first [lia|simpl; intuition discriminate]|]); lia|]).
  unfold group in H. simpl in H. now destruct i.
Qed.

Lemma semicolon_in_no_group (j : nat) : ~ In SEMICOLON (group j).
Proof.
  do 6 (destruct j as [|j]; [simpl; intuition discriminate|]).
  unfold group. simpl. now destruct j.
Qed.

Lemma chain_length (steps : list (Token * Token)) :
  length (flat_map (fun s => [fst s; snd s]) steps) = (2 * length steps)%nat.
Proof. induction steps as [|s steps IH]; simpl; [reflexivity|]. rewrite IH. lia. Qed.

(** X18.  Every binary level is left associative: an identifier followed by
    any number of operators of one level (the multiplicative, the additive,
    the comparison, the equality, the [and] or the [or] operators, in any
    mix), each with an identifier, is parsed into the expression that takes
    the operands from the left, [((x o1 y1) o2 y2) ...]. *)
Theorem binary_levels_left_associative (g : list TokenType) (x : Token)
  (steps : list (Token * Token)) :
  In g binary_levels -> type x = IDENTIFIER -> Forall (step_of g) steps ->
  parsed (chain x steps ++ [semi; eof])
    = Some [ExpressionStmt (left_fold steps (VariableExpr x))].
Proof.
  intros Hg Hx Hsteps.
  assert (Hi : exists i, (i < 6)%nat /\ g = group i).
  { simpl in Hg.
    destruct Hg as [<-|[<-|[<-|[<-|[<-|[<-|[]]]]]]];
      [exists 0%nat|exists 1%nat|exists 2%nat|exists 3%nat|exists 4%nat
      |exists 5%nat]; split; (lia || reflexivity). }
  destruct Hi as (i & Hi & ->).
  unfold parsed, parse, fuel_for. cbn [tokens Parser_new].
  set (toks := (chain x steps ++ [semi; eof])%list).
  set (p := Parser_new toks "script").
  assert (Hlen : exists F, length toks = S (S F) /\ (length steps < S (S F))%nat).
  { exists (S (length (flat_map (fun s => [fst s; snd s]) steps))).
    subst toks. unfold chain. cbn [app length].
    rewrite length_app, chain_length. cbn [length]. split; lia. }
  destruct Hlen as (F & -> & HF).
  assert (H : rest p = x :: (flat_map (fun s => [fst s; snd s]) steps
                             ++ semi :: [eof])%list) by reflexivity.
  (* the first operand, read by the level below *)
  assert (Hnext : exists t' l', (flat_map (fun s => [fst s; snd s]) steps
                                 ++ semi :: [eof])%list = t' :: l'
                  /\ (In (type t') (group i) \/ type t' = SEMICOLON)).
  { destruct steps as [|[o y] steps']; cbn [flat_map app fst snd].
    - exists semi, [eof]. split; [reflexivity|now right].
    - exists o, (y :: flat_map (fun s => [fst s; snd s]) steps' ++ [semi; eof])%list.
      split; [reflexivity|left]. inversion Hsteps as [|s ss [Ho _] _]; subst.
      exact Ho. }
  destruct Hnext as (t' & l' & Hn & Ht').
  assert (Hquiet : forall t, In (type t) (group i) \/ type t = SEMICOLON ->
            type t <> LEFT_PAREN
            /\ forall j, (j < i)%nat -> ~ In (type t) (group j)).
  { intros t [Hin|Hs].
    - destruct (group_facts i _ Hin) as (_ & _ & ? & _ & ?). auto.
    - rewrite Hs. split; [discriminate|]. intros j _. apply semicolon_in_no_group. }
  assert (Hoperand : forall q y t'' l'',
            rest q = y :: t'' :: l'' -> type y = IDENTIFIER ->
            In (type t'') (group i) \/ type t'' = SEMICOLON ->
            level i (S (S (S F))) (expression (S (S F))) q
              = Some (Return (VariableExpr y), advance q)).
  { intros q y t'' l'' Hq Hy Hq'. destruct (Hquiet t'' Hq') as [? ?].
    now apply (level_identifier i _ _ q y t'' l''). }
  rewrite Hn in H.
  destruct (advance_rest p x _ H) as (H1 & _ & Ht1 & Hf1 & Hd1); [congruence|].
  rewrite <- Hn in H1.
  destruct (binary_loop_fold (group i) _
              (fun E => proj1 (group_facts i _ E) eq_refl)
              (semicolon_in_no_group i) Hoperand steps (S (S (S F)))
              (VariableExpr x) (advance p) [eof] ltac:(lia) Hsteps H1)
    as (p1 & Hloop & Hr1 & Ht1' & Hf1' & Hd1').
  assert (Hlevel : level (S i) (S (S (S F))) (expression (S (S F))) p
                   = Some (Return (left_fold steps (VariableExpr x)), p1)).
  { cbn [level]. unfold bind.
    rewrite (Hoperand p x t' l' H Hx Ht'). exact Hloop. }
  assert (Hor : logicalOr (S (S (S F))) (expression (S (S F))) p
                = Some (Return (left_fold steps (VariableExpr x)), p1)).
  { rewrite logicalOr_level. replace 6%nat with (S i + (5 - i))%nat by lia.
    apply (level_lift _ _ _ _ p p1 _ semi [eof] Hlevel Hr1).
    intros j _. apply semicolon_in_no_group. }
  destruct (advance_rest p1 semi _ Hr1) as (H2 & _ & Ht2 & Hf2 & Hd2);
    [discriminate|].
  cbn [parse_loop]. rewrite (not_at_end p x _ H) by congruence.
  rewrite (declaration_identifier _ p x _ H Hx).
  unfold expressionStatement, bind at 1.
  change (expression (S (S (S F))))
    with (assignment (S (S (S F))) (expression (S (S F)))).
  unfold assignment, bind at 1. rewrite Hor.
  rewrite (match_miss EQUAL p1 semi _ Hr1) by discriminate.
  unfold ret at 1, bind.
  rewrite (consume_hit SEMICOLON _ p1 semi _ Hr1) by (auto; discriminate).
  unfold ret at 1. unfold isAtEnd. rewrite (peek_rest _ eof [] H2).
  reflexivity.
Qed.

Lemma binary_levels_left_associative_witness :
  parsed (chain (ident "a")
            [(tok MINUS "-", ident "b"); (tok PLUS "+", ident "c");
             (tok MINUS "-", ident "d")] ++ [semi; eof])
    = Some [ExpressionStmt
              (left_fold [(tok MINUS "-", ident "b"); (tok PLUS "+", ident "c");
                          (tok MINUS "-", ident "d")]
                 (VariableExpr (ident "a")))].
Proof.
  apply (binary_levels_left_associative [MINUS; PLUS] (ident "a")).
  - simpl. tauto.
  - reflexivity.
  - repeat constructor; simpl; tauto.
Defined.


(** *** One expression statement *)

Lemma declaration_expression (fuel : nat) (p : Parser) (t : Token) (l : list Token) :
  rest p = t :: l -> starts_expression_statement (type t) = true ->
  declaration (S fuel) (statement (S fuel)) p = expressionStatement (S fuel) p.
Proof.
  intros H Ht. unfold declaration.
  rewrite (match_miss VAR p t l) by (auto; intros E; now rewrite E in Ht).
  cbn [statement]. unfold statement_body.
  now rewrite (match_miss IF p t l), (match_miss WHILE p t l),
    (match_miss PRINT p t l), (match_miss RETURN p t l),
    (match_miss LEFT_BRACE p t l) by (auto; intros E; now rewrite E in Ht).
Qed.

(** The tokens of an expression, a [;] and the end: one statement. *)
Lemma expression_statement_alone (t : Token) (l : list Token) (e : Expr)
  (p1 : Parser) :
  starts_expression_statement (type t) = true ->
  expression (S (S (length l))) (Parser_new (t :: l) "script")
    = Some (Return e, p1) ->
  rest p1 = [semi; eof] ->
  parsed (t :: l) = Some [ExpressionStmt e].
Proof.
  intros Ht He Hr.
  unfold parsed, parse, fuel_for. cbn [tokens Parser_new length].
  set (p := Parser_new (t :: l) "script") in *.
  assert (H : rest p = t :: l) by reflexivity.
  destruct (advance_rest p1 semi _ Hr) as (H2 & _); [discriminate|].
  cbn [parse_loop].
  rewrite (not_at_end p t _ H) by (intros E; now rewrite E in Ht).
  rewrite (declaration_expression _ p t _ H Ht).
  unfold expressionStatement, bind at 1. rewrite He. unfold bind.
  rewrite (consume_hit SEMICOLON _ p1 semi _ Hr) by (auto; discriminate).
  unfold ret at 1. unfold isAtEnd. rewrite (peek_rest _ eof [] H2).
  reflexivity.
Qed.

Lemma equal_in_no_group (j : nat) : ~ In EQUAL (group j).
Proof.
  do 6 (destruct j as [|j]; [simpl; intuition discriminate|]).
  unfold group. simpl. now destruct j.
Qed.

(** *** Assignment takes its targets from the right *)

Lemma assignment_run (y : Token) (targets : list (Token * Token)) :
  type y = IDENTIFIER -> Forall target_of targets ->
  forall (fuel : nat) (p : Parser) (l : list Token),
    rest p = (flat_map (fun s => [fst s; snd s]) targets ++ y :: semi :: l)%list ->
    exists p',
      expression (S (S (length targets + fuel))) p
        = Some (Return (right_fold targets (VariableExpr y)), p')
      /\ rest p' = semi :: l.
Proof.
  intros Hy Htargets.
  induction Htargets as [|[n e] targets [Hn He] _ IH]; intros fuel p l H.
  - exists (advance p). cbn [flat_map app] in H. split.
    + now apply (expression_identifier fuel p y semi l).
    + now destruct (advance_rest p y _ H) as (Hr & _); [congruence|].
  - cbn [flat_map app fst snd] in *.
    destruct (advance_rest p n _ H) as (H1 & _); [congruence|].
    destruct (advance_rest _ e _ H1) as (H2 & _); [congruence|].
    destruct (IH fuel _ l H2) as (p' & Hrun & Hr).
    exists p'. split; [|exact Hr].
    cbn [length Nat.add].
    change (expression (S (S (S (length targets + fuel)))))
      with (assignment (S (S (S (length targets + fuel))))
              (expression (S (S (length targets + fuel))))).
    unfold assignment, bind at 1.
    rewrite logicalOr_level.
    rewrite (level_identifier 6 _ _ p n e _ H Hn)
      by (rewrite He; first [discriminate|intros j _; apply equal_in_no_group]).
    rewrite (match_hit EQUAL _ e _ H1 He) by discriminate.
    unfold bind. rewrite Hrun. reflexivity.
Qed.

(** X19.  Assignment is right associative: identifiers, each with its [=],
    before a last identifier are parsed into the assignment whose value is
    the assignment of the rest, [x1 = (x2 = (... = y))]. *)
Theorem assignment_right_associative (targets : list (Token * Token)) (y : Token) :
  Forall target_of targets -> type y = IDENTIFIER ->
  parsed (assign_chain targets y ++ [semi; eof])
    = Some [ExpressionStmt (right_fold targets (VariableExpr y))].
Proof.
  intros Htargets Hy.
  assert (Hshape : exists t l,
            (assign_chain targets y ++ [semi; eof])%list = t :: l
            /\ type t = IDENTIFIER
            /\ length l = (length targets + (length targets + 2))%nat).
  { unfold assign_chain. destruct Htargets as [|[n e] targets [Hn He] _].
    - exists y, [semi; eof]. auto.
    - eexists _, _. cbn [flat_map app fst snd]. split; [reflexivity|].
      split; [exact Hn|]. cbn [length].
      rewrite !length_app, chain_length. cbn [length]. lia. }
  destruct Hshape as (t & l & Hl & Ht & Hlen).
  destruct (assignment_run y targets Hy Htargets (length targets + 2)
              (Parser_new (t :: l) "script") [eof]) as (p' & Hrun & Hr).
  { rewrite rest_start, <- Hl. unfold assign_chain.
    now rewrite <- app_assoc. }
  rewrite Hl. apply (expression_statement_alone t l _ p').
  - now rewrite Ht.
  - now rewrite Hlen.
  - exact Hr.
Qed.

Lemma assignment_right_associative_witness :
  parsed (assign_chain [(ident "a", tok EQUAL "="); (ident "b", tok EQUAL "=")]
            (ident "c") ++ [semi; eof])
    = Some [ExpressionStmt
              (AssignExpr (ident "a")
                 (AssignExpr (ident "b") (VariableExpr (ident "c"))))].
Proof.
  apply (assignment_right_associative
           [(ident "a", tok EQUAL "="); (ident "b", tok EQUAL "=")] (ident "c")).
  - repeat constructor.
  - reflexivity.
Defined.

(** *** An expression that no assignment and no binary operator follows *)

Lemma unary_through (fuel : nat) (e : Expr) (p p' : Parser) (l : list Token) :
  unary (S fuel) (expression fuel) p = Some (Return e, p') ->
  rest p' = semi :: l ->
  expression (S fuel) p = Some (Return e, p').
Proof.
  intros Hu Hr. cbn [expression]. unfold assignment, bind at 1.
  rewrite logicalOr_level.
  change 6%nat with (0 + 6)%nat.
  rewrite (level_lift 6 0 fuel _ p p' e semi l Hu Hr)
    by (intros j _; apply semicolon_in_no_group).
  now rewrite (match_miss EQUAL p' semi l Hr).
Qed.

(** *** Unary operators nest to the right *)

Lemma unary_run (call : M Expr) (y : Token) (l : list Token) :
  (forall q, rest q = y :: semi :: l ->
             call q = Some (Return (VariableExpr y), advance q)) ->
  type y = IDENTIFIER ->
  forall (ops : list Token) (k : nat) (p : Parser),
    Forall (fun o => In (type o) [BANG; MINUS]) ops ->
    (length ops < k)%nat ->
    rest p = (ops ++ y :: semi :: l)%list ->
    exists p',
      unary_rec k call p = Some (Return (prefixed ops (VariableExpr y)), p')
      /\ rest p' = semi :: l.
Proof.
  intros Hcall Hy ops.
  induction ops as [|o ops IH]; intros k p Hops Hk H;
    (destruct k as [|k]; [simpl in Hk; lia|]); cbn [unary_rec].
  - exists (advance p). cbn [app] in H.
    rewrite (match_any_miss _ p y _ H)
      by (rewrite Hy; simpl; intuition discriminate).
    split; [now apply Hcall|].
    now destruct (advance_rest p y _ H) as (Hr & _); [congruence|].
  - inversion Hops as [|o' ops' Ho Hrest]; subst. cbn [app] in H.
    assert (Hne : type o <> END_OF_FILE)
      by (intros E; rewrite E in Ho; simpl in Ho; intuition discriminate).
    destruct (advance_rest p o _ H Hne) as (H1 & Hprev & _).
    destruct (IH k (advance p) Hrest ltac:(simpl in Hk; lia) H1)
      as (p' & Hrun & Hr).
    exists p'. split; [|exact Hr].
    rewrite (match_any_hit _ p o _ H Ho Hne).
    unfold bind. now rewrite Hrun, Hprev.
Qed.

(** X20.  Unary operators are right recursive: any number of [!] and [-]
    before an identifier are parsed into nested unary expressions, the
    first operator outermost, [o1 (o2 (... y))]. *)
Theorem unary_right_recursive (ops : list Token) (y : Token) :
  Forall (fun o => In (type o) [BANG; MINUS]) ops -> type y = IDENTIFIER ->
  parsed (ops ++ [y; semi; eof])
    = Some [ExpressionStmt (prefixed ops (VariableExpr y))].
Proof.
  intros Hops Hy.
  assert (Hshape : exists t l,
            (ops ++ [y; semi; eof])%list = t :: l
            /\ starts_expression_statement (type t) = true
            /\ length l = (length ops + 2)%nat).
  { destruct Hops as [|o ops Ho _].
    - exists y, [semi; eof]. rewrite Hy. auto.
    - exists o, (ops ++ [y; semi; eof])%list. split; [reflexivity|]. split.
      + simpl in Ho. now destruct Ho as [<-|[<-|[]]].
      + rewrite length_app. cbn [length]. lia. }
  destruct Hshape as (t & l & Hl & Ht & Hlen).
  set (F := S (length l)).
  assert (Hcall : forall q, rest q = [y; semi; eof] ->
            call (S F) (expression F) q
              = Some (Return (VariableExpr y), advance q)).
  { intros q Hq. unfold call, bind.
    rewrite (primary_identifier _ q y _ Hq Hy). cbn [call_loop].
    destruct (advance_rest q y _ Hq) as (Hr & _); [congruence|].
    now rewrite (match_miss LEFT_PAREN _ semi [eof] Hr). }
  destruct (unary_run _ y [eof] Hcall Hy ops (S F)
              (Parser_new (t :: l) "script") Hops) as (p' & Hrun & Hr).
  { subst F. lia. }
  { now rewrite rest_start, <- Hl. }
  rewrite Hl. apply (expression_statement_alone t l _ p' Ht); [|exact Hr].
  now apply (unary_through F _ _ p' [eof]).
Qed.

Lemma unary_right_recursive_witness :
  parsed ([tok MINUS "-"; tok BANG "!"; tok MINUS "-"] ++ [ident "x"; semi; eof])
    = Some [ExpressionStmt
              (UnaryExpr (tok MINUS "-")
                 (UnaryExpr (tok BANG "!")
                    (UnaryExpr (tok MINUS "-") (VariableExpr (ident "x")))))].
Proof.
  apply (unary_right_recursive [tok MINUS "-"; tok BANG "!"; tok MINUS "-"]
           (ident "x")).
  - repeat constructor; simpl; tauto.
  - reflexivity.
Defined.

(** *** Calls chain to the left *)

Lemma call_run (fuel : nat) (expression : M Expr) (l : list Token) :
  forall (parens : list (Token * Token)) (k : nat) (e : Expr) (p : Parser),
    Forall parens_of parens -> (length parens < k)%nat ->
    rest p = (flat_map (fun s => [fst s; snd s]) parens ++ semi :: l)%list ->
    exists p',
      call_loop k fuel expression e p = Some (Return (called parens e), p')
      /\ rest p' = semi :: l /\ diagnostics p' = diagnostics p.
Proof.
  intros parens.
  induction parens as [|[lp rp] parens IH]; intros k e p Hparens Hk H;
    (destruct k as [|k]; [simpl in Hk; lia|]); cbn [call_loop].
  - exists p. cbn [flat_map app] in H.
    now rewrite (match_miss LEFT_PAREN p semi l H).
  - inversion Hparens as [|s ss [Hlp Hrp] Hrest]; subst.
    cbn [flat_map app fst snd] in *.
    destruct (advance_rest p lp _ H) as (H1 & _ & _ & _ & Hd1); [congruence|].
    destruct (advance_rest _ rp _ H1) as (H2 & _ & _ & _ & Hd2); [congruence|].
    destruct (IH k (CallExpr e rp []) _ Hrest ltac:(simpl in Hk; lia) H2)
      as (p' & Hrun & Hr & Hd).
    exists p'. split; [|split; [exact Hr|congruence]].
    rewrite (match_hit LEFT_PAREN p lp _ H Hlp) by discriminate.
    unfold bind at 1, finishCall.
    rewrite (check_hit RIGHT_PAREN _ rp _ H1 Hrp) by discriminate.
    cbn [negb]. unfold bind, ret at 1.
    rewrite (consume_hit RIGHT_PAREN _ _ rp _ H1 Hrp) by discriminate.
    unfold ret at 1. exact Hrun.
Qed.

(** X21.  Calls chain: an identifier followed by any number of empty
    argument lists [f()()...()] is parsed into calls of calls, the first
    list innermost, each call keeping its closing parenthesis and no
    arguments. *)
Theorem calls_chain (f : Token) (parens : list (Token * Token)) :
  type f = IDENTIFIER -> Forall parens_of parens ->
  parsed (call_chain f parens ++ [semi; eof])
    = Some [ExpressionStmt (called parens (VariableExpr f))].
Proof.
  intros Hf Hparens. unfold call_chain. cbn [app].
  set (l := (flat_map (fun s => [fst s; snd s]) parens ++ [semi; eof])%list).
  set (F := S (length l)).
  set (p := Parser_new (f :: l) "script").
  assert (H : rest p = f :: l) by reflexivity.
  destruct (advance_rest p f _ H) as (H1 & _); [congruence|].
  destruct (call_run (S F) (expression F) [eof] parens (S F)
              (VariableExpr f) (advance p) Hparens) as (p' & Hrun & Hr & _).
  { subst F l. rewrite length_app, chain_length. cbn [length]. lia. }
  { exact H1. }
  apply (expression_statement_alone f l _ p'); [now rewrite Hf| |exact Hr].
  apply (unary_through F _ p p' [eof]); [|exact Hr].
  unfold unary. cbn [unary_rec].
  rewrite (match_any_miss _ p f _ H)
    by (rewrite Hf; simpl; intuition discriminate).
  unfold call, bind. now rewrite (primary_identifier _ p f _ H Hf).
Qed.

Lemma calls_chain_witness :
  parsed (call_chain (ident "f")
            [(tok LEFT_PAREN "(", tok RIGHT_PAREN ")");
             (tok LEFT_PAREN "(", tok RIGHT_PAREN ")")] ++ [semi; eof])
    = Some [ExpressionStmt
              (CallExpr (CallExpr (VariableExpr (ident "f")) (tok RIGHT_PAREN ")") [])
                 (tok RIGHT_PAREN ")") [])].
Proof.
  apply (calls_chain (ident "f")
           [(tok LEFT_PAREN "(", tok RIGHT_PAREN ")");
            (tok LEFT_PAREN "(", tok RIGHT_PAREN ")")]).
  - reflexivity.
  - repeat constructor.
Defined.


(** *** Blocks *)

Lemma parse_loop_step (k fuel : nat) (statements : list Stmt) (p : Parser) :
  parse_loop (S k) fuel statements p =
  if isAtEnd p then Some (statements, p)
  else match declaration fuel (statement fuel) p with
       | Some (Return s, p') => parse_loop k fuel (statements ++ [s]) p'
       | Some (Throw _, p') =>
           match synchronize fuel p' with
           | Some p'' => parse_loop k fuel statements p''
           | None => None
           end
       | None => None
       end.
Proof. reflexivity. Qed.

Lemma at_end (p : Parser) (t : Token) (l : list Token) :
  rest p = t :: l -> type t = END_OF_FILE -> isAtEnd p = true.
Proof.
  intros H Ht. unfold isAtEnd. rewrite (peek_rest p t l H).
  now apply bool_decide_eq_true.
Qed.

Lemma statements_of_length (xs : list Token) :
  length (statements_of xs) = (2 * length xs)%nat.
Proof. induction xs as [|x xs IH]; simpl; [reflexivity|]. rewrite IH. lia. Qed.

(** The loop of [block] over identifier statements, up to the [}] or the
    end of file. *)
Lemma block_loop_statements (n m : nat) (t : Token) (l : list Token) :
  type t = RIGHT_BRACE \/ type t = END_OF_FILE ->
  forall (xs : list Token) (k : nat) (ss : list Stmt) (p : Parser),
    Forall (fun x => type x = IDENTIFIER) xs -> (length xs < k)%nat ->
    rest p = (statements_of xs ++ t :: l)%list ->
    exists p',
      block_loop k (declaration (S n) (statement (S (S m)))) ss p
        = Some (Return (ss ++ expression_statements xs)%list, p')
      /\ rest p' = t :: l /\ filename p' = filename p
      /\ diagnostics p' = diagnostics p.
Proof.
  intros Ht xs.
  induction xs as [|x xs IH]; intros k ss p Hxs Hk H;
    (destruct k as [|k]; [simpl in Hk; lia|]); cbn [block_loop].
  - exists p. cbn [statements_of flat_map app] in H.
    rewrite app_nil_r. split; [|auto].
    destruct Ht as [Ht|Ht].
    + now rewrite (check_hit RIGHT_BRACE p t l H Ht).
    + rewrite (at_end p t l H Ht). now rewrite andb_false_r.
  - inversion Hxs as [|x' xs' Hx Hrest]; subst.
    cbn [statements_of flat_map app] in H.
    rewrite (check_miss RIGHT_BRACE p x _ H) by congruence.
    rewrite (not_at_end p x _ H) by congruence. cbn [negb andb].
    destruct (identifier_statement m p x _ H Hx) as (Hrun & H2 & _ & Hf & Hd).
    destruct (IH k (ss ++ [ExpressionStmt (VariableExpr x)])%list
                (advance (advance p)) Hrest ltac:(simpl in Hk; lia) H2)
      as (p' & Hloop & Hr & Hf' & Hd').
    exists p'. split; [|repeat split; congruence].
    assert (Hdecl : declaration (S n) (statement (S (S m))) p
                    = Some (Return (ExpressionStmt (VariableExpr x)),
                            advance (advance p))).
    { unfold declaration. rewrite (match_miss VAR p x _ H) by congruence.
      cbn [statement]. unfold statement_body.
      now rewrite (match_miss IF p x _ H), (match_miss WHILE p x _ H),
        (match_miss PRINT p x _ H), (match_miss RETURN p x _ H),
        (match_miss LEFT_BRACE p x _ H) by congruence. }
    unfold bind. rewrite Hdecl, Hloop. cbn [expression_statements map].
    now rewrite <- app_assoc.
Qed.

(** The statement that a [{] starts is what [block] returns. *)
Lemma declaration_block (fuel : nat) (p : Parser) (lb : Token) (l : list Token) :
  rest p = lb :: l -> type lb = LEFT_BRACE ->
  declaration (S fuel) (statement (S fuel)) p
  = (statements <- block (S fuel) (statement fuel) ;;
     ret (BlockStmt statements)) (advance p).
Proof.
  intros H Hlb. unfold declaration.
  rewrite (match_miss VAR p lb l) by (auto; congruence).
  cbn [statement]. unfold statement_body.
  rewrite (match_miss IF p lb l), (match_miss WHILE p lb l),
    (match_miss PRINT p lb l), (match_miss RETURN p lb l)
    by (auto; congruence).
  now rewrite (match_hit LEFT_BRACE p lb l H Hlb).
Qed.

(** X22.  A block of statements is one statement: [{ x1; ...; xn; }] over
    identifiers is parsed into the block statement whose statements are the
    [n] expression statements, in their order, with no diagnostic. *)
Theorem block_of_statements (lb rb : Token) (xs : list Token) :
  type lb = LEFT_BRACE -> type rb = RIGHT_BRACE ->
  Forall (fun x => type x = IDENTIFIER) xs ->
  parse_outcome (lb :: statements_of xs ++ [rb; eof])
    = Some ([BlockStmt (expression_statements xs)], []).
Proof.
  intros Hlb Hrb Hxs.
  unfold parse_outcome, parse, fuel_for. cbn [tokens Parser_new length].
  set (toks := (statements_of xs ++ [rb; eof])%list).
  set (p := Parser_new (lb :: toks) "script").
  assert (Hlen : exists m, length toks = S (S m) /\ (length xs < S (S m))%nat).
  { exists (length (statements_of xs)). subst toks.
    rewrite length_app, statements_of_length. cbn [length]. split; lia. }
  destruct Hlen as (m & -> & Hm).
  assert (H : rest p = lb :: toks) by reflexivity.
  destruct (advance_rest p lb _ H) as (H1 & _ & _ & Hf1 & Hd1); [congruence|].
  destruct (block_loop_statements (S (S (S m))) (S m) rb [eof] (or_introl Hrb) xs
              (S (S (S (S m)))) [] (advance p) Hxs ltac:(lia) H1)
    as (p1 & Hloop & Hr1 & Hf2 & Hd2).
  destruct (advance_rest p1 rb _ Hr1) as (H2 & _ & _ & Hf3 & Hd3); [congruence|].
  cbn [parse_loop]. rewrite (not_at_end p lb _ H) by congruence.
  rewrite (declaration_block _ p lb _ H Hlb).
  unfold block, bind. rewrite Hloop.
  rewrite (consume_hit RIGHT_BRACE _ p1 rb _ Hr1 Hrb) by discriminate.
  unfold ret at 1 2. rewrite (at_end _ eof [] H2 eq_refl).
  cbn [fmap option_fmap option_map fst snd app]. now rewrite Hd3, Hd2, Hd1.
Qed.

Lemma block_of_statements_witness :
  parse_outcome (tok LEFT_BRACE "{" :: statements_of [ident "a"; ident "b"]
                 ++ [tok RIGHT_BRACE "}"; eof])
    = Some ([BlockStmt [ExpressionStmt (VariableExpr (ident "a"));
                        ExpressionStmt (VariableExpr (ident "b"))]], []).
Proof.
  apply (block_of_statements (tok LEFT_BRACE "{") (tok RIGHT_BRACE "}")
           [ident "a"; ident "b"]).
  - reflexivity.
  - reflexivity.
  - repeat constructor.
Defined.

(** X23.  A block that is not closed is lost with all its statements:
    [{ x1; ...; xn;] and the end of the file gives no statement at all, and
    one diagnostic, "Expect '}' after block at end of file", at the position
    of the end-of-file token. *)
Theorem unclosed_block_is_dropped (lb last : Token) (xs : list Token) :
  type lb = LEFT_BRACE -> type last = END_OF_FILE ->
  Forall (fun x => type x = IDENTIFIER) xs ->
  parse_outcome (lb :: statements_of xs ++ [last])
    = Some ([], [diagnostic_at "script" last "Expect '}' after block"]).
Proof.
  intros Hlb Hlast Hxs.
  unfold parse_outcome, parse, fuel_for. cbn [tokens Parser_new length].
  set (toks := (statements_of xs ++ [last])%list).
  set (p := Parser_new (lb :: toks) "script").
  assert (Hlen : exists m, length toks = S m /\ (length xs < S m)%nat).
  { exists (length (statements_of xs)). subst toks.
    rewrite length_app, statements_of_length. cbn [length]. split; lia. }
  destruct Hlen as (m & -> & Hm).
  assert (H : rest p = lb :: toks) by reflexivity.
  destruct (advance_rest p lb _ H) as (H1 & _ & _ & Hf1 & Hd1); [congruence|].
  destruct (block_loop_statements (S (S m)) m last [] (or_intror Hlast) xs
              (S (S (S m))) [] (advance p) Hxs ltac:(lia) H1)
    as (p1 & Hloop & Hr1 & Hf2 & Hd2).
  pose proof (at_end p1 last [] Hr1 Hlast) as Hend.
  set (d := diagnostic_at "script" last "Expect '}' after block").
  assert (Hdecl : declaration (S (S (S m))) (statement (S (S (S m)))) p
                  = Some (Throw (ParseError "Expect '}' after block"),
                          report d p1)).
  { rewrite (declaration_block _ p lb _ H Hlb).
    unfold block, bind. rewrite Hloop.
    unfold consume, check. rewrite Hend.
    unfold throw_error, error. rewrite (peek_rest p1 last [] Hr1).
    subst d. unfold diagnostic_at. now rewrite Hf2, Hf1. }
  assert (Hend2 : isAtEnd (report d p1) = true) by exact Hend.
  assert (Hsync : synchronize (S (S (S m))) (report d p1) = Some (report d p1)).
  { unfold synchronize, advance. rewrite Hend2. cbn [synchronize_loop].
    now rewrite Hend2. }
  rewrite parse_loop_step, (not_at_end p lb _ H), Hdecl, Hsync by congruence.
  rewrite parse_loop_step, Hend2.
  cbn [fmap option_fmap option_map fst snd report diagnostics].
  now rewrite Hd2, Hd1.
Qed.

Lemma unclosed_block_is_dropped_witness :
  parse_outcome (tok LEFT_BRACE "{" :: statements_of [ident "a"; ident "b"]
                 ++ [eof])
    = Some ([], [diagnostic_at "script" eof "Expect '}' after block"]).
Proof.
  apply (unclosed_block_is_dropped (tok LEFT_BRACE "{") eof
           [ident "a"; ident "b"]).
  - reflexivity.
  - reflexivity.
  - repeat constructor.
Defined.


(** *** The [else] of nested [if]s *)

Lemma statement_identifier (fuel : nat) (p : Parser) (x : Token) (l : list Token) :
  rest p = x :: semi :: l -> type x = IDENTIFIER ->
  statement (S (S fuel)) p
  = Some (Return (ExpressionStmt (VariableExpr x)), advance (advance p)).
Proof.
  intros H Hx. cbn [statement]. unfold statement_body.
  rewrite (match_miss IF p x _ H), (match_miss WHILE p x _ H),
    (match_miss PRINT p x _ H), (match_miss RETURN p x _ H),
    (match_miss LEFT_BRACE p x _ H) by congruence.
  now destruct (identifier_statement fuel p x l H Hx) as (-> & _).
Qed.

(** [if (c)] before a statement: up to the statement. *)
Lemma if_head (fuel : nat) (statement : M Stmt) (p : Parser) (c : Token)
  (l : list Token) :
  rest p = tok IF "if" :: tok LEFT_PAREN "(" :: c :: tok RIGHT_PAREN ")" :: l ->
  type c = IDENTIFIER ->
  exists p1,
    rest p1 = l
    /\ statement_body (S (S fuel)) statement p
       = (thenBranch <- statement ;;
          fun p =>
            let '(b, p) := match_ ELSE p in
            if b then (elseBranch <- statement ;;
                       ret (IfStmt (VariableExpr c) thenBranch (Some elseBranch))) p
            else ret (IfStmt (VariableExpr c) thenBranch None) p) p1.
Proof.
  intros H Hc.
  destruct (advance_rest p _ _ H) as (H1 & _); [discriminate|].
  destruct (advance_rest _ _ _ H1) as (H2 & _); [discriminate|].
  destruct (advance_rest _ _ _ H2) as (H3 & _); [congruence|].
  destruct (advance_rest _ _ _ H3) as (H4 & _); [discriminate|].
  exists (advance (advance (advance (advance p)))). split; [exact H4|].
  unfold statement_body.
  rewrite (match_hit IF p _ _ H eq_refl) by discriminate.
  unfold ifStatement, bind at 1.
  rewrite (consume_hit LEFT_PAREN _ _ _ _ H1 eq_refl) by discriminate.
  unfold bind at 1.
  rewrite (expression_identifier fuel _ c _ _ H2 Hc eq_refl).
  unfold bind at 1.
  now rewrite (consume_hit RIGHT_PAREN _ _ _ _ H3 eq_refl) by discriminate.
Qed.

Lemma nested_ifs_run (c x y t : Token) (l : list Token) :
  type c = IDENTIFIER -> type x = IDENTIFIER -> type y = IDENTIFIER ->
  type t <> ELSE ->
  forall (cs : list Token) (fuel : nat) (p : Parser),
    Forall (fun c => type c = IDENTIFIER) cs ->
    rest p = (if_heads (cs ++ [c])
              ++ x :: semi :: tok ELSE "else" :: y :: semi :: t :: l)%list ->
    exists p',
      statement (S (S (S (length cs + fuel)))) p
      = Some (Return (nested_ifs cs
                        (IfStmt (VariableExpr c)
                           (ExpressionStmt (VariableExpr x))
                           (Some (ExpressionStmt (VariableExpr y))))), p')
      /\ rest p' = t :: l.
Proof.
  intros Hc Hx Hy Ht cs.
  induction cs as [|c0 cs IH]; intros fuel p Hcs H.
  - cbn [app if_heads flat_map length Nat.add] in *.
    destruct (if_head (S fuel) (statement (S (S fuel))) p c _ H Hc)
      as (p1 & H1 & Hrun).
    destruct (advance_rest p1 _ _ H1) as (H2 & _); [congruence|].
    destruct (advance_rest _ _ _ H2) as (H3 & _); [discriminate|].
    destruct (advance_rest _ _ _ H3) as (H4 & _); [discriminate|].
    destruct (advance_rest _ _ _ H4) as (H5 & _); [congruence|].
    destruct (advance_rest _ _ _ H5) as (H6 & _); [discriminate|].
    eexists. split; [|exact H6].
    change (statement (S (S (S fuel))))
      with (statement_body (S (S (S fuel))) (statement (S (S fuel)))).
    rewrite Hrun. unfold bind at 1.
    rewrite (statement_identifier fuel p1 x _ H1 Hx).
    rewrite (match_hit ELSE _ _ _ H3 eq_refl) by discriminate.
    unfold bind.
    now rewrite (statement_identifier fuel _ y _ H4 Hy).
  - inversion Hcs as [|c' cs' Hc0 Hrest]; subst.
    cbn [app if_heads flat_map length Nat.add] in *.
    destruct (if_head (S (S (length cs + fuel)))
                (statement (S (S (S (length cs + fuel))))) p c0 _ H Hc0)
      as (p1 & H1 & Hrun).
    destruct (IH fuel p1 Hrest H1) as (p' & Hinner & Hr).
    exists p'. split; [|exact Hr].
    change (statement (S (S (S (S (length cs + fuel))))))
      with (statement_body (S (S (S (S (length cs + fuel)))))
              (statement (S (S (S (length cs + fuel)))))).
    rewrite Hrun. unfold bind. rewrite Hinner.
    now rewrite (match_miss ELSE p' t l Hr Ht).
Qed.

Lemma if_heads_length (cs : list Token) :
  length (if_heads cs) = (4 * length cs)%nat.
Proof. induction cs as [|c cs IH]; simpl; [reflexivity|]. rewrite IH. lia. Qed.

(** X24.  An [else] belongs to the nearest [if]: in
    [if (c1) ... if (cn) if (c) x; else y;] the innermost [if] gets the
    [else] branch and every [if] around it has none. *)
Theorem else_binds_to_nearest_if (cs : list Token) (c x y : Token) :
  Forall (fun c => type c = IDENTIFIER) cs ->
  type c = IDENTIFIER -> type x = IDENTIFIER -> type y = IDENTIFIER ->
  parsed (prog_dangling_else cs c x y)
  = Some [nested_ifs cs
            (IfStmt (VariableExpr c) (ExpressionStmt (VariableExpr x))
               (Some (ExpressionStmt (VariableExpr y))))].
Proof.
  intros Hcs Hc Hx Hy.
  unfold parsed, parse, fuel_for. cbn [tokens Parser_new].
  set (p := Parser_new (prog_dangling_else cs c x y) "script").
  assert (Hlen : exists f,
            length (prog_dangling_else cs c x y)
            = S (S (S (length cs + f)))).
  { exists (3 * length cs + 7)%nat. unfold prog_dangling_else.
    rewrite length_app, if_heads_length, length_app. cbn [length]. lia. }
  destruct Hlen as (f & ->).
  assert (H : rest p = (if_heads (cs ++ [c])
              ++ x :: semi :: tok ELSE "else" :: y :: semi :: eof :: [])%list)
    by reflexivity.
  destruct (nested_ifs_run c x y eof [] Hc Hx Hy ltac:(discriminate) cs
              (S f) p Hcs) as (p' & Hrun & Hr).
  { exact H. }
  assert (Hfirst : exists l, rest p = tok IF "if" :: l).
  { rewrite H. destruct cs; cbn; eauto. }
  destruct Hfirst as (l & Hl).
  rewrite parse_loop_step, (not_at_end p _ _ Hl) by discriminate.
  unfold declaration. rewrite (match_miss VAR p _ _ Hl) by discriminate.
  replace (S (S (S (S (length cs + f)))))
    with (S (S (S (length cs + S f)))) by lia.
  rewrite Hrun, parse_loop_step, (at_end p' eof [] Hr eq_refl).
  reflexivity.
Qed.

Lemma else_binds_to_nearest_if_witness :
  parsed (prog_dangling_else [ident "a"] (ident "b") (ident "x") (ident "y"))
  = Some [IfStmt (VariableExpr (ident "a"))
            (IfStmt (VariableExpr (ident "b"))
               (ExpressionStmt (VariableExpr (ident "x")))
               (Some (ExpressionStmt (VariableExpr (ident "y")))))
            None].
Proof.
  apply (else_binds_to_nearest_if [ident "a"] (ident "b") (ident "x")
           (ident "y")).
  - repeat constructor.
  - reflexivity.
  - reflexivity.
  - reflexivity.
Defined.

End ParserMore.

(** ** No integer comes out of the parser *)

Module LiteralKinds.
Import Parser.

Ltac back P E :=
  match type of E with
  | ?m ?q = Some (Return ?a, ?p') =>
      change (P a); apply ((fun (H : yields P m) => H q a p' E))
  end.

Ltac cases E :=
  cbv beta zeta in E;
  repeat match type of E with
         | context [match_ ?t ?q] =>
             destruct (match_ t q) as [[] ?]; cbv beta match zeta in E
         | context [match_any ?t ?q] =>
             destruct (match_any t q) as [[] ?]; cbv beta match zeta in E
         end.

Lemma yields_ret {A} (P : A -> Prop) (a : A) : P a -> yields P (ret a).
Proof. intros H p a' p' E. injection E as <- _. exact H. Qed.

Lemma yields_bind {A B} (Q : A -> Prop) (P : B -> Prop) (m : M A) (f : A -> M B) :
  yields Q m -> (forall a, Q a -> yields P (f a)) -> yields P (bind m f).
Proof.
  intros Hm Hf p b p' E. unfold bind in E.
  destruct (m p) as [[[a|e] p1]|] eqn:Em; try discriminate.
  exact (Hf a (Hm p a p1 Em) p1 b p' E).
Qed.

Lemma yields_any {A} (m : M A) : yields (fun _ => True) m.
Proof. now intros p a p' _. Qed.

Lemma yields_throw_error {A} (P : A -> Prop) (t : Token) (msg : string) :
  yields P (throw_error t msg).
Proof. intros p a p' E. discriminate. Qed.

Lemma primary_ok (expression : M Expr) :
  yields expr_ok expression -> yields expr_ok (primary expression).
Proof.
  intros He p a p' E. unfold primary in E. cases E;
    try (injection E as <- _; reflexivity).
  - destruct (stod _); [discriminate|]. now injection E as <- _.
  - back expr_ok E. apply (yields_bind expr_ok); [exact He|]. intros e Hok.
    apply (yields_bind (fun _ => True)); [apply yields_any|]. intros _ _.
    now apply yields_ret.
  - discriminate.
Qed.

Lemma arguments_loop_ok (expression : M Expr) :
  yields expr_ok expression ->
  forall k arguments, args_ok arguments ->
    yields args_ok (arguments_loop k expression arguments).
Proof.
  intros He. induction k as [|k IH]; intros arguments Hargs p a p' E;
    [discriminate|].
  cbn [arguments_loop] in E. cbv zeta in E.
  back args_ok E. apply (yields_bind expr_ok); [exact He|]. intros arg Harg.
  assert (Hall : args_ok (arguments ++ [arg])).
  { unfold args_ok in *. rewrite forallb_app, Hargs. cbn. now rewrite Harg. }
  intros q b q' E2. cases E2.
  - exact (IH _ Hall _ _ _ E2).
  - now injection E2 as <- _.
Qed.

Lemma finishCall_ok (fuel : nat) (expression : M Expr) (callee : Expr) :
  yields expr_ok expression -> expr_ok callee ->
  yields expr_ok (finishCall fuel expression callee).
Proof.
  intros He Hc p a p' E. unfold finishCall in E.
  back expr_ok E. apply (yields_bind args_ok).
  - destruct (negb _); [now apply arguments_loop_ok|now apply yields_ret].
  - intros args Hargs. apply (yields_bind (fun _ => True)); [apply yields_any|].
    intros paren _. apply yields_ret. unfold expr_ok in *. cbn [int_free].
    now rewrite Hc, Hargs.
Qed.

Lemma call_loop_ok (fuel : nat) (expression : M Expr) :
  yields expr_ok expression ->
  forall k e, expr_ok e -> yields expr_ok (call_loop k fuel expression e).
Proof.
  intros He. induction k as [|k IH]; intros e Hok p a p' E; [discriminate|].
  cbn [call_loop] in E. cases E.
  - back expr_ok E. apply (yields_bind expr_ok); [now apply finishCall_ok|].
    exact (IH).
  - now injection E as <- _.
Qed.

Lemma call_ok (fuel : nat) (expression : M Expr) :
  yields expr_ok expression -> yields expr_ok (call fuel expression).
Proof.
  intros He. apply (yields_bind expr_ok); [now apply primary_ok|].
  now apply call_loop_ok.
Qed.

Lemma unary_rec_ok (call : M Expr) :
  yields expr_ok call -> forall k, yields expr_ok (unary_rec k call).
Proof.
  intros Hc. induction k as [|k IH]; intros p a p' E; [discriminate|].
  cbn [unary_rec] in E. cases E.
  - back expr_ok E. apply (yields_bind expr_ok); [exact IH|].
    intros r Hr. now apply yields_ret.
  - exact (Hc _ _ _ E).
Qed.

Lemma binary_loop_ok (ops : list TokenType) (operand : M Expr) :
  yields expr_ok operand ->
  forall k e, expr_ok e -> yields expr_ok (binary_loop k ops operand e).
Proof.
  intros Hop. induction k as [|k IH]; intros e Hok p a p' E; [discriminate|].
  cbn [binary_loop] in E. cases E.
  - back expr_ok E. apply (yields_bind expr_ok); [exact Hop|].
    intros r Hr. apply IH. unfold expr_ok in *. cbn [int_free].
    now rewrite Hok, Hr.
  - now injection E as <- _.
Qed.

Lemma level_ok (i fuel : nat) (expression : M Expr) :
  yields expr_ok expression -> yields expr_ok (level i fuel expression).
Proof.
  intros He. induction i as [|i IH]; cbn [level].
  - now apply unary_rec_ok, call_ok.
  - apply (yields_bind expr_ok); [exact IH|]. now apply binary_loop_ok.
Qed.

Lemma assignment_ok (fuel : nat) (expression : M Expr) :
  yields expr_ok expression -> yields expr_ok (assignment fuel expression).
Proof.
  intros He. apply (yields_bind expr_ok); [now apply (level_ok 6)|].
  intros e Hok p a p' E. cases E.
  - back expr_ok E. apply (yields_bind expr_ok); [exact He|].
    intros v Hv q b q' E2. destruct e; injection E2 as <- _; auto.
  - now injection E as <- _.
Qed.

Lemma expression_ok (fuel : nat) : yields expr_ok (expression fuel).
Proof.
  induction fuel as [|fuel IH]; [intros p a p' E; discriminate|].
  cbn [expression]. now apply assignment_ok.
Qed.

Lemma expression_then_semicolon (fuel : nat) (msg : string) :
  yields stmt_ok
    (bind (expression fuel)
       (fun e => bind (consume SEMICOLON msg) (fun _ => ret (ExpressionStmt e)))).
Proof.
  apply (yields_bind expr_ok); [apply expression_ok|]. intros e Hok.
  apply (yields_bind (fun _ => True)); [apply yields_any|]. intros _ _.
  now apply yields_ret.
Qed.

Lemma optional_expression_ok (fuel : nat) :
  yields (fun o => int_free_option o = true)
    (bind (expression fuel) (fun e => ret (Some e))).
Proof.
  apply (yields_bind expr_ok); [apply expression_ok|]. intros e Hok.
  now apply yields_ret.
Qed.

Lemma returnStatement_ok (fuel : nat) : yields stmt_ok (returnStatement fuel).
Proof.
  intros p a p' E. unfold returnStatement in E. cbv zeta in E.
  back stmt_ok E.
  apply (yields_bind (fun o => int_free_option o = true)).
  - destruct (negb _); [apply optional_expression_ok|now apply yields_ret].
  - intros o Ho. apply (yields_bind (fun _ => True)); [apply yields_any|].
    intros _ _. now apply yields_ret.
Qed.

Lemma varDeclaration_ok (fuel : nat) (is_const : bool) :
  yields stmt_ok (varDeclaration fuel is_const).
Proof.
  apply (yields_bind (fun _ => True)); [apply yields_any|]. intros name _.
  apply (yields_bind (fun o => int_free_option o = true)).
  - intros p a p' E. cases E.
    + exact (optional_expression_ok fuel _ _ _ E).
    + destruct is_const; [discriminate|now injection E as <- _].
  - intros o Ho. apply (yields_bind (fun _ => True)); [apply yields_any|].
    intros _ _. now apply yields_ret.
Qed.

Lemma declaration_ok (fuel : nat) (statement : M Stmt) :
  yields stmt_ok statement -> yields stmt_ok (declaration fuel statement).
Proof.
  intros Hs p a p' E. unfold declaration in E. cases E.
  - exact (varDeclaration_ok fuel false _ _ _ E).
  - exact (Hs _ _ _ E).
Qed.

Lemma ifStatement_ok (fuel : nat) (statement : M Stmt) :
  yields stmt_ok statement -> yields stmt_ok (ifStatement fuel statement).
Proof.
  intros Hs.
  apply (yields_bind (fun _ => True)); [apply yields_any|]. intros _ _.
  apply (yields_bind expr_ok); [apply expression_ok|]. intros c Hc.
  apply (yields_bind (fun _ => True)); [apply yields_any|]. intros _ _.
  apply (yields_bind stmt_ok); [exact Hs|]. intros t Ht.
  intros p a p' E. cases E.
  - back stmt_ok E. apply (yields_bind stmt_ok); [exact Hs|]. intros e He.
    apply yields_ret. unfold stmt_ok, expr_ok in *. cbn [int_free_stmt].
    now rewrite Hc, Ht, He.
  - injection E as <- _. unfold stmt_ok, expr_ok in *. cbn [int_free_stmt].
    now rewrite Hc, Ht.
Qed.

Lemma whileStatement_ok (fuel : nat) (statement : M Stmt) :
  yields stmt_ok statement -> yields stmt_ok (whileStatement fuel statement).
Proof.
  intros Hs.
  apply (yields_bind (fun _ => True)); [apply yields_any|]. intros _ _.
  apply (yields_bind expr_ok); [apply expression_ok|]. intros c Hc.
  apply (yields_bind (fun _ => True)); [apply yields_any|]. intros _ _.
  apply (yields_bind stmt_ok); [exact Hs|]. intros b Hb.
  apply yields_ret. unfold stmt_ok, expr_ok in *. cbn [int_free_stmt].
  now rewrite Hc, Hb.
Qed.

Lemma stmts_ok_snoc (ss : list Stmt) (s : Stmt) :
  stmts_ok ss -> stmt_ok s -> stmts_ok (ss ++ [s]).
Proof.
  unfold stmts_ok, stmt_ok. intros Hss Hs. rewrite forallb_app, Hss. cbn.
  now rewrite Hs.
Qed.

Lemma block_loop_ok (declaration : M Stmt) :
  yields stmt_ok declaration ->
  forall k ss, stmts_ok ss -> yields stmts_ok (block_loop k declaration ss).
Proof.
  intros Hd. induction k as [|k IH]; intros ss Hss p a p' E; [discriminate|].
  cbn [block_loop] in E. destruct (_ && _).
  - back stmts_ok E. apply (yields_bind stmt_ok); [exact Hd|]. intros s Hs.
    now apply IH, stmts_ok_snoc.
  - now injection E as <- _.
Qed.

Lemma block_ok (fuel : nat) (statement : M Stmt) :
  yields stmt_ok statement -> yields stmts_ok (block fuel statement).
Proof.
  intros Hs. apply (yields_bind stmts_ok).
  - apply block_loop_ok; [now apply declaration_ok|reflexivity].
  - intros ss Hss. apply (yields_bind (fun _ => True)); [apply yields_any|].
    intros _ _. now apply yields_ret.
Qed.

Lemma statement_body_ok (fuel : nat) (statement : M Stmt) :
  yields stmt_ok statement -> yields stmt_ok (statement_body fuel statement).
Proof.
  intros Hs p a p' E. unfold statement_body in E. cases E.
  - exact (ifStatement_ok fuel statement Hs _ _ _ E).
  - exact (whileStatement_ok fuel statement Hs _ _ _ E).
  - exact (expression_then_semicolon fuel _ _ _ _ E).
  - exact (returnStatement_ok fuel _ _ _ E).
  - back stmt_ok E. apply (yields_bind stmts_ok); [now apply block_ok|].
    intros ss Hss. now apply yields_ret.
  - exact (expression_then_semicolon fuel _ _ _ _ E).
Qed.

Lemma statement_ok (fuel : nat) : yields stmt_ok (statement fuel).
Proof.
  induction fuel as [|fuel IH]; [intros p a p' E; discriminate|].
  cbn [statement]. now apply statement_body_ok.
Qed.

Lemma parse_loop_ok (fuel : nat) :
  forall (k : nat) (ss ss' : list Stmt) (p p' : Parser),
    stmts_ok ss -> parse_loop k fuel ss p = Some (ss', p') -> stmts_ok ss'.
Proof.
  induction k as [|k IH]; intros ss ss' p p' Hss E; [discriminate|].
  cbn [parse_loop] in E. destruct (isAtEnd p); [now injection E as <- _|].
  destruct (declaration fuel (statement fuel) p) as [[[s|e] p1]|] eqn:Ed;
    [| |discriminate].
  - apply (IH _ _ _ _ (stmts_ok_snoc ss s Hss
             (declaration_ok fuel _ (statement_ok fuel) _ _ _ Ed)) E).
  - destruct (synchronize fuel p1); [|discriminate]. exact (IH _ _ _ _ Hss E).
Qed.

Lemma parsed_ok (toks : list Token) (stmts : list Stmt) :
  parsed toks = Some stmts -> stmts_ok stmts.
Proof.
  unfold parsed, parse. intros E.
  destruct (parse_loop _ _ _ _) as [[ss p']|] eqn:Ep; [|discriminate].
  injection E as <-. now apply (parse_loop_ok _ _ [] ss _ p' eq_refl Ep).
Qed.

(** X25.  Whatever the tokens and wherever the cursor stands, no statement
    that [parse] returns has an [int] literal in it: the integer and the
    float literals alike come out of [std::stod] as [double]s, and nothing
    else makes a literal of a number. *)
Theorem parse_makes_no_integer_literal (p p' : Parser) (stmts : list Stmt) :
  parse p = Some (stmts, p') -> forallb int_free_stmt stmts = true.
Proof.
  unfold parse. intros E.
  now apply (parse_loop_ok (fuel_for p) (fuel_for p) [] stmts p p').
Qed.

Lemma parse_makes_no_integer_literal_witness :
  parse (Parser_new prog_integer_literals "script")
  = Some ([ExpressionStmt
             (BinaryExpr (LiteralExpr (VDouble 1)) (tok PLUS "+")
                (LiteralExpr (VDouble 2)));
           ExpressionStmt
             (CallExpr (VariableExpr (ident "print")) (tok RIGHT_PAREN ")")
                [LiteralExpr (VDouble 3)])],
          mkParser prog_integer_literals "script" 9 [])
  /\ forallb int_free_stmt
       [ExpressionStmt
          (BinaryExpr (LiteralExpr (VDouble 1)) (tok PLUS "+")
             (LiteralExpr (VDouble 2)));
        ExpressionStmt
          (CallExpr (VariableExpr (ident "print")) (tok RIGHT_PAREN ")")
             [LiteralExpr (VDouble 3)])] = true.
Proof.
  split; [vm_compute; reflexivity|].
  apply (parse_makes_no_integer_literal
           (Parser_new prog_integer_literals "script")
           (mkParser prog_integer_literals "script" 9 [])).
  vm_compute. reflexivity.
Defined.

End LiteralKinds.

(** ** No integer in the run of a parsed program *)

Module IntegerFreeRuns.
Import Interpreter.

Lemma carries_bind {A B} (Q : A -> Interpreter -> Prop)
  (P : B -> Interpreter -> Prop) (m : I A) (f : A -> I B) :
  carries Q m ->
  (forall a st, Q a st -> int_free_state st ->
     int_free_state (snd (f a st))
     /\ forall b, fst (f a st) = Return b -> P b (snd (f a st))) ->
  carries P (bind m f).
Proof.
  intros Hm Hf st Hst. unfold bind. destruct (Hm st Hst) as [H1 H2].
  destruct (m st) as [[a|e] st1]; cbn [fst snd] in *.
  - now apply Hf; [apply H2|].
  - split; [exact H1|discriminate].
Qed.

Lemma carries_bind_at {A B} (Q : A -> Interpreter -> Prop)
  (P : B -> Interpreter -> Prop) (m : I A) (f : A -> I B) (st : Interpreter) :
  carries Q m ->
  (forall a st, Q a st -> int_free_state st ->
     int_free_state (snd (f a st))
     /\ forall b, fst (f a st) = Return b -> P b (snd (f a st))) ->
  int_free_state st ->
  int_free_state (snd (bind m f st))
  /\ forall b, fst (bind m f st) = Return b -> P b (snd (bind m f st)).
Proof. intros Hm Hf. now apply carries_bind with (Q := Q). Qed.

Lemma carries_weaken {A} (Q P : A -> Interpreter -> Prop) (m : I A) :
  (forall a st, Q a st -> P a st) -> carries Q m -> carries P m.
Proof.
  intros HQP Hm st Hst. destruct (Hm st Hst) as [H1 H2]. split; [exact H1|].
  intros a Ha. now apply HQP, H2.
Qed.

Lemma evaluate_by_carries (m : I unit) :
  carries last_no_int m -> carries value_no_int (evaluate_by m).
Proof.
  intros Hm. apply (carries_bind last_no_int); [exact Hm|].
  intros u st Hlast Hst. split; [exact Hst|].
  intros v E. injection E as <-. now split.
Qed.

Lemma set_lastValue_state (v : Value) (st : Interpreter) :
  int_free_state st -> int_free_state (snd (set_lastValue v st)).
Proof. now intros [Hv Hc]. Qed.

Lemma store_state (name : string) (v : Value) (st : Interpreter) :
  no_int v = true -> int_free_state st ->
  int_free_state (snd (store name v st)).
Proof.
  intros Hn [Hv Hc]. split; [|exact Hc].
  cbn [store snd variables]. now apply map_Forall_insert_2.
Qed.

Lemma print_value_state (v : Value) (st : Interpreter) :
  no_int v = true -> int_free_state st ->
  int_free_state (snd (print_value v st)).
Proof.
  intros Hn [Hv Hc]. split; [now destruct v|].
  destruct v as [n|d|s|b|]; try discriminate;
    cbn [print_value write snd cout]; rewrite forallb_app, Hc; reflexivity.
Qed.

Lemma binary_op_no_int (op : TokenType) (l r v : Value) :
  no_int l = true -> no_int r = true -> binary_op op l r = Return v ->
  no_int v = true.
Proof.
  intros Hl Hr.
  destruct l as [a|a|a|a|]; try discriminate;
    destruct r as [b|b|b|b|]; try discriminate;
    destruct op; cbn; try discriminate;
    try (intros E; injection E as <-; reflexivity);
    destruct (b =? 0)%float; try discriminate;
    intros E; injection E as <-; reflexivity.
Qed.

Lemma unary_op_carries (op : TokenType) (v : Value) (st : Interpreter) :
  no_int v = true -> no_int (lastValue st) = true -> int_free_state st ->
  int_free_state (snd (unary_op op v st))
  /\ forall u, fst (unary_op op v st) = Return u ->
               last_no_int u (snd (unary_op op v st)).
Proof.
  intros Hv Hl Hst. unfold last_no_int.
  destruct v as [n|d|s|b|]; try discriminate; destruct op; cbn;
    (split; [exact Hst|]); intros u E; try discriminate; auto.
Qed.

Lemma accept_carries (e : Expr) :
  int_free e = true -> carries last_no_int (accept e).
Proof.
  induction e as [v|op r IHr|l op r IHl IHr|e IHe|name|name v IHv
                  |callee paren args _ IHargs]
    using InterpreterFacts.Expr_nested_ind; cbn [int_free accept]; intros Hfree.
  - intros st Hst. split; [now apply set_lastValue_state|]. now intros [] _.
  - apply (carries_bind value_no_int);
      [now apply evaluate_by_carries, IHr|].
    intros v st [Hv Hl] Hst. now apply unary_op_carries.
  - apply andb_prop in Hfree as [Hfl Hfr].
    apply (carries_bind value_no_int);
      [now apply evaluate_by_carries, IHl|].
    intros lv st1 [Hlv _] Hst1.
    apply (carries_bind_at value_no_int last_no_int (evaluate_by (accept r)));
      [now apply evaluate_by_carries, IHr| |exact Hst1].
    intros rv st2 [Hrv _] Hst2.
    destruct (binary_op (type op) lv rv) as [v|x] eqn:E.
    + split; [now apply set_lastValue_state|]. intros [] _.
      exact (binary_op_no_int _ _ _ _ Hlv Hrv E).
    + split; [exact Hst2|discriminate].
  - apply (carries_bind value_no_int);
      [now apply evaluate_by_carries, IHe|].
    intros v st [Hv _] Hst. split; [now apply set_lastValue_state|].
    now intros [] _.
  - intros st Hst. destruct (variables st !! lexeme name) as [v|] eqn:E.
    + split; [now apply set_lastValue_state|]. intros [] _.
      destruct Hst as [Hvars _]. exact (Hvars _ _ E).
    + split; [exact Hst|discriminate].
  - apply (carries_bind value_no_int);
      [now apply evaluate_by_carries, IHv|].
    intros u st [Hu _] Hst.
    apply (carries_bind_at (fun _ _ => True) last_no_int (store (lexeme name) u));
      [| |exact Hst].
    + intros st' Hst'. split; [now apply store_state|auto].
    + intros _ st' _ Hst'. split; [now apply set_lastValue_state|].
      now intros [] _.
  - apply andb_prop in Hfree as [_ Hargs].
    assert (Hthrow : forall what, carries (@last_no_int unit) (throw what))
      by (intros what st Hst; split; [exact Hst|discriminate]).
    destruct callee; try apply Hthrow.
    destruct (String.eqb (lexeme name) "print"); [|apply Hthrow].
    apply (carries_bind (fun _ _ => True)).
    + induction IHargs as [|a args Ha _ IH].
      * intros st Hst. now split.
      * cbn [forallb] in Hargs. apply andb_prop in Hargs as [Hfa Hfargs].
        apply (carries_bind value_no_int);
          [now apply evaluate_by_carries, Ha|].
        intros v st [Hv _] Hst.
        apply (carries_bind_at (fun _ _ => True) (fun _ _ => True)
                 (print_value v)); [| |exact Hst].
        -- intros st' Hst'. split; [now apply print_value_state|auto].
        -- intros _ st' _ Hst'. now apply IH.
    + intros _ st _ Hst. split; [now apply set_lastValue_state|].
      now intros [] _.
Qed.

Lemma evaluate_carries (e : Expr) :
  int_free e = true -> carries value_no_int (evaluate e).
Proof. intros H. now apply evaluate_by_carries, accept_carries. Qed.

Lemma execute_carries (s : Stmt) :
  int_free_stmt s = true -> carries (fun _ _ => True) (execute s).
Proof.
  assert (Hret : forall A (a : A), carries (fun _ _ => True) (ret a))
    by (intros A a st Hst; now split).
  induction s as [e|name init c|ss IHss|c t IHt|c t e IHt IHe|c b|k v|name]
    using InterpreterFacts.Stmt_nested_ind; cbn [int_free_stmt execute];
    intros Hfree; try apply Hret.
  - apply (carries_bind value_no_int); [now apply evaluate_carries|].
    intros v st _ Hst. split; [now apply set_lastValue_state|auto].
  - apply (carries_bind (fun v _ => no_int v = true)).
    + destruct init as [e|].
      * apply (carries_weaken value_no_int); [now intros v st []|].
        now apply evaluate_carries.
      * intros st Hst. split; [exact Hst|]. now intros v [= <-].
    + intros v st Hv Hst.
      apply (carries_bind_at (fun _ _ => True) (fun _ _ => True)
               (store (lexeme name) v)); [| |exact Hst].
      * intros st' Hst'. split; [now apply store_state|auto].
      * intros _ st' _ Hst'. split; [now apply set_lastValue_state|auto].
  - induction IHss as [|s ss Hs _ IH]; [apply Hret|].
    cbn [forallb] in Hfree. apply andb_prop in Hfree as [Hfs Hfss].
    apply (carries_bind (fun _ _ => True)); [now apply Hs|].
    intros _ st _ Hst. now apply IH.
  - apply andb_prop in Hfree as [Hfree _].
    apply andb_prop in Hfree as [Hc Ht].
    apply (carries_bind value_no_int); [now apply evaluate_carries|].
    intros v st _ Hst.
    apply (carries_bind_at (fun _ _ => True) (fun _ _ => True)
             (match v with
                   | VBool b => ret b
                   | VInt n => ret (negb (n =? 0))
                   | _ => throw "Invalid condition in if statement"
                   end)); [| |exact Hst].
    + intros st' Hst'. destruct v; (split; [exact Hst'|auto]).
    + intros [] st' _ Hst'; [now apply IHt|now apply Hret].
  - apply andb_prop in Hfree as [Hfree He].
    apply andb_prop in Hfree as [Hc Ht].
    apply (carries_bind value_no_int); [now apply evaluate_carries|].
    intros v st _ Hst.
    apply (carries_bind_at (fun _ _ => True) (fun _ _ => True)
             (match v with
                   | VBool b => ret b
                   | VInt n => ret (negb (n =? 0))
                   | _ => throw "Invalid condition in if statement"
                   end)); [| |exact Hst].
    + intros st' Hst'. destruct v; (split; [exact Hst'|auto]).
    + intros [] st' _ Hst'; [now apply IHt|now apply IHe].
Qed.

Lemma interpret_carries (statements : list Stmt) :
  forallb int_free_stmt statements = true ->
  carries (fun _ _ => True) (interpret statements).
Proof.
  induction statements as [|s ss IH]; cbn [forallb interpret]; intros Hfree.
  - intros st Hst. now split.
  - apply andb_prop in Hfree as [Hs Hss].
    apply (carries_bind (fun _ _ => True)); [now apply execute_carries|].
    intros _ st _ Hst. now apply IH.
Qed.

(** X26.  Statements without an [int] literal, run by an interpreter none of
    whose variables holds an [int] and that has written none: afterwards,
    whether the run ended or threw, still no variable holds an [int] and no
    [int] has been written.  No operator makes an [int] of operands that are
    none. *)
Theorem integers_come_from_literals (statements : list Stmt) (st : Interpreter) :
  forallb int_free_stmt statements = true -> int_free_state st ->
  int_free_state (snd (interpret statements st)).
Proof. intros Hfree Hst. now apply interpret_carries. Qed.

Lemma new_state : int_free_state Interpreter_new.
Proof. split; [apply map_Forall_empty|reflexivity]. Qed.

Lemma integers_come_from_literals_witness :
  int_free_state
    (snd (interpret
            [VarDeclStmt (ident "x") (Some (LiteralExpr (VDouble 1))) false;
             ExpressionStmt
               (CallExpr (VariableExpr (ident "print")) (tok RIGHT_PAREN ")")
                  [BinaryExpr (VariableExpr (ident "x")) (tok PLUS "+")
                     (VariableExpr (ident "x"))])]
            Interpreter_new)).
Proof.
  apply (integers_come_from_literals
           [VarDeclStmt (ident "x") (Some (LiteralExpr (VDouble 1))) false;
            ExpressionStmt
              (CallExpr (VariableExpr (ident "print")) (tok RIGHT_PAREN ")")
                 [BinaryExpr (VariableExpr (ident "x")) (tok PLUS "+")
                    (VariableExpr (ident "x"))])]
           Interpreter_new).
  - reflexivity.
  - split; [apply map_Forall_empty|reflexivity].
Defined.

(** X27.  The run of a parsed program has no integer in it: whatever the
    tokens, after parsing them and interpreting what was parsed from a fresh
    interpreter, no variable holds an [int] and nothing was written to the
    standard output as an [int] (numbers are written as [double]s). *)
Theorem parsed_program_runs_without_integers (toks : list Token)
  (stmts : list Stmt) :
  parsed toks = Some stmts ->
  int_free_state (snd (interpret stmts Interpreter_new)).
Proof.
  intros Hparsed. apply interpret_carries; [|apply new_state].
  exact (LiteralKinds.parsed_ok toks stmts Hparsed).
Qed.

Lemma parsed_program_runs_without_integers_witness :
  parsed prog_integer_literals
  = Some [ExpressionStmt
            (BinaryExpr (LiteralExpr (VDouble 1)) (tok PLUS "+")
               (LiteralExpr (VDouble 2)));
          ExpressionStmt
            (CallExpr (VariableExpr (ident "print")) (tok RIGHT_PAREN ")")
               [LiteralExpr (VDouble 3)])]
  /\ int_free_state
       (snd (interpret
               [ExpressionStmt
                  (BinaryExpr (LiteralExpr (VDouble 1)) (tok PLUS "+")
                     (LiteralExpr (VDouble 2)));
                ExpressionStmt
                  (CallExpr (VariableExpr (ident "print")) (tok RIGHT_PAREN ")")
                     [LiteralExpr (VDouble 3)])]
               Interpreter_new)).
Proof.
  split; [vm_compute; reflexivity|].
  apply (parsed_program_runs_without_integers prog_integer_literals).
  vm_compute. reflexivity.
Defined.

End IntegerFreeRuns.
